(** * Connectome construction strategies of [scaffold/connectivity.py]

    A shallow embedding of the legacy connection strategies and of the
    touch detector, together with the properties of the specification
    that were checked against them.

    Conventions of the embedding.
    - A numpy [float64] array entry is a rational [Q].
    - The tests whose outcome at the boundary a property below depends
      on (the windows of [connectome_aa_pc] and [connectome_pf_pc], the
      boxes of [connectome_gj_goc], the balls of [connectome_glom_goc]
      and [connectome_pf_inter]), the shift of [Satellite] and the
      scaling and centring of [iniLayer] are evaluated as float64 does:
      every operation is followed by the rounding [fl], in the order of
      the source.  Magnitudes beyond the range of float64 are not
      modelled.
    - Elsewhere the arithmetic of the source is read as exact
      arithmetic.  Where the source takes a square root only to compare
      it, the comparison is written on the squares (see [sqrt_ltb]).
    - A population array of shape [(n, 5)] is a list of [cell] records
      [id, type, x, y, z].
    - A Python [int] is a [Z]; a row index is a [nat].
    - A Python exception is a value of [py_exn]; code that may raise
      returns a [result].
    - The process-wide random generator is an explicit stream of draws
      (part of [world]) threaded through the code.
    - The strategies that overwrite rows of an array run on a store of
      arrays ([mem]) and receive locations; the others receive the
      arrays themselves.
    - A Python [dict] is an association list in the order of insertion;
      a section of a configuration file is a [dict] of strings.

    The first part holds the definitions, one module per strategy, with
    the line numbers of [connectivity.py], followed by the layer
    registry and the readers of [scaffold/config.py] and by the
    constructor of [scaffold/scaffold.py]; the second part holds the
    properties. *)

From Stdlib Require Import List ZArith QArith Qabs Qround Qpower Bool Arith Lia Lra.
From Stdlib Require Import Psatz.
From Stdlib Require Import Permutation String SetoidList.
From Stdlib Require DecimalString.
Import ListNotations.

Local Open Scope Q_scope.

(** ** Exceptions and results *)

Inductive py_exn : Type :=
| IndexError
| ValueError
| TypeError
| KeyError
| NameError (name : string)
| Exception (message : string).

Inductive result (A : Type) : Type :=
| Ok (a : A)
| Raise (e : py_exn).

Arguments Ok {A} a.
Arguments Raise {A} e.

(** ** Numbers *)

Definition Qltb (x y : Q) : bool := negb (Qle_bool y x).

Definition sq (x : Q) : Q := x * x.

(** [sqrt_ltb s b] is the test [np.sqrt(s) < b] for [0 <= s]. *)
Definition sqrt_ltb (s b : Q) : bool := Qltb 0 b && Qltb s (sq b).

(** [int(x)] on a float: truncation towards zero. *)
Definition py_int (q : Q) : Z := Z.quot (Qnum q) (Zpos (Qden q)).

(** *** The rounding of float64

    [fl q] is the float64 value nearest to [q], ties to the even
    significand: 53 bits of significand, the exponent of the least bit
    not below -1074.  An operation of the source on two float64 values
    is the exact operation followed by [fl]. *)

Definition pow2 (e : Z) : Q := Qpower 2 e.

(** The [e] with [2^e <= q < 2^(e+1)], for a positive [q]. *)
Definition floor_log2 (q : Q) : Z :=
  let l := (Z.log2 (Qnum q) - Z.log2 (Zpos (Qden q)))%Z in
  if Qle_bool (pow2 l) q then l else (l - 1)%Z.

Definition round_half_even (m : Q) : Z :=
  let f := Qfloor m in
  match Qcompare (m - inject_Z f) (1 # 2) with
  | Lt => f
  | Gt => (f + 1)%Z
  | Eq => if Z.even f then f else (f + 1)%Z
  end.

Definition round_pos (q : Q) : Q :=
  let e := floor_log2 q in
  let p := Z.max (e - 52) (-1074) in
  inject_Z (round_half_even (q / pow2 p)) * pow2 p.

Definition fl (q : Q) : Q :=
  let r := Qred q in
  match Qnum r with
  | Z0 => 0
  | Zpos _ => Qred (round_pos r)
  | Zneg _ => Qred (- round_pos (- r))
  end.

Arguments fl q : simpl never.

(** [x + y], [x - y], [x * y], [x / y] and [x ** 2] on float64 values. *)
Definition fadd (x y : Q) : Q := fl (x + y).
Definition fsub (x y : Q) : Q := fl (x - y).
Definition fmul (x y : Q) : Q := fl (x * y).
Definition fdiv (x y : Q) : Q := fl (x / y).
Definition fsq (x : Q) : Q := fl (x * x).

(** ** Arrays *)

Record cell : Type := mkCell {
  c_id : Q;
  c_type : Q;
  c_x : Q;
  c_y : Q;
  c_z : Q
}.

Definition matrix : Type := list cell.

(** A row of a two-column connection matrix: [(from, to)]. *)
Definition edge : Type := (Q * Q)%type.

(** [np.where(v)[0]]: the positions of the true entries, ascending. *)
Fixpoint where_from (i : nat) (v : list bool) : list nat :=
  match v with
  | [] => []
  | b :: v' => if b then i :: where_from (S i) v' else where_from (S i) v'
  end.

Definition np_where (v : list bool) : list nat := where_from 0 v.

(** [a[idx]] for an index array [idx] (every index in range). *)
Definition take {A : Type} (d : A) (a : list A) (idx : list nat) : list A :=
  map (fun i => nth i a d) idx.

(** [range(k)] for a Python int [k] (empty when [k <= 0]). *)
Definition py_range (k : Z) : list nat := seq 0 (Z.to_nat k).

(** [keys.argsort()]: insertion of the positions by ascending key, equal
    keys keeping their order. *)
Fixpoint insert_by (key : nat -> Q) (i : nat) (l : list nat) : list nat :=
  match l with
  | [] => [i]
  | j :: r => if Qle_bool (key i) (key j) then i :: l else j :: insert_by key i r
  end.

Definition argsort (keys : list Q) : list nat :=
  fold_right (insert_by (fun i => nth i keys 0)) [] (seq 0 (length keys)).

Definition zero_cell : cell := mkCell 0 0 0 0 0.

(** ** The random generator and the arrays held by the scaffold

    [mem] is the store of arrays: a location is a position in it.
    [ints] feeds [np.random.permutation] and [np.random.choice], [unifs]
    feeds [np.random.random] and [np.random.uniform]; every draw of
    [unifs] is meant to lie in the interval [0, 1).  A stream that is
    used up goes on with zeros. *)

Record world : Type := mkWorld {
  mem : list matrix;
  ints : list nat;
  unifs : list Q
}.

Definition M (A : Type) : Type := world -> result A * world.

Definition ret {A : Type} (a : A) : M A := fun w => (Ok a, w).

Definition raise {A : Type} (e : py_exn) : M A := fun w => (Raise e, w).

Definition bind {A B : Type} (c : M A) (k : A -> M B) : M B :=
  fun w => match c w with
           | (Ok a, w') => k a w'
           | (Raise e, w') => (Raise e, w')
           end.

Notation "x <- c ;; k" := (bind c (fun x => k))
  (at level 61, c at next level, right associativity).
Notation "c ;;; k" := (bind c (fun _ => k))
  (at level 61, right associativity).

(** [np.random.random()] *)
Definition np_random : M Q :=
  fun w => match unifs w with
           | [] => (Ok 0, w)
           | u :: us => (Ok u, mkWorld (mem w) (ints w) us)
           end.

(** [np.random.uniform(size=n)] *)
Fixpoint np_random_uniform (n : nat) : M (list Q) :=
  match n with
  | O => ret []
  | S n' => u <- np_random ;; us <- np_random_uniform n' ;; ret (u :: us)
  end.

Definition next_int : M nat :=
  fun w => match ints w with
           | [] => (Ok 0%nat, w)
           | k :: ks => (Ok k, mkWorld (mem w) ks (unifs w))
           end.

Definition remove_nth {A : Type} (i : nat) (l : list A) : list A :=
  firstn i l ++ skipn (S i) l.

(** A shuffle by successive selection: every draw picks one of the
    entries that are left. *)
Fixpoint shuffle {A : Type} (fuel : nat) (l : list A) : M (list A) :=
  match fuel with
  | O => ret []
  | S fuel' =>
      k <- next_int ;;
      match nth_error l (k mod length l) with
      | None => ret []
      | Some x => r <- shuffle fuel' (remove_nth (k mod length l) l) ;; ret (x :: r)
      end
  end.

(** [np.random.permutation(a)]: a shuffled copy of [a]. *)
Definition np_random_permutation {A : Type} (a : list A) : M (list A) :=
  shuffle (length a) a.

(** [np.random.choice(a, size, replace=False)]: the first [size] entries
    of a permutation; numpy raises [ValueError] for a negative size or a
    sample larger than the population. *)
Definition np_random_choice {A : Type} (a : list A) (size : Z) : M (list A) :=
  if (size <? 0)%Z || (Z.of_nat (length a) <? size)%Z then raise ValueError
  else p <- np_random_permutation a ;; ret (firstn (Z.to_nat size) p).

(** *** The store

    The population arrays live in [mem]; the code receives their
    locations.  [np.copy] allocates a new array; an assignment through a
    name writes the array the name is bound to. *)

Definition load (l : nat) : M matrix :=
  fun w => match nth_error (mem w) l with
           | Some m => (Ok m, w)
           | None => (Raise KeyError, w)
           end.

Definition alloc (m : matrix) : M nat :=
  fun w => (Ok (length (mem w)), mkWorld (mem w ++ [m]) (ints w) (unifs w)).

(** [np.copy(a)] *)
Definition np_copy (l : nat) : M nat := m <- load l ;; alloc m.

Fixpoint replace_nth {A : Type} (i : nat) (v : A) (l : list A) : list A :=
  match l, i with
  | [], _ => []
  | _ :: l', O => v :: l'
  | a :: l', S i' => a :: replace_nth i' v l'
  end.

Definition put (l : nat) (m : matrix) : M unit :=
  fun w => (Ok tt, mkWorld (replace_nth l m (mem w)) (ints w) (unifs w)).

(** The row addressed by a Python index [k] in an array of [n] rows:
    negative indices count from the end. *)
Definition py_index (n : nat) (k : Z) : option nat :=
  if ((0 <=? k) && (k <? Z.of_nat n))%Z then Some (Z.to_nat k)
  else if ((- Z.of_nat n <=? k) && (k <? 0))%Z then Some (Z.to_nat (Z.of_nat n + k))
  else None.

Fixpoint py_indices (n : nat) (ks : list Z) : option (list nat) :=
  match ks with
  | [] => Some []
  | k :: ks' =>
      match py_index n k, py_indices n ks' with
      | Some i, Some is' => Some (i :: is')
      | _, _ => None
      end
  end.

(** [a[k, :] = v] for the array at [l]. *)
Definition set_row (l : nat) (k : Z) (v : cell) : M unit :=
  m <- load l ;;
  match py_index (length m) k with
  | Some i => put l (replace_nth i v m)
  | None => raise IndexError
  end.

(** [a[ks, :] = v] for an index array [ks]. *)
Definition set_rows (l : nat) (ks : list Z) (v : cell) : M unit :=
  m <- load l ;;
  match py_indices (length m) ks with
  | Some is' => put l (fold_left (fun m' i => replace_nth i v m') is' m)
  | None => raise IndexError
  end.

(** [np.delete(a, ks, 0)]: a new array without the addressed rows. *)
Definition np_delete (m : matrix) (ks : list Z) : result matrix :=
  match py_indices (length m) ks with
  | Some is' =>
      Ok (map snd (filter (fun p => negb (existsb (Nat.eqb (fst p)) is'))
                          (combine (seq 0 (length m)) m)))
  | None => Raise IndexError
  end.

Definition lift {A : Type} (r : result A) : M A :=
  match r with
  | Ok a => ret a
  | Raise e => raise e
  end.

(** The row that a scalar assignment [a[k, :] = v] leaves behind. *)
Definition all_columns (v : Q) : cell := mkCell v v v v v.

(** The draws are numbers of the interval [0, 1). *)
Definition unit_draws (w : world) : Prop :=
  Forall (fun u => 0 <= u /\ u < 1) (unifs w).

(** [frame n c post]: running [c] leaves the first [n] arrays of the
    store as they are, and a value it returns satisfies [post]. *)
Definition frame {A : Type} (n : nat) (c : M A) (post : A -> Prop) : Prop :=
  forall w r w',
    (n <= length (mem w))%nat -> c w = (r, w') ->
    firstn n (mem w') = firstn n (mem w) /\ (forall a, r = Ok a -> post a).

Definition any {A : Type} (_ : A) : Prop := True.

(** [c] never ends with the generic [Exception] of the supply check. *)
Definition no_supply_error {A : Type} (c : M A) : Prop :=
  forall w r w', c w = (r, w') -> forall msg, r <> Raise (Exception msg).

(** A loop whose iterations each append rows to one result matrix. *)
Fixpoint for_rows {A B : Type} (body : A -> M (list B)) (l : list A) : M (list B) :=
  match l with
  | [] => ret []
  | a :: l' => r <- body a ;; rs <- for_rows body l' ;; ret (r ++ rs)
  end.

(** ** ConnectomeGlomerulusGranule *)

Module GlomerulusGranule.

(** [distance_vector] of line 75, for one granule cell. *)
Definition distance_vector (glomeruli : matrix) (dend_len : Q) (gran : cell) : list Q :=
  map (fun gl => sq (c_x gl - c_x gran) + sq (c_y gl - c_y gran)
                 + sq (c_z gl - c_z gran) - sq dend_len) glomeruli.

(** [good_gloms] of line 76. *)
Definition good_gloms (glomeruli : matrix) (dend_len : Q) (gran : cell) : list nat :=
  np_where (map (fun d => Qltb d 0) (distance_vector glomeruli dend_len gran)).

(** Lines 75-91: the rows written for one granule cell. *)
Definition connect_granule (first_glomerulus : Z) (glomeruli : matrix)
    (dend_len : Q) (n_conn_glom : Z) (gran : cell) : list edge :=
  let dv := distance_vector glomeruli dend_len gran in
  let good := good_gloms glomeruli dend_len gran in
  let good_gloms_len := Z.of_nat (length good) in
  let '(connected_gloms, connected_glom_len) :=
    if (good_gloms_len >? n_conn_glom)%Z
    then (take 0%nat good (argsort (take 0 dv good)), n_conn_glom)
    else (good, good_gloms_len) in
  map (fun i => (inject_Z (Z.of_nat (nth i connected_gloms 0%nat) + first_glomerulus),
                 c_id gran))
      (py_range connected_glom_len).

(** Lines 63-95.  [results] is pre-allocated with
    [granules.shape[0] * n_conn_glom] rows, which numpy refuses when
    negative; the rows of the granule cells are written one block after
    the other and the array is cut at the write pointer. *)
Definition connectome_glom_grc (first_glomerulus : Z) (glomeruli granules : matrix)
    (dend_len : Q) (n_conn_glom : Z) : result (list edge) :=
  if (Z.of_nat (length granules) * n_conn_glom <? 0)%Z then Raise ValueError
  else Ok (flat_map (connect_granule first_glomerulus glomeruli dend_len n_conn_glom)
                    granules).

(** Lines 53-99: [connect] hands the matrix to the scaffold; the value
    returned here is that matrix. *)
Definition connect (glomeruli granules : matrix) (dend_len : Q) (convergence : Z)
    : result (list edge) :=
  match glomeruli with
  | [] => Raise IndexError      (* glomeruli[0,0] *)
  | g0 :: _ =>
      connectome_glom_grc (py_int (c_id g0)) glomeruli granules dend_len convergence
  end.

End GlomerulusGranule.

(** The scenario of ten glomeruli on a line and two granule cells. *)
Module Scenario.

Definition at_x (id x : Z) : cell := mkCell (inject_Z id) 0 (inject_Z x) 0 0.

Definition from_population : matrix :=
  map (fun k => at_x (Z.of_nat k) (Z.of_nat k)) (seq 0 10).

Definition to_0 : cell := at_x 10 0.
Definition to_9 : cell := at_x 11 9.
Definition to_population : matrix := [to_0; to_9].

(** The x coordinates of the glomeruli at the given rows. *)
Definition xs_of (candidates : list nat) : list Q :=
  map (fun i => c_x (nth i from_population zero_cell)) candidates.

(** An edge crosses when it joins the granule cell at [x = 0] with a
    glomerulus at [x >= 5], or the one at [x = 9] with a glomerulus at
    [x < 5]. *)
Definition crosses (e : edge) : bool :=
  (Qeq_bool (snd e) (c_id to_0) && Qle_bool 5 (fst e))
  || (Qeq_bool (snd e) (c_id to_9) && Qltb (fst e) 5).

End Scenario.

(** ** ConnectomeGapJunctions *)

Module GapJunctions.

(** Line 611, the entry of [constraint_vector] for cell [j] seen from
    the cell at [(x, y, z)]. *)
Definition constraint (d_xy d_z : Q) (x y z : Q) (j : cell) : bool :=
  Qltb (Qabs (c_z j - z)) d_z
  && negb (Qeq_bool (Qabs (c_z j - z)) 0)
  && sqrt_ltb (sq (c_x j - x) + sq (c_y j - y)) d_xy.

(** Line 621.  A candidate passed [constraint], so [d_z] and [d_xy] are
    positive here and [ra > sqrt(s) / d_xy] is [sqrt(s) < ra * d_xy]. *)
Definition accepted (d_xy d_z : Q) (x y z : Q) (j : cell) (ra : Q) : bool :=
  Qltb (Qabs (c_z j - z) / d_z) ra
  && sqrt_ltb (sq (c_x j - x) + sq (c_y j - y)) (ra * d_xy).

(** Lines 616-626: the walk over the shuffled candidates of one cell. *)
Fixpoint walk (d_xy d_z : Q) (dc_gj : Z) (c : cell) (idx : Z) (candidates : list cell)
    : M (list edge) :=
  match candidates with
  | [] => ret []
  | j :: rest =>
      if (idx <=? dc_gj)%Z then
        ra <- np_random ;;
        if accepted d_xy d_z (c_x c) (c_y c) (c_z c) j ra then
          es <- walk d_xy d_z dc_gj c (idx + 1)%Z rest ;;
          ret ((c_id c, c_id j) :: es)
        else walk d_xy d_z dc_gj c idx rest
      else walk d_xy d_z dc_gj c idx rest
  end.

(** Lines 606-626 for one cell. *)
Definition connect_cell (cells : matrix) (d_xy d_z : Q) (dc_gj : Z) (c : cell)
    : M (list edge) :=
  let constraint_vector := map (constraint d_xy d_z (c_x c) (c_y c) (c_z c)) cells in
  let good_sc := np_where constraint_vector in
  chosen_rand <- np_random_permutation good_sc ;;
  walk d_xy d_z dc_gj c 1%Z (take zero_cell cells chosen_rand).

(** Lines 599-628. *)
Definition gap_junctions (cells : matrix) (d_xy d_z : Q) (dc_gj : Z) : M (list edge) :=
  if (Z.of_nat (length cells) * dc_gj <? 0)%Z then raise ValueError
  else for_rows (connect_cell cells d_xy d_z dc_gj) cells.

(** Lines 590-631. *)
Definition connect (from_cells : matrix) (limit_xy limit_z : Q) (divergence : Z)
    : M (list edge) :=
  match from_cells with
  | [] => raise IndexError      (* from_cells[0, 0] *)
  | _ :: _ => gap_junctions from_cells limit_xy limit_z divergence
  end.

(** No two rows of a population carry the same id. *)
Definition unique_ids (cells : matrix) : Prop :=
  forall i j ci cj,
    nth_error cells i = Some ci -> nth_error cells j = Some cj ->
    c_id ci == c_id cj -> i = j.

End GapJunctions.

(** ** ConnectomeGapJunctionsGolgi *)

Module GapJunctionsGolgi.

(** [bool_vector[self_index] = False] *)
Fixpoint clear_at (k : nat) (v : list bool) : list bool :=
  match v, k with
  | [], _ => []
  | _ :: v', O => false :: v'
  | b :: v', S k' => b :: clear_at k' v'
  end.

(** Lines 660-665 for the Golgi cell [i] found at row [self_index]. *)
Definition good_goc (r_goc_vol GoCaxon_x GoCaxon_y GoCaxon_z : Q)
    (golgicells : matrix) (self_index : nat) (i : cell) : list nat :=
  let bx := map (fun j => Qle_bool (Qabs (fsub (c_x j) (c_x i)))
                             (fadd r_goc_vol (fdiv GoCaxon_x 2))) golgicells in
  let bx := clear_at self_index bx in
  let by_ := map (fun j => Qle_bool (Qabs (fsub (c_y j) (c_y i)))
                              (fadd r_goc_vol (fdiv GoCaxon_y 2))) golgicells in
  let bz := map (fun j => Qle_bool (Qabs (fsub (c_z j) (c_z i)))
                             (fadd r_goc_vol (fdiv GoCaxon_z 2))) golgicells in
  np_where (map (fun t => fst (fst t) && snd (fst t) && snd t)
                (combine (combine bx by_) bz)).

(** Lines 658-671: column 0 takes the id of the cell, column 1 takes
    the entries of [good_goc] as they are. *)
Fixpoint rows_from (r_goc_vol GoCaxon_x GoCaxon_y GoCaxon_z : Q)
    (golgicells : matrix) (self_index : nat) (todo : list cell) : list edge :=
  match todo with
  | [] => []
  | i :: rest =>
      map (fun k => (c_id i, inject_Z (Z.of_nat k)))
          (good_goc r_goc_vol GoCaxon_x GoCaxon_y GoCaxon_z golgicells self_index i)
      ++ rows_from r_goc_vol GoCaxon_x GoCaxon_y GoCaxon_z golgicells (S self_index) rest
  end.

(** Lines 651-673.  [end_index] is bound in the loop body only.
    [first_golgi] is a parameter of the source function. *)
Definition connectome_gj_goc (r_goc_vol GoCaxon_x GoCaxon_y GoCaxon_z : Q)
    (golgicells : matrix) (first_golgi : Z) : result (list edge) :=
  match golgicells with
  | [] => Raise (NameError "end_index")    (* UnboundLocalError *)
  | _ :: _ =>
      Ok (rows_from r_goc_vol GoCaxon_x GoCaxon_y GoCaxon_z golgicells 0 golgicells)
  end.

(** Lines 641-676. *)
Definition connect (golgis : matrix) (r_goc_vol GoCaxon_x GoCaxon_y GoCaxon_z : Q)
    : result (list edge) :=
  match golgis with
  | [] => Raise IndexError      (* golgis[0, 0] *)
  | g0 :: _ =>
      connectome_gj_goc r_goc_vol GoCaxon_x GoCaxon_y GoCaxon_z golgis (py_int (c_id g0))
  end.

End GapJunctionsGolgi.

(** ** ConnectomeGlomDCN *)

Module GlomDCN.

(** Lines 776-784 for one DCN cell. *)
Definition connect_dcn (glomeruli : matrix) (conv_dcn : Z) (i : cell) : M (list edge) :=
  connected_gloms <- np_random_choice (map c_id glomeruli) conv_dcn ;;
  ret (map (fun g => (inject_Z (py_int g), c_id i)) connected_gloms).

(** Lines 774-786. *)
Definition connectome_glom_dcn (first_glomerulus : Z) (glomeruli dcn_glut : matrix)
    (conv_dcn : Z) : M (list edge) :=
  for_rows (connect_dcn glomeruli conv_dcn) dcn_glut.

(** Lines 765-789. *)
Definition connect (glomeruli dcn_cells : matrix) (convergence : Z) : M (list edge) :=
  match glomeruli with
  | [] => raise IndexError      (* glomeruli[0, 0] *)
  | g0 :: _ => connectome_glom_dcn (py_int (c_id g0)) glomeruli dcn_cells convergence
  end.

End GlomDCN.

(** ** ConnectomeGolgiGranule *)

Module GolgiGranule.

(** Line 335: [goc_glom[goc_glom[:, 0] == golgi_id, 1]] *)
Definition connected_glomeruli (goc_glom : list edge) (golgi_id : Q) : list Q :=
  map snd (filter (fun e => Qeq_bool (fst e) golgi_id) goc_glom).

(** [x in a] for a numpy array [a]: some entry equals [x]. *)
Definition np_in (x : Q) (a : list Q) : bool := existsb (fun y => Qeq_bool y x) a.

(** Line 337. *)
Definition connected_granules_via_gloms (glom_grc goc_glom : list edge) (golgi_id : Q)
    : list Q :=
  map snd (filter (fun row => np_in (fst row) (connected_glomeruli goc_glom golgi_id))
                  glom_grc).

(** Lines 328-348. *)
Definition connectome_goc_grc (golgis : matrix) (glom_grc goc_glom : list edge)
    : list edge :=
  flat_map (fun golgi_id =>
              map (fun granule => (golgi_id, granule))
                  (connected_granules_via_gloms glom_grc goc_glom golgi_id))
           (map c_id golgis).

(** The relational join in the words of the specification: one edge
    for each pair of a [golgi_to_glomerulus] edge and a
    [glomerulus_to_granule] edge that share the glomerulus. *)
Definition relational_join (goc_glom glom_grc : list edge) : list edge :=
  flat_map (fun e1 =>
              map (fun e2 => (fst e1, snd e2))
                  (filter (fun e2 => Qeq_bool (fst e2) (snd e1)) glom_grc))
           goc_glom.

Definition edge_eqb (a b : edge) : bool :=
  Qeq_bool (fst a) (fst b) && Qeq_bool (snd a) (snd b).

Definition same_edge (a b : edge) : Prop := fst a == fst b /\ snd a == snd b.

(** The number of rows of a connection matrix equal to [e]. *)
Definition multiplicity (e : edge) (l : list edge) : nat :=
  length (filter (edge_eqb e) l).

(** The glomerulus-to-granule edges towards the granule cell of [e]
    whose glomerulus the Golgi cell of [e] reaches. *)
Definition reached (goc_glom glom_grc : list edge) (e : edge) : nat :=
  list_sum (map (fun e2 => (Nat.b2n (Qeq_bool (snd e) (snd e2))
                            * Nat.b2n (existsb (edge_eqb (fst e, fst e2)) goc_glom))%nat)
                glom_grc).

End GolgiGranule.

(** ** ConnectomeGolgiGlomerulus

    [layer_thickness] is a positive length: the order of the candidates
    by [sqrt(d) / layer_thickness] is their order by [d], and
    [ra > sqrt(d) / layer_thickness] is [sqrt(d) < ra * layer_thickness]. *)

Module GolgiGlomerulus.

Section Inputs.

Variables (first_glomerulus : Z) (glomeruli golgicells : nat).
Variables (GoCaxon_x GoCaxon_y GoCaxon_z r_glom : Q).
Variables (n_conn_goc : Z) (layer_thickness oob : Q).

(** Lines 176-180: the entry of [bool_vector] for one glomerulus. *)
Definition gate (golgi : cell) (glom : cell) : bool :=
  (Qle_bool (c_x golgi - GoCaxon_x / 2) (c_x glom + r_glom)
   && Qle_bool (c_x glom - r_glom) (c_x golgi + GoCaxon_x / 2))
  && (Qle_bool (c_y golgi - GoCaxon_y / 2) (c_y glom + r_glom)
      && Qle_bool (c_y glom - r_glom) (c_y golgi + GoCaxon_y / 2))
  && (Qle_bool (c_z golgi - GoCaxon_z / 2) (c_z glom + r_glom)
      && Qle_bool (c_z glom - r_glom) (c_z golgi + GoCaxon_z / 2)).

(** The square of the distance of line 187, before normalisation. *)
Definition dist2 (golgi : cell) (row : cell) : Q :=
  sq (c_x row - c_x golgi) + sq (c_y row - c_y golgi).

(** Line 198: [ra > probability_treshold[candidate_index]]. *)
Definition accepted (golgi : cell) (row : cell) (ra : Q) : bool :=
  sqrt_ltb (dist2 golgi row) (ra * layer_thickness).

(** Lines 194-204: the walk over the sorted candidates; an accepted
    glomerulus is overwritten in the working copy [new_glomeruli]. *)
Fixpoint walk (new_glomeruli : nat) (golgi : cell) (idx : Z) (candidates : list cell)
    : M (list edge) :=
  match candidates with
  | [] => ret []
  | glomerulus :: rest =>
      if (idx <=? n_conn_goc)%Z then
        ra <- np_random ;;
        if accepted golgi glomerulus ra then
          let glomerulus_id := c_id glomerulus in
          set_row new_glomeruli (py_int (glomerulus_id - inject_Z first_glomerulus))
                  (all_columns oob) ;;;
          es <- walk new_glomeruli golgi (idx + 1)%Z rest ;;
          ret ((c_id golgi, glomerulus_id + inject_Z first_glomerulus) :: es)
        else walk new_glomeruli golgi idx rest
      else walk new_glomeruli golgi idx rest
  end.

(** Lines 173-204 for one Golgi cell.  [glom_x], [glom_y] and
    [glom_z] are views of [glomeruli]; the candidate rows are read
    from [new_glomeruli]. *)
Definition connect_golgi (new_glomeruli : nat) (golgi : cell) : M (list edge) :=
  glom <- load glomeruli ;;
  let bool_vector := map (gate golgi) glom in
  let good_gloms := np_where bool_vector in
  chosen_rand <- np_random_permutation good_gloms ;;
  working <- load new_glomeruli ;;
  let good_gloms_matrix := take zero_cell working chosen_rand in
  let sorting_map := argsort (map (dist2 golgi) good_gloms_matrix) in
  let good_gloms_matrix := take zero_cell good_gloms_matrix sorting_map in
  walk new_glomeruli golgi 1%Z good_gloms_matrix.

(** Lines 163-205. *)
Definition connectome_goc_glom : M (list edge) :=
  new_glomeruli <- np_copy glomeruli ;;
  golgis <- load golgicells ;;
  new_golgicells <- np_random_permutation golgis ;;
  if (Z.of_nat (length golgis) * n_conn_goc <? 0)%Z then raise ValueError
  else for_rows (connect_golgi new_glomeruli) new_golgicells.

End Inputs.

(** *** The assumptions under which the exclusion works *)

(** The ids of a population are its first id plus the row number. *)
Definition dense_ids (first : Z) (m : matrix) : Prop :=
  forall r c, nth_error m r = Some c -> c_id c == inject_Z (first + Z.of_nat r).

(** The sentinel row lies at least [layer_thickness] away from the Golgi
    cell, in the plane of line 187: its threshold is at least 1. *)
Definition out_of_reach (layer_thickness oob : Q) (golgi : cell) : Prop :=
  sq layer_thickness <= dist2 golgi (all_columns oob).

(** Every row of the working copy is the row of the population or the
    sentinel row. *)
Definition working_copy (oob : Q) (G W : matrix) : Prop :=
  length W = length G
  /\ forall r, (r < length G)%nat ->
               nth r W zero_cell = nth r G zero_cell
               \/ nth r W zero_cell = all_columns oob.

Definition state_ok (oob : Q) (glomeruli : nat) (G : matrix) (l : nat)
    (w : world) (W : matrix) : Prop :=
  nth_error (mem w) glomeruli = Some G
  /\ nth_error (mem w) l = Some W
  /\ glomeruli <> l
  /\ working_copy oob G W
  /\ unit_draws w.

(** The second column of the edge written for the glomerulus of row [r]. *)
Definition target_of (first : Z) (r : nat) : Q :=
  inject_Z (first + Z.of_nat r) + inject_Z first.

(** No two rows of the matrix have the same glomerulus. *)
Definition unique_targets (es : list edge) : Prop :=
  forall i j ei ej,
    nth_error es i = Some ei -> nth_error es j = Some ej ->
    snd ei == snd ej -> i = j.

End GolgiGlomerulus.

(** ** ConnectomeAscAxonPurkinje *)

Module AscAxonPurkinje.

Section Inputs.

Variables (first_granule : Z) (granules purkinjes : nat).
Variables (x_pc z_pc OoB_value : Q).

(** Lines 381-383, with the bounds as float64 computes them. *)
Definition in_tree (i : cell) (g : cell) : bool :=
  (Qle_bool (fsub (c_z i) (fdiv z_pc 2)) (c_z g)
   && Qle_bool (c_z g) (fadd (c_z i) (fdiv z_pc 2)))
  && (Qle_bool (fsub (c_x i) (fdiv x_pc 2)) (c_x g)
      && Qle_bool (c_x g) (fadd (c_x i) (fdiv x_pc 2))).

(** Lines 378-392 for one Purkinje cell. *)
Definition connect_purkinje (new_granules : nat) (i : cell) : M (list edge) :=
  working <- load new_granules ;;
  let good_aa := np_where (map (in_tree i) working) in
  set_rows new_granules (map Z.of_nat good_aa) (all_columns OoB_value) ;;;
  ret (map (fun k => (inject_Z (Z.of_nat k + first_granule), c_id i)) good_aa).

(** Lines 373-395. *)
Definition connectome_aa_pc : M (list edge) :=
  new_granules <- np_copy granules ;;
  pcs <- load purkinjes ;;
  for_rows (connect_purkinje new_granules) pcs.

End Inputs.

End AscAxonPurkinje.

(** ** ConnectomeGranuleGolgi

    [r_goc_vol] is a positive radius: the order of the candidates by
    [sqrt(d) / r_goc_vol] is their order by [d], and
    [rolls[ind] > prob[ind]] is [sqrt(d) < rolls[ind] * r_goc_vol].  The
    density warning is a print and leaves no trace here. *)

Module GranuleGolgi.

Definition supply_message : string :=
  "The number of granule cells was less than the number of golgi cells. Simulation cannot continue.".

Section Inputs.

Variables (first_granule : Z) (granules golgicells : nat).
Variables (r_goc_vol OoB_value : Q) (n_connAA n_conn_pf tot_conn : Z).

(** Line 257. *)
Definition distance (golgi : cell) (g : cell) : Q :=
  sq (c_x g - c_x golgi) + sq (c_z g - c_z golgi).

(** Lines 257-258: the rows of the ascending axons within [r_goc_vol]
    of the Golgi cell, in the x-z plane. *)
Definition AA_candidates (working : matrix) (golgi : cell) : list nat :=
  let distance_vector := map (distance golgi) working in
  np_where (map (fun d => Qle_bool d (sq r_goc_vol)) distance_vector).

(** Lines 268-274: the ids kept in [connectedAA]. *)
Fixpoint pick_AA (golgi : cell) (idx : Z) (selected : list cell) (rolls : list Q)
    : list Q :=
  match selected, rolls with
  | j :: rest, roll :: rolls' =>
      if (idx <? n_connAA)%Z then
        if sqrt_ltb (distance golgi j) (roll * r_goc_vol)
        then c_id j :: pick_AA golgi (idx + 1)%Z rest rolls'
        else pick_AA golgi idx rest rolls'
      else pick_AA golgi idx rest rolls'
  | _, _ => []
  end.

(** Lines 255-303 for one Golgi cell: the rows added to [aa_goc] and
    to [pf_goc].  [granules_x] and [granules_z] are views of
    [new_granules]; [good_grc] is cut out of [granules]. *)
Definition connect_golgi (new_granules : nat) (golgi : cell)
    : M (list edge * list edge) :=
  working <- load new_granules ;;
  chosen_rand <- np_random_permutation (AA_candidates working golgi) ;;
  let selected_granules := take zero_cell working chosen_rand in
  let distance_sort := argsort (map (distance golgi) selected_granules) in
  let selected_granules := take zero_cell selected_granules distance_sort in
  rolls <- np_random_uniform (length selected_granules) ;;
  if (n_connAA <? 0)%Z then raise ValueError      (* np.empty(n_connAA) *)
  else
    let connectedAA := pick_AA golgi 0%Z selected_granules rolls in
    let rows_AA := map (fun id => py_int (id - inject_Z first_granule)) connectedAA in
    original <- load granules ;;
    good_grc <- lift (np_delete original rows_AA) ;;
    let intersections :=
      map (fun g => Qle_bool (c_x golgi - r_goc_vol) (c_x g)
                    && Qle_bool (c_x g) (c_x golgi + r_goc_vol)) good_grc in
    let good_pf := np_where intersections in
    let AA_connected_count := Z.of_nat (length connectedAA) in
    let parallelFibersToConnect := (tot_conn - AA_connected_count)%Z in
    connected_pf <-
      (if (Z.of_nat (length good_pf) <? parallelFibersToConnect)%Z
       then np_random_choice good_pf
              (Z.min (tot_conn - AA_connected_count) (Z.of_nat (length good_pf)))
       else np_random_choice good_pf (tot_conn - AA_connected_count)%Z) ;;
    let pf_idx := take zero_cell good_grc connected_pf in
    let matrix_pf := map (fun g => (c_id g, c_id golgi)) pf_idx in
    let matrix_aa := map (fun id => (id, c_id golgi)) connectedAA in
    set_rows new_granules
             (map (fun id => (py_int id - first_granule)%Z) connectedAA)
             (all_columns OoB_value) ;;;
    ret (matrix_aa, matrix_pf).

Fixpoint golgi_loop (new_granules : nat) (todo : list cell)
    : M (list edge * list edge) :=
  match todo with
  | [] => ret ([], [])
  | golgi :: rest =>
      r <- connect_golgi new_granules golgi ;;
      rs <- golgi_loop new_granules rest ;;
      ret (fst r ++ fst rs, snd r ++ snd rs)
  end.

(** [m[m[:, 1].argsort()]] *)
Definition sort_by_target (m : list edge) : list edge :=
  take (0, 0) m (argsort (map snd m)).

End Inputs.

(** Lines 245-307.  [n_conn_pf] is a parameter of the source function
    that its body reaches through [tot_conn] only. *)
Definition connectome_grc_goc (first_granule : Z) (granules golgicells : nat)
    (r_goc_vol OoB_value : Q) (n_connAA n_conn_pf tot_conn : Z)
    : M (list edge * list edge) :=
  new_granules <- np_copy granules ;;
  working <- load new_granules ;;
  golgis <- load golgicells ;;
  new_golgicells <- np_random_permutation golgis ;;
  if (length working <=? length new_golgicells)%nat
  then raise (Exception supply_message)
  else
    r <- golgi_loop first_granule granules r_goc_vol OoB_value n_connAA tot_conn
                    new_granules new_golgicells ;;
    ret (sort_by_target (fst r), sort_by_target (snd r)).

End GranuleGolgi.

(** ** TouchDetector

    The two methods are embedded statement by statement over dynamically
    typed values, with the name resolution of Python: a name is looked up
    among the local names of the running function, then among the names
    bound at module level. *)

Module TouchDetector.

#[local] Set Warnings "-register-all".

Inductive pyval : Type :=
| PNone
| PBool (b : bool)
| PInt (z : Z)
| PList (l : list pyval)
| PObj (name : string).

Definition env : Type := list (string * pyval).

Fixpoint assoc (x : string) (e : env) : option pyval :=
  match e with
  | [] => None
  | (y, v) :: e' => if String.eqb x y then Some v else assoc x e'
  end.

(** The names bound at module level by [connectivity.py]: its imports
    and its classes. *)
Definition module_globals : env :=
  map (fun n => (n, PObj n))
      ["abc"; "ConfigurableClass"; "assert_attr_in"; "get_parallel_fiber_heights";
       "get_dcn_rotations"; "np"; "random_element"; "ConnectionStrategy";
       "ReciprocalGolgiGlomerulus"; "TouchingConvergenceDivergence"; "TouchConnect";
       "ConnectomeGlomerulusGranule"; "ConnectomeGlomerulusGolgi";
       "ConnectomeGolgiGlomerulus"; "ConnectomeGranuleGolgi"; "ConnectomeGolgiGranule";
       "ConnectomeAscAxonPurkinje"; "ConnectomePFPurkinje"; "ConnectomePFInterneuron";
       "ConnectomeBCSCPurkinje"; "ConnectomeGapJunctions"; "ConnectomeGapJunctionsGolgi";
       "ConnectomePurkinjeDCN"; "ConnectomeGlomDCN"; "ConnectomeIOPurkinje";
       "ConnectomeIOMolecular"; "TouchDetector"; "Satellite"; "AllToAll"]%string.

(** Reading the name [x] inside a function whose local names are
    [locals]. *)
Definition name (locals : env) (x : string) : result pyval :=
  match assoc x locals with
  | Some v => Ok v
  | None =>
      match assoc x module_globals with
      | Some v => Ok v
      | None => Raise (NameError x)
      end
  end.

(** [len(v)] *)
Definition py_len (v : pyval) : result nat :=
  match v with
  | PList l => Ok (length l)
  | _ => Raise TypeError
  end.

(** The values a [for] statement walks over: iterating over an [int]
    is a [TypeError]. *)
Definition py_iter (v : pyval) : result (list pyval) :=
  match v with
  | PList l => Ok l
  | _ => Raise TypeError
  end.

(** [v[k]] on a list. *)
Definition py_getitem (v k : pyval) : result pyval :=
  match v, k with
  | PList l, PInt z =>
      match py_index (length l) z with
      | Some i => match nth_error l i with Some x => Ok x | None => Raise IndexError end
      | None => Raise IndexError
      end
  | _, _ => Raise TypeError
  end.

Definition int_range (n : nat) : pyval := PList (map (fun i => PInt (Z.of_nat i)) (seq 0 n)).

(** [random_element(seq)] is [random.choice]: [IndexError] on an empty
    sequence. *)
Definition random_element (v : pyval) : M pyval :=
  match v with
  | PList [] => raise IndexError
  | PList (x :: l) => k <- next_int ;; ret (nth (k mod length (x :: l)) (x :: l) x)
  | _ => raise TypeError
  end.

(** *** The trees

    Modelled from the spec: the tree handler and its trees are not part
    of the sources at hand.  A tree over a population holds the points
    of the population projected on the chosen plane;
    [query_radius(points, r)] answers, for each query point, the
    positions of the stored points within distance [r]. *)

Definition point : Type := list Q.

Fixpoint dist2 (p q : point) : Q :=
  match p, q with
  | a :: p', b :: q' => sq (a - b) + dist2 p' q'
  | _, _ => 0
  end.

Definition within (r : Q) (p q : point) : bool :=
  Qle_bool 0 r && Qle_bool (dist2 p q) (sq r).

Definition query_radius (tree : list point) (queries : list point) (r : Q)
    : list (list nat) :=
  map (fun q => np_where (map (fun p => within r p q) tree)) queries.

(** *** intersect_cells *)

(** [matches[match].append(i)] *)
Fixpoint append_at (matches : list (list nat)) (k : nat) (i : nat)
    : result (list (list nat)) :=
  match matches, k with
  | [], _ => Raise IndexError
  | m :: ms, O => Ok ((m ++ [i]) :: ms)
  | m :: ms, S k' =>
      match append_at ms k' i with
      | Ok ms' => Ok (m :: ms')
      | Raise e => Raise e
      end
  end.

(** Lines 849-850. *)
Fixpoint append_all (matches : list (list nat)) (row : list nat) (i : nat)
    : result (list (list nat)) :=
  match row with
  | [] => Ok matches
  | k :: row' =>
      match append_at matches k i with
      | Ok matches' => append_all matches' row' i
      | Raise e => Raise e
      end
  end.

(** Lines 848-850 over the values of the iteration. *)
Fixpoint mirror_loop (reversed_matches matches : list (list nat)) (todo : list pyval)
    : result (list (list nat)) :=
  match todo with
  | [] => Ok matches
  | PInt z :: todo' =>
      match py_index (length reversed_matches) z with
      | Some i =>
          match append_all matches (nth i reversed_matches []) i with
          | Ok matches' => mirror_loop reversed_matches matches' todo'
          | Raise e => Raise e
          end
      | None => Raise IndexError
      end
  | _ :: _ => Raise TypeError
  end.

(** Line 844: the branch taken when [from_count < to_count]. *)
Definition direct_branch (from_points to_points : list point) (radius : Q)
    : result (list (list nat)) :=
  Ok (query_radius to_points from_points radius).

(** Lines 846-851: the other branch; line 848 iterates over
    [len(reversed_matches)]. *)
Definition mirrored_branch (from_points to_points : list point) (radius : Q)
    : result (list (list nat)) :=
  let reversed_matches := query_radius from_points to_points radius in
  let matches := repeat [] (length reversed_matches) in
  match py_iter (PInt (Z.of_nat (length reversed_matches))) with
  | Ok todo => mirror_loop reversed_matches matches todo
  | Raise e => Raise e
  end.

(** Lines 832-851.  The populations are given by the points of their
    trees, their placed counts are the numbers of points; the search
    radii are what [get_search_radius] would answer. *)
Definition intersect_cells (self : pyval) (from_points to_points : list point)
    (from_radius to_radius : Q) : result (list (list nat)) :=
  let locals : env :=
    [("self", self); ("cell_plane", PNone); ("from_type", PNone); ("to_type", PNone);
     ("from_cell_tree", PNone); ("to_cell_tree", PNone);
     ("from_count", PInt (Z.of_nat (length from_points)));
     ("to_count", PInt (Z.of_nat (length to_points)))]%string in
  match name locals "from_cell_type" with
  | Raise e => Raise e
  | Ok _ =>
      match name locals "to_cell_type" with
      | Raise e => Raise e
      | Ok _ =>
          let radius := from_radius + to_radius in
          if (length from_points <? length to_points)%nat
          then direct_branch from_points to_points radius
          else mirrored_branch from_points to_points radius
      end
  end.

(** The mirroring in the words of the specification: the answer for
    the from-entity [j] lists the to-entities whose reversed answer
    holds [j]. *)
Definition mirror (reversed_matches : list (list nat)) (from_count : nat)
    : list (list nat) :=
  map (fun j => np_where (map (fun row => existsb (Nat.eqb j) row) reversed_matches))
      (seq 0 from_count).

(** *** intersect_compartments *)

Section Collaborators.

(** [self.scaffold.translate_cell_ids], [x.name] and
    [self.get_compartment_intersections] belong to code that is not
    part of the sources at hand. *)
Variable translate_cell_ids : pyval -> pyval -> pyval.
Variable attr_name : pyval -> pyval.
Variable get_compartment_intersections : pyval -> pyval -> pyval -> pyval.

(** Lines 858-865: the loop over [range(len(candidate_map))]. *)
Fixpoint compartment_loop (self id_map_from id_map_to cell_matches : pyval)
    (todo : list nat) : M (list (pyval * pyval) * list pyval) :=
  match todo with
  | [] => ret ([], [])
  | i :: todo' =>
      from_id <- lift (py_getitem id_map_from (PInt (Z.of_nat i))) ;;
      to_id <- lift (py_getitem id_map_to cell_matches) ;;
      let intersections := get_compartment_intersections self from_id to_id in
      n <- lift (py_len intersections) ;;
      if (0 <? n)%nat then
        chosen <- random_element intersections ;;
        rest <- compartment_loop self id_map_from id_map_to cell_matches todo' ;;
        ret ((from_id, to_id) :: fst rest, chosen :: snd rest)
      else compartment_loop self id_map_from id_map_to cell_matches todo'
  end.

(** Lines 853-866.  The function has the parameters [candidate_map]
    and [reversed_map] and no other local name before line 854. *)
Definition intersect_compartments (candidate_map reversed_map : pyval)
    : M (list (pyval * pyval) * list pyval) :=
  let locals : env :=
    [("candidate_map", candidate_map); ("reversed_map", reversed_map)]%string in
  (* line 854 *)
  self <- lift (name locals "self") ;;
  cell_matches <- lift (name locals "cell_matches") ;;
  n <- lift (py_len cell_matches) ;;
  from_type <- lift (name locals "from_type") ;;
  let id_map_from := translate_cell_ids (int_range n) (attr_name from_type) in
  (* line 855 *)
  to_type <- lift (name locals "to_type") ;;
  let id_map_to := translate_cell_ids (int_range n) (attr_name to_type) in
  (* lines 856-866 *)
  m <- lift (py_len candidate_map) ;;
  compartment_loop self id_map_from id_map_to cell_matches (seq 0 m).

(** Lines 823-826: the bound method [self.intersect_compartments]
    receives [self] as its first parameter. *)
Definition connect (self : pyval) (from_points to_points : list point)
    (from_radius to_radius : Q) : M (list (pyval * pyval) * list pyval) :=
  candidates <- lift (intersect_cells self from_points to_points from_radius to_radius) ;;
  intersect_compartments self
    (PList (map (fun row => PList (map (fun k => PInt (Z.of_nat k)) row)) candidates)).

End Collaborators.

End TouchDetector.

(** ** ConnectomeGlomerulusGolgi *)

Module GlomerulusGolgi.

(** Line 127: the entry of [volume_matrix] for one glomerulus. *)
Definition in_volume (r_goc_vol : Q) (golgi glom : cell) : bool :=
  Qle_bool (fsub (fadd (fadd (fsq (fsub (c_x glom) (c_x golgi)))
                             (fsq (fsub (c_y glom) (c_y golgi))))
                       (fsq (fsub (c_z glom) (c_z golgi))))
                 (fsq r_goc_vol)) 0
  && Qle_bool (c_y glom) (c_y golgi).

(** Lines 124-134 for one Golgi cell. *)
Definition connect_golgi (first_glomerulus : Z) (glomeruli : matrix) (r_goc_vol : Q)
    (golgi : cell) : list edge :=
  let good_gloms := np_where (map (in_volume r_goc_vol golgi) glomeruli) in
  map (fun k => (inject_Z (Z.of_nat k + first_glomerulus), c_id golgi)) good_gloms.

(** Lines 117-136. *)
Definition connectome_glom_goc (first_glomerulus : Z) (glomeruli golgicells : matrix)
    (r_goc_vol : Q) : list edge :=
  flat_map (connect_golgi first_glomerulus glomeruli r_goc_vol) golgicells.

(** Lines 108-139. *)
Definition connect (glomeruli golgis : matrix) (r_goc_vol : Q) : result (list edge) :=
  match glomeruli with
  | [] => Raise IndexError      (* glomeruli[0,0] *)
  | g0 :: _ => Ok (connectome_glom_goc (py_int (c_id g0)) glomeruli golgis r_goc_vol)
  end.

End GlomerulusGolgi.

(** ** ConnectomePFPurkinje *)

Module PFPurkinje.

(** Line 423: the entry of [bool_matrix] for one granule cell. *)
Definition in_strip (x_pc : Q) (i g : cell) : bool :=
  Qle_bool (fsub (c_x i) (fdiv x_pc 2)) (c_x g)
  && Qle_bool (c_x g) (fadd (c_x i) (fdiv x_pc 2)).

(** Lines 420-430 for one Purkinje cell. *)
Definition connect_purkinje (first_granule : Z) (granules : matrix) (x_pc : Q)
    (i : cell) : list edge :=
  let good_pf := np_where (map (in_strip x_pc i) granules) in
  map (fun k => (inject_Z (Z.of_nat k + first_granule), c_id i)) good_pf.

(** Lines 417-432. *)
Definition connectome_pf_pc (first_granule : Z) (granules purkinjes : matrix)
    (x_pc : Q) : list edge :=
  flat_map (connect_purkinje first_granule granules x_pc) purkinjes.

End PFPurkinje.

(** ** ConnectomeBCSCPurkinje

    [baskets], read in lines 519-520, is the array that [connect] passes
    as [basketcells].  A candidate passed its gate, so the limits that
    divide in lines 546 and 560 are positive there. *)

Module BCSCPurkinje.

Section Inputs.

Variables (distx distz : Q) (conv : Z).

(** Line 527. *)
Definition sc_gate (p s : cell) : bool :=
  Qltb (Qabs (c_z s - c_z p)) distz && Qltb (Qabs (c_x s - c_x p)) distx.

(** Line 528. *)
Definition bc_gate (p b : cell) : bool :=
  Qltb (Qabs (c_z b - c_z p)) distx && Qltb (Qabs (c_x b - c_x p)) distz.

(** Line 546. *)
Definition bc_accepted (p j : cell) (ra : Q) : bool :=
  Qltb (Qabs (c_z j - c_z p) / distx) ra && Qltb (Qabs (c_x j - c_x p) / distz) ra.

(** Line 560. *)
Definition sc_accepted (p k : cell) (ra : Q) : bool :=
  Qltb (Qabs (c_z k - c_z p) / distz) ra && Qltb (Qabs (c_x k - c_x p) / distx) ra.

(** The loop of lines 541-551 and, with the other test, of lines
    555-565. *)
Fixpoint capped_walk (accepted : cell -> cell -> Q -> bool) (p : cell) (idx : Z)
    (candidates : list cell) : M (list edge) :=
  match candidates with
  | [] => ret []
  | j :: rest =>
      if (idx <=? conv)%Z then
        ra <- np_random ;;
        if accepted p j ra then
          es <- capped_walk accepted p (idx + 1)%Z rest ;;
          ret ((c_id j, c_id p) :: es)
        else capped_walk accepted p idx rest
      else capped_walk accepted p idx rest
  end.

(** Lines 521-565 for one Purkinje cell: the rows added to [sc_pc] and
    to [bc_pc]. *)
Definition connect_purkinje (basketcells stellates : matrix) (p : cell)
    : M (list edge * list edge) :=
  let good_bc := np_where (map (bc_gate p) basketcells) in
  let good_sc := np_where (map (sc_gate p) stellates) in
  chosen_rand_bc <- np_random_permutation good_bc ;;
  let good_bc_matrix := take zero_cell basketcells chosen_rand_bc in
  chosen_rand_sc <- np_random_permutation good_sc ;;
  let good_sc_matrix := take zero_cell stellates chosen_rand_sc in
  bc <- capped_walk bc_accepted p 1%Z good_bc_matrix ;;
  sc <- capped_walk sc_accepted p 1%Z good_sc_matrix ;;
  ret (sc, bc).

Fixpoint purkinje_loop (basketcells stellates : matrix) (todo : list cell)
    : M (list edge * list edge) :=
  match todo with
  | [] => ret ([], [])
  | p :: rest =>
      r <- connect_purkinje basketcells stellates p ;;
      rs <- purkinje_loop basketcells stellates rest ;;
      ret (fst r ++ fst rs, snd r ++ snd rs)
  end.

End Inputs.

(** Lines 510-568: the matrices [sc_pc] and [bc_pc].  The coordinates of
    the basket cells are read from [baskets], the array of the enclosing
    method that is passed as [basketcells]. *)
Definition connectome_sc_bc_pc (first_stellate first_basket : Z)
    (basketcells stellates purkinjes : matrix) (distx distz : Q) (conv : Z)
    : M (list edge * list edge) :=
  if (Z.of_nat (length purkinjes) * conv <? 0)%Z then raise ValueError
  else purkinje_loop distx distz conv basketcells stellates purkinjes.

(** Lines 496-572: the two matrices handed to the scaffold. *)
Definition connect (baskets stellates purkinjes : matrix) (limit_x limit_z : Q)
    (convergence : Z) : M (list edge * list edge) :=
  match stellates with
  | [] => raise IndexError      (* stellates[0, 0] *)
  | s0 :: _ =>
      match baskets with
      | [] => raise IndexError      (* baskets[0, 0] *)
      | b0 :: _ =>
          connectome_sc_bc_pc (py_int (c_id s0)) (py_int (c_id b0))
                              baskets stellates purkinjes limit_x limit_z convergence
      end
  end.

End BCSCPurkinje.

(** ** ConnectomePurkinjeDCN *)

Module PurkinjeDCN.

Section Inputs.

(** [dend_tree_coeff] is an array of shape [(n, 4)]: a row holds the
    four coefficients of a plane.  Line 713 divides by a square root;
    the distance it computes fills column 0 of [dist_matrix] and is not
    read again. *)
Variable point_plane_distance : Q * Q * Q * Q -> cell -> Q.

(** [column[:] = v]: [v] has the length of the column or one entry. *)
Definition fill_column (n : nat) (v : list Q) : result (list Q) :=
  if (length v =? n)%nat then Ok v
  else match v with
       | [x] => Ok (repeat x n)
       | _ => Raise ValueError
       end.

(** [np.zeros((k, 2))] filled with the first [k] rows of [dcn_dist]:
    lines 730-739 with [k = div_pc], lines 742-750 with
    [k = div_pc - 1]. *)
Definition first_rows (k : Z) (dcn_dist : list (Q * Q)) (i : cell) : M (list edge) :=
  if (k <? 0)%Z then raise ValueError
  else ret (map (fun row => (c_id i, inject_Z (py_int (snd row))))
                (firstn (Z.to_nat k) dcn_dist)).

(** Lines 710-750 for one Purkinje cell. *)
Definition connect_purkinje (dcn_cells : matrix) (div_pc : Z)
    (dend_tree_coeff : list (Q * Q * Q * Q)) (i : cell) : M (list edge) :=
  distance <- lift (fill_column (length dcn_cells)
                      (map (fun co => point_plane_distance co i) dend_tree_coeff)) ;;
  let dist_matrix := combine distance (map c_id dcn_cells) in
  dcn_dist <- np_random_permutation dist_matrix ;;
  if (Z.of_nat (length dcn_cells) <? div_pc)%Z then
    ret (map (fun d => (c_id i, c_id d)) dcn_cells)
  else
    coin <- np_random ;;
    if Qltb (1 # 2) coin then first_rows div_pc dcn_dist i
    else first_rows (div_pc - 1)%Z dcn_dist i.

(** Lines 707-751. *)
Definition connectome_pc_dcn (first_dcn : Z) (purkinjes dcn_cells : matrix)
    (div_pc : Z) (dend_tree_coeff : list (Q * Q * Q * Q)) : M (list edge) :=
  for_rows (connect_purkinje dcn_cells div_pc dend_tree_coeff) purkinjes.

(** Lines 694-754; [dcn_angles] is what [get_dcn_rotations] answered.
    [None]: the method returned at line 703 and handed nothing to the
    scaffold. *)
Definition connect (purkinjes dcn_cells : matrix) (divergence : Z)
    (dcn_angles : list (Q * Q * Q * Q)) : M (option (list edge)) :=
  match dcn_cells with
  | [] => ret None
  | d0 :: _ =>
      r <- connectome_pc_dcn (py_int (c_id d0)) purkinjes dcn_cells divergence
                             dcn_angles ;;
      ret (Some r)
  end.

End Inputs.

End PurkinjeDCN.

(** ** Small populations used as examples *)

Module Examples.

Definition example_granules : matrix :=
  [mkCell 0 0 0 0 0; mkCell 1 0 1 0 0; mkCell 2 0 50 0 0].

Definition example_purkinjes : matrix := [mkCell 10 0 0 0 0; mkCell 11 0 1 0 0].

Definition example_world : world :=
  mkWorld [example_granules; example_purkinjes] [] [].

(** A stand-in for the class [Layer] and for the two parsers, for the
    examples: a layer is the triple it is built from, and the parsers
    know the numbers of the examples. *)
Definition example_Layer : Type := (string * (list Q * list Q))%type.

Definition example_new_Layer (name : string) (origin dimensions : list Q)
    : example_Layer := (name, (origin, dimensions)).

Definition example_number (s : string) : result Q :=
  if String.eqb s "150" then Ok 150
  else if String.eqb s "30" then Ok 30
  else if String.eqb s "0.5" then Ok (1 # 2)
  else Raise ValueError.


Definition example_purkinje : list (string * string) :=
  [("thickness", "30"); ("stack", "True"); ("xzscale", "0.5"); ("xzcenter", "True")]%string.

(** The distance of line 713 for planes whose normal has length 1,
    and two such planes, across the z axis. *)
Definition example_plane_distance (plane : Q * Q * Q * Q) (i : cell) : Q :=
  let '(a, b, c, d) := plane in Qabs (a * c_x i + b * c_y i + c * c_z i + d).

Definition example_planes : list (Q * Q * Q * Q) := [(0, 0, 1, 0); (0, 0, 1, -5)].

End Examples.

(** ** ConnectomePFInterneuron *)

Module PFInterneuron.




End PFInterneuron.


(** * The layer registry of [scaffold/config.py] *)

Module ScaffoldConfig.

(** [str.format] of a Python [int]. *)
Definition py_str_int (k : Z) : string :=
  DecimalString.NilZero.string_of_int (Z.to_int k).

(** A Python [dict] keeps its keys in the order of their first
    assignment; [d[k] = v] for a key that is present replaces the value
    where the key stands. *)
Fixpoint dict_set {V : Type} (k : string) (v : V) (d : list (string * V))
    : list (string * V) :=
  match d with
  | [] => [(k, v)]
  | (k', v') :: d' =>
      if String.eqb k k' then (k, v) :: d' else (k', v') :: dict_set k v d'
  end.

Fixpoint dict_get {V : Type} (k : string) (d : list (string * V)) : option V :=
  match d with
  | [] => None
  | (k', v') :: d' => if String.eqb k k' then Some v' else dict_get k d'
  end.

(** [list(d.values())] *)
Definition dict_values {V : Type} (d : list (string * V)) : list V := map snd d.

(** [l.index(x)], [None] where Python raises [ValueError]. *)
Fixpoint list_index (x : string) (l : list string) : option nat :=
  match l with
  | [] => None
  | y :: l' => if String.eqb x y then Some O else option_map S (list_index x l')
  end.

(** [s.split(sep)] for a separator of one character. *)
Fixpoint split_on (sep : Ascii.ascii) (s : string) : list string :=
  match s with
  | EmptyString => [EmptyString]
  | String ch s' =>
      if Ascii.eqb ch sep then EmptyString :: split_on sep s'
      else match split_on sep s' with
           | [] => [String ch EmptyString]
           | piece :: pieces => String ch piece :: pieces
           end
  end.

Definition comma : Ascii.ascii := Ascii.ascii_of_nat 44.

(** Sequencing of code that may raise. *)
Definition and_then {A B : Type} (r : result A) (k : A -> result B) : result B :=
  match r with
  | Ok a => k a
  | Raise e => Raise e
  end.

Notation "x <-- r ; k" := (and_then r (fun x => k))
  (at level 61, r at next level, right associativity).

Section Registry.

(** The class of the layers lives in [models.py]; the registry reads
    the attribute [name] of a layer and nothing else. *)
Variable Layer : Type.
Variable layer_name : Layer -> string.

(** The attributes of a [ScaffoldConfig] that the layer methods use. *)
Record config : Type := mkConfig {
  Layers : list (string * Layer);
  LayerIDs : list string;
  X : Q;
  Z : Q
}.

(** Lines 13-27. *)
Definition init : config := mkConfig [] [] 200 200.

(** Lines 74-84. *)
Definition addLayer (layer : Layer) (c : config) : config :=
  mkConfig (dict_set (layer_name layer) layer (Layers c))
           (LayerIDs c ++ [layer_name layer]) (X c) (Z c).

(** Lines 86-106, with the default arguments [name=''] and [id=-1]
    written out by the caller. *)
Definition getLayer (name : string) (id : BinNums.Z) (c : config) : result Layer :=
  if (-1 <? id)%Z then
    if (Z.of_nat (length (LayerIDs c)) <=? id)%Z then
      Raise (Exception (String.append "Layer with id "
                          (String.append (py_str_int id) " not found.")))
    else
      match nth_error (dict_values (Layers c)) (Z.to_nat id) with
      | Some layer => Ok layer
      | None => Raise IndexError
      end
  else if negb (String.eqb name EmptyString) then
    match dict_get name (Layers c) with
    | Some layer => Ok layer
    | None =>
        Raise (Exception (String.append "Layer with name '"
                            (String.append name "' not found")))
    end
  else
    Raise (Exception
             (String.append "Invalid arguments for ScaffoldConfig.getLayer: name='"
                (String.append name (String.append "', id=" (py_str_int id))))).

(** Lines 108-109. *)
Definition getLayerID (name : string) (c : config) : result nat :=
  match list_index name (LayerIDs c) with
  | Some k => Ok k
  | None => Raise ValueError
  end.

(** Lines 111-112. *)
Definition getLayerList (c : config) : list Layer := dict_values (Layers c).

(** The configuration after [addLayer] was called for each layer of a
    list, in order, on a new configuration. *)
Definition registered (layers : list Layer) : config :=
  fold_left (fun c layer => addLayer layer c) layers init.

(** *** [ScaffoldIniConfig.iniLayer]

    The collaborators of other modules: the constructor of [Layer] and
    the two attributes that line 280 reads back, [parseToMicrometer] of
    [quantities.py], and [float] on a string. *)
Variable new_Layer : string -> list Q -> list Q -> Layer.
Variables layer_origin layer_dimensions : Layer -> list Q.
Variable parseToMicrometer : string -> result Q.
Variable py_float : string -> result Q.

(** [[float(coord) for coord in pieces]]: the first piece that is not a
    number raises. *)
Fixpoint floats (pieces : list string) : result (list Q) :=
  match pieces with
  | [] => Ok []
  | p :: rest =>
      x <-- py_float p ;
      xs <-- floats rest ;
      Ok (x :: xs)
  end.

(** Lines 263-269. *)
Definition position (name : string) (section : list (string * string))
    : result (list Q) :=
  match dict_get "position" section with
  | None => Ok [0; 0; 0]
  | Some p =>
      origin <-- floats (split_on comma p) ;
      if negb (length origin =? 3)%nat then
        Raise (Exception
                 (String.append "Invalid position '"
                    (String.append p
                       (String.append "' given in section '"
                          (String.append name "'")))))
      else Ok origin
  end.

(** Lines 272-280: [origin[1]] of a layer that is stacked. *)
Definition stack (section : list (string * string)) (c : config) (origin : list Q)
    : result (list Q) :=
  match dict_get "stack" section with
  | None => Ok origin
  | Some s =>
      if String.eqb s "False" then Ok origin
      else
        match rev (getLayerList c) with
        | [] => Ok (replace_nth 1 0 origin)
        | previousLayer :: _ =>
            match nth_error (layer_origin previousLayer) 1,
                  nth_error (layer_dimensions previousLayer) 1 with
            | Some y, Some h => Ok (replace_nth 1 (y + h) origin)
            | _, _ => Raise IndexError
            end
        end
  end.

(** Lines 247-295: the layer and the configuration that holds it.  The
    products of line 286 and the differences and quotients of lines
    289-290 are rounded as float64 rounds them. *)
Definition iniLayer (name : string) (section : list (string * string)) (c : config)
    : result (Layer * config) :=
  match dict_get "thickness" section with
  | None =>
      Raise (Exception
               (String.append "Required attribute Thickness missing in "
                  (String.append name " section.")))
  | Some t =>
      thickness <-- parseToMicrometer t ;
      origin <-- position name section ;
      origin <-- stack section c origin ;
      xzScale <-- match dict_get "xzscale" section with
                  | None => Ok 1
                  | Some s => py_float s
                  end ;
      let dimensions := [fmul (X c) xzScale; thickness; fmul (Z c) xzScale] in
      let origin :=
        match dict_get "xzcenter" section with
        | Some s =>
            if String.eqb s "True" then
              replace_nth 2 (fdiv (fsub (Z c) (nth 2 dimensions 0)) 2)
                (replace_nth 0 (fdiv (fsub (X c) (nth 0 dimensions 0)) 2) origin)
            else origin
        | None => origin
        end in
      let layer := new_Layer name origin dimensions in
      Ok (layer, addLayer layer c)
  end.

End Registry.

Arguments mkConfig {Layer} Layers LayerIDs X Z.
Arguments Layers {Layer} c.
Arguments LayerIDs {Layer} c.
Arguments X {Layer} c.
Arguments Z {Layer} c.
Arguments addLayer {Layer} layer_name layer c.
Arguments getLayer {Layer} name id c.
Arguments getLayerID {Layer} name c.
Arguments getLayerList {Layer} c.
Arguments registered {Layer} layer_name layers.
Arguments iniLayer {Layer} layer_name new_Layer layer_origin layer_dimensions
  parseToMicrometer py_float name section c.

End ScaffoldConfig.


(** ** Satellite *)

Module Satellite.

(** [np.amin(a)] over the entries of [a]; numpy raises [ValueError] for
    an array without entries. *)
Definition np_amin (a : list Q) : result Q :=
  match a with
  | [] => Raise ValueError
  | x :: rest => Ok (fold_left (fun m y => if Qltb y m then y else m) rest x)
  end.

(** Lines 884-886: round [num_after] of the loop binds
    [after_connections] to the connections stored under the tag
    [after_connection[num_after]]; [todo] holds the entries of
    [placement.after] that are left. *)
Fixpoint after_loop (after_connection : list string)
    (cell_connections_by_tag : list (string * list edge)) (num_after : nat)
    (todo : list string) (after_connections : option (list edge))
    : result (option (list edge)) :=
  match todo with
  | [] => Ok after_connections
  | _ :: rest =>
      match nth_error after_connection num_after with
      | None => Raise IndexError
      | Some tag =>
          match ScaffoldConfig.dict_get tag cell_connections_by_tag with
          | None => Raise KeyError
          | Some connections =>
              after_loop after_connection cell_connections_by_tag (S num_after) rest
                         (Some connections)
          end
      end
  end.

(** Lines 878-891.  [after] is [placement.after] of the target cell
    type, [to_cells] holds the entries of the array that
    [get_cells_by_type] answers; the result is the matrix handed to
    [connect_cells]. *)
Definition connect (after after_conn : list string)
    (cell_connections_by_tag : list (string * list edge)) (to_cells : list Q)
    : result (list edge) :=
  match after_loop after_conn cell_connections_by_tag 0 after None with
  | Raise e => Raise e
  | Ok None => Raise (NameError "after_connections")     (* UnboundLocalError *)
  | Ok (Some after_connections) =>
      match np_amin (map snd after_connections) with
      | Raise e => Raise e
      | Ok first_after =>
          match np_amin to_cells with
          | Raise e => Raise e
          | Ok first_to =>
              Ok (map (fun e => (fst e, fadd (fsub (snd e) first_after) first_to))
                      after_connections)
          end
      end
  end.

End Satellite.


(** * Cell types read from a configuration file *)

Module ScaffoldIniConfig.

Section CellTypes.

(** The classes of [models.py], [geometries.py] and [placement.py], with
    the attributes and the two setters of a cell type that
    [finalizeCellType] uses. *)
Variables CellType Geometry PlacementStrategy : Type.
Variable cell_name : CellType -> string.
Variable cell_ratio : CellType -> option Q.
Variable cell_ratioTo : CellType -> string.
Variable setGeometry : CellType -> Geometry -> CellType.
Variable setPlacementStrategy : CellType -> PlacementStrategy -> CellType.

(** The dictionaries of the configuration. *)
Variable Geometries : list (string * Geometry).
Variable PlacementStrategies : list (string * PlacementStrategy).
Variable CellTypes : list (string * CellType).

(** Lines 227-238.  Both messages are formatted with [name], which is
    neither a parameter nor a local variable nor a name of the module. *)
Definition iniGeometricCell (cellType : CellType) (section : list (string * string))
    : result CellType :=
  match ScaffoldConfig.dict_get "geometryname" section with
  | None => Raise (NameError "name")
  | Some geometryName =>
      match ScaffoldConfig.dict_get geometryName Geometries with
      | None => Raise (NameError "name")
      | Some geometry => Ok (setGeometry cellType geometry)
      end
  end.

(** Lines 240-245. *)
Definition iniMorphologicCell (cellType : CellType) (section : list (string * string))
    : result CellType :=
  Raise (Exception "Morphologic cells not implemented yet.").

(** Lines 334-359; the cell type is the one the setters have updated. *)
Definition finalizeCellType (cellType : CellType) (section : list (string * string))
    : result CellType :=
  match ScaffoldConfig.dict_get "morphologytype" section with
  | None =>
      Raise (Exception
               (String.append "Required attribute MorphologyType missing in "
                  (String.append (cell_name cellType) " section.")))
  | Some morphoType =>
      ScaffoldConfig.and_then
        (if String.eqb morphoType "Geometry" then iniGeometricCell cellType section
         else if String.eqb morphoType "Morphology"
              then iniMorphologicCell cellType section
              else Raise (Exception
                            "Cell morphology type must be either 'Geometry' or 'Morphology'"))
        (fun cellType =>
           match ScaffoldConfig.dict_get "placementstrategy" section with
           | None =>
               Raise (Exception
                        (String.append
                           "Required attribute PlacementStrategy missing in "
                           (String.append (cell_name cellType) " section.")))
           | Some placementName =>
               match ScaffoldConfig.dict_get placementName PlacementStrategies with
               | None =>
                   Raise (Exception
                            (String.append "Unknown placement strategy '"
                               (String.append placementName
                                  (String.append "' in "
                                     (String.append (cell_name cellType)
                                                    " section")))))
               | Some placement =>
                   match cell_ratio cellType,
                         ScaffoldConfig.dict_get (cell_ratioTo cellType) CellTypes with
                   | Some _, None =>
                       Raise (Exception
                                (String.append "Ratio defined to unknown cell type '"
                                   (String.append (cell_ratioTo cellType)
                                      (String.append "' in "
                                                     (cell_name cellType)))))
                   | _, _ => Ok (setPlacementStrategy cellType placement)
                   end
               end
           end)
  end.

End CellTypes.

End ScaffoldIniConfig.

(** * The scaffold of [scaffold/scaffold.py] *)

Module Scaffold.

Section Components.

(** The objects of the configuration and what their method
    [initialise] answers; [Statistics] is what the constructor of the
    class of [statistics.py] answers. *)
Variables Layer CellType PlacementStrategy : Type.
Variable initialise_layer : Layer -> result unit.
Variable initialise_cell : CellType -> result unit.
Variable initialise_placement : PlacementStrategy -> result unit.
Variable Statistics : result unit.

(** [for name, item in d.items(): item.initialise(self)] *)
Fixpoint initialise_each {A : Type} (initialise : A -> result unit)
    (items : list (string * A)) : result unit :=
  match items with
  | [] => Ok tt
  | (_, item) :: rest =>
      ScaffoldConfig.and_then (initialise item)
                              (fun _ => initialise_each initialise rest)
  end.

(** Lines 21-37. *)
Definition initialiseComponents (Layers : list (string * Layer))
    (CellTypes : list (string * CellType))
    (PlacementStrategies : list (string * PlacementStrategy)) : result unit :=
  ScaffoldConfig.and_then (initialise_each initialise_layer Layers) (fun _ =>
  ScaffoldConfig.and_then (initialise_each initialise_cell CellTypes) (fun _ =>
  initialise_each initialise_placement PlacementStrategies)).

(** Lines 45-53: the two dictionaries are built, then the loop asks for
    [placement_stats], a name that is bound nowhere (the dictionary is
    the attribute [self.placement_stats]). *)
Definition initLegacyCode (CellTypes : list (string * CellType)) : result unit :=
  let final_cell_positions := map (fun kv => (fst kv, @nil Q)) CellTypes in
  let placement_stats := map (fun kv => (fst kv, @nil (string * Q))) CellTypes in
  Raise (NameError "placement_stats").

(** Lines 12-19. *)
Definition init (Layers : list (string * Layer))
    (CellTypes : list (string * CellType))
    (PlacementStrategies : list (string * PlacementStrategy)) : result unit :=
  ScaffoldConfig.and_then Statistics (fun _ =>
  ScaffoldConfig.and_then (initialiseComponents Layers CellTypes PlacementStrategies)
                          (fun _ => initLegacyCode CellTypes)).

End Components.

End Scaffold.


(** ** Specifications of the strategies *)

Module Specs.

(** The matrix of [connectome_aa_pc] without the working copy: a
    Purkinje cell takes the granule cells inside its dendritic tree that
    are inside the tree of none of the Purkinje cells [seen] before it. *)
Fixpoint first_come (first_granule : Z) (x_pc z_pc : Q) (G : matrix)
    (seen todo : list cell) : list edge :=
  match todo with
  | [] => []
  | i :: rest =>
      map (fun k => (inject_Z (Z.of_nat k + first_granule), c_id i))
          (np_where (map (fun g => AscAxonPurkinje.in_tree x_pc z_pc i g
                                   && negb (existsb (fun q =>
                                              AscAxonPurkinje.in_tree x_pc z_pc q g)
                                            seen)) G))
      ++ first_come first_granule x_pc z_pc G (seen ++ [i]) rest
  end.

(** The rows of a list are in ascending order of [key]. *)
Definition ascending {A : Type} (key : A -> Q) (l : list A) : Prop :=
  StronglySorted (fun a b => key a <= key b) l.


(** The working copy of [connectome_aa_pc] once the Purkinje cells
    [seen] are done: the granule cells inside one of their trees are
    overwritten. *)
Definition masked (x_pc z_pc oob : Q) (seen : list cell) (G : matrix) : matrix :=
  map (fun g => if existsb (fun q => AscAxonPurkinje.in_tree x_pc z_pc q g) seen
                then all_columns oob else g) G.

(** No two rows of a matrix have the same first column. *)
Definition unique_sources (es : list edge) : Prop :=
  forall i j ei ej,
    nth_error es i = Some ei -> nth_error es j = Some ej ->
    fst ei == fst ej -> i = j.

(** The number of rows of a matrix whose second column is [id]: the
    connections that the cell [id] receives. *)
Definition inputs_of (id : Q) (m : list edge) : nat :=
  length (filter (fun e => Qeq_bool (snd e) id) m).

(** The number of cells of a population that carry the id [id]. *)
Definition carriers (id : Q) (cells : matrix) : nat :=
  length (filter (fun c => Qeq_bool (c_id c) id) cells).

End Specs.

(** * Properties *)

(** ** Arrays, draws and the monad *)

Section ArrayFacts.

Lemma where_from_In (i : nat) (v : list bool) (k : nat) :
  In k (where_from i v) <->
  (i <= k)%nat /\ nth_error v (k - i) = Some true.
Proof.
  revert i. induction v as [| b v IH]; intros i; simpl.
  - split; [intros [] | intros [_ H]]. destruct (k - i)%nat; discriminate H.
  - assert (Hstep : In k (where_from (S i) v) <->
                    (i < k)%nat /\ nth_error (b :: v) (k - i) = Some true).
    { rewrite IH. split; intros [Hk H]; split; try lia.
      - replace (k - i)%nat with (S (k - S i)) by lia. exact H.
      - replace (k - i)%nat with (S (k - S i)) in H by lia. exact H. }
    destruct b; simpl; rewrite ?Hstep.
    + split.
      * intros [<- | [Hk H]]; [| split; [lia | exact H]].
        split; [lia |]. now rewrite Nat.sub_diag.
      * intros [Hk H]. destruct (Nat.eq_dec i k) as [-> | Hne]; [now left | right].
        split; [lia | exact H].
    + split; intros [Hk H]; split; try lia; try exact H.
      destruct (Nat.eq_dec i k) as [-> | Hne]; [| lia].
      rewrite Nat.sub_diag in H. discriminate H.
Qed.

Lemma where_from_NoDup (i : nat) (v : list bool) : NoDup (where_from i v).
Proof.
  revert i. induction v as [| b v IH]; intros i; simpl; [constructor |].
  destruct b; [constructor |]; auto.
  rewrite where_from_In. lia.
Qed.

Lemma np_where_In (v : list bool) (k : nat) :
  In k (np_where v) <-> nth_error v k = Some true.
Proof.
  unfold np_where. rewrite where_from_In, Nat.sub_0_r.
  split; [intros [_ H]; exact H | intros H; split; [lia | exact H]].
Qed.

Lemma np_where_lt (v : list bool) (k : nat) :
  In k (np_where v) -> (k < length v)%nat.
Proof.
  rewrite np_where_In. intros H. apply nth_error_Some. congruence.
Qed.

Lemma np_where_NoDup (v : list bool) : NoDup (np_where v).
Proof. apply where_from_NoDup. Qed.

Lemma insert_by_perm (key : nat -> Q) (i : nat) (l : list nat) :
  Permutation (insert_by key i l) (i :: l).
Proof.
  induction l as [| j r IH]; simpl; [reflexivity |].
  destruct (Qle_bool (key i) (key j)); [reflexivity |].
  rewrite IH. apply perm_swap.
Qed.

Lemma argsort_perm (keys : list Q) :
  Permutation (argsort keys) (seq 0 (length keys)).
Proof.
  unfold argsort. generalize (seq 0 (length keys)) as l.
  induction l as [| i l IH]; simpl; [reflexivity |].
  rewrite insert_by_perm. now constructor.
Qed.

Lemma take_seq {A : Type} (d : A) (l : list A) :
  take d l (seq 0 (length l)) = l.
Proof.
  unfold take. apply nth_ext with (d := d) (d' := d).
  - now rewrite length_map, length_seq.
  - intros n Hn. rewrite length_map, length_seq in Hn.
    rewrite nth_indep with (d' := nth 0 l d) by now rewrite length_map, length_seq.
    rewrite (map_nth (fun i => nth i l d) (seq 0 (length l)) 0%nat n).
    now rewrite seq_nth.
Qed.

Lemma take_perm {A : Type} (d : A) (l : list A) (p : list nat) :
  Permutation p (seq 0 (length l)) -> Permutation (take d l p) l.
Proof.
  intros H. rewrite <- (take_seq d l) at 2. unfold take. now apply Permutation_map.
Qed.

(** Rows picked by position from rows picked by position. *)
Lemma take_take {A : Type} (d : A) (a : list A) (idx p : list nat) :
  (forall i, In i p -> (i < length idx)%nat) ->
  take d (take d a idx) p = take d a (take 0%nat idx p).
Proof.
  intros H. unfold take. rewrite map_map. apply map_ext_in. intros i Hi.
  rewrite nth_indep with (d' := nth 0%nat a d) by (rewrite length_map; auto).
  apply (map_nth (fun i => nth i a d)).
Qed.

Lemma replace_nth_length {A : Type} (i : nat) (v : A) (l : list A) :
  length (replace_nth i v l) = length l.
Proof.
  revert i. induction l as [| a l IH]; intros [| i]; simpl; auto.
Qed.

Lemma replace_nth_same {A : Type} (i : nat) (v d : A) (l : list A) :
  (i < length l)%nat -> nth i (replace_nth i v l) d = v.
Proof.
  revert i. induction l as [| a l IH]; intros [| i] H; simpl in *; try lia; auto.
  apply IH. lia.
Qed.

Lemma replace_nth_other {A : Type} (i j : nat) (v d : A) (l : list A) :
  i <> j -> nth j (replace_nth i v l) d = nth j l d.
Proof.
  revert i j. induction l as [| a l IH]; intros [| i] [| j] H; simpl; auto.
  congruence.
Qed.

Lemma replace_nth_error_other {A : Type} (i j : nat) (v : A) (l : list A) :
  i <> j -> nth_error (replace_nth i v l) j = nth_error l j.
Proof.
  revert i j. induction l as [| a l IH]; intros [| i] [| j] H; simpl; auto.
  congruence.
Qed.

Lemma replace_nth_error_same {A : Type} (i : nat) (v : A) (l : list A) :
  (i < length l)%nat -> nth_error (replace_nth i v l) i = Some v.
Proof.
  revert i. induction l as [| a l IH]; intros [| i] H; simpl in *; try lia; auto.
  apply IH. lia.
Qed.

Lemma replace_nth_firstn {A : Type} (n i : nat) (v : A) (l : list A) :
  (n <= i)%nat -> firstn n (replace_nth i v l) = firstn n l.
Proof.
  revert n i. induction l as [| a l IH]; intros [| n] [| i] H; simpl; auto; try lia.
  f_equal. apply IH. lia.
Qed.

Lemma remove_nth_perm {A : Type} (i : nat) (l : list A) (x : A) :
  nth_error l i = Some x -> Permutation (x :: remove_nth i l) l.
Proof.
  unfold remove_nth. revert i. induction l as [| a l IH]; intros [| i] H; simpl in *;
    try discriminate.
  - injection H as ->. reflexivity.
  - rewrite perm_swap. constructor. now apply IH.
Qed.

End ArrayFacts.

Section MonadFacts.

Lemma bind_inv {A B : Type} (c : M A) (k : A -> M B) (w w' : world) (r : result B) :
  bind c k w = (r, w') ->
  (exists a w1, c w = (Ok a, w1) /\ k a w1 = (r, w'))
  \/ (exists e, c w = (Raise e, w') /\ r = Raise e).
Proof.
  unfold bind. destruct (c w) as [[a | e] w1]; intros H.
  - left. now exists a, w1.
  - right. exists e. now injection H as <- <-.
Qed.

Lemma bind_ok_inv {A B : Type} (c : M A) (k : A -> M B) (w w' : world) (b : B) :
  bind c k w = (Ok b, w') ->
  exists a w1, c w = (Ok a, w1) /\ k a w1 = (Ok b, w').
Proof.
  intros H. apply bind_inv in H. destruct H as [H | [e [_ H]]]; [exact H | discriminate].
Qed.

Lemma next_int_spec (w : world) :
  exists k w', next_int w = (Ok k, w') /\ mem w' = mem w /\ unifs w' = unifs w.
Proof.
  unfold next_int. destruct (ints w) as [| k ks]; eauto.
Qed.

Lemma np_random_spec (w : world) :
  unit_draws w ->
  exists u w', np_random w = (Ok u, w') /\ mem w' = mem w
               /\ 0 <= u /\ u < 1 /\ unit_draws w'.
Proof.
  unfold np_random, unit_draws. intros H. destruct (unifs w) as [| u us] eqn:E.
  - exists 0, w. rewrite E. repeat split; auto; lra.
  - inversion H as [| ? ? [H0 H1] Hus]; subst.
    exists u, (mkWorld (mem w) (ints w) us). repeat split; auto.
Qed.

Lemma shuffle_spec {A : Type} (fuel : nat) (l : list A) (w : world) :
  fuel = length l ->
  exists p w', shuffle fuel l w = (Ok p, w') /\ Permutation p l
               /\ mem w' = mem w /\ unifs w' = unifs w.
Proof.
  revert l w. induction fuel as [| fuel IH]; intros l w Hlen; simpl.
  - destruct l; [| discriminate]. exists [], w. repeat split; auto.
  - destruct (next_int_spec w) as [k [w1 [Hk [Hm Hu]]]].
    unfold bind at 1. rewrite Hk.
    assert (Hlt : (k mod length l < length l)%nat)
      by (apply Nat.mod_upper_bound; lia).
    destruct (nth_error l (k mod length l)) as [x |] eqn:Hx;
      [| apply nth_error_None in Hx; lia].
    pose proof (remove_nth_perm _ _ _ Hx) as Hperm.
    destruct (IH (remove_nth (k mod length l) l) w1) as [p [w2 [Hp [Hpp [Hm2 Hu2]]]]].
    { apply Permutation_length in Hperm. simpl in Hperm. lia. }
    exists (x :: p), w2. unfold bind. rewrite Hp. unfold ret.
    repeat split; try congruence.
    rewrite <- Hperm. now constructor.
Qed.

Lemma np_random_permutation_spec {A : Type} (l : list A) (w : world) :
  exists p w', np_random_permutation l w = (Ok p, w') /\ Permutation p l
               /\ mem w' = mem w /\ unifs w' = unifs w.
Proof. now apply shuffle_spec. Qed.

End MonadFacts.

(** ** Convergence caps *)

Section ConvergenceCaps.

Import GlomerulusGranule.

Lemma py_range_length (k : Z) : length (py_range k) = Z.to_nat k.
Proof. unfold py_range. apply length_seq. Qed.

(** Every granule cell gets [min(c, available)] rows in
    [connectome_glom_grc]. *)
Lemma connect_granule_length (first : Z) (glomeruli : matrix) (dend_len : Q)
    (c : Z) (gran : cell) :
  (0 <= c)%Z ->
  length (connect_granule first glomeruli dend_len c gran)
  = Nat.min (Z.to_nat c) (length (good_gloms glomeruli dend_len gran)).
Proof.
  intros Hc. unfold connect_granule.
  destruct (Z.gtb_spec (Z.of_nat (length (good_gloms glomeruli dend_len gran))) c)
    as [Hgt | Hle];
    rewrite length_map, py_range_length; lia.
Qed.

(** The rows of one granule cell all point to it. *)
Lemma connect_granule_target (first : Z) (glomeruli : matrix) (dend_len : Q)
    (c : Z) (gran : cell) (e : edge) :
  In e (connect_granule first glomeruli dend_len c gran) -> snd e = c_id gran.
Proof.
  unfold connect_granule.
  destruct (Z.of_nat (length (good_gloms glomeruli dend_len gran)) >? c)%Z;
    intros H; apply in_map_iff in H; destruct H as [i [<- _]]; reflexivity.
Qed.

(** The pre-allocated [results] array is never overrun. *)
Lemma glom_grc_fits_buffer (first : Z) (glomeruli granules : matrix) (dend_len : Q)
    (c : Z) :
  (0 <= c)%Z ->
  (length (flat_map (connect_granule first glomeruli dend_len c) granules)
   <= length granules * Z.to_nat c)%nat.
Proof.
  intros Hc. induction granules as [| g gs IH]; simpl; [lia |].
  rewrite length_app, connect_granule_length by assumption. lia.
Qed.

(** With a convergence that is not negative, [connectome_glom_grc]
    returns, and its matrix is the rows of the granule cells one after
    the other. *)
Lemma connectome_glom_grc_returns (first : Z) (glomeruli granules : matrix)
    (dend_len : Q) (c : Z) :
  (0 <= c)%Z ->
  connectome_glom_grc first glomeruli granules dend_len c
  = Ok (flat_map (connect_granule first glomeruli dend_len c) granules).
Proof.
  intros Hc. unfold connectome_glom_grc.
  destruct (Z.ltb_spec (Z.of_nat (length granules) * c) 0); [nia | reflexivity].
Qed.

End ConvergenceCaps.

(** C1.  With two glomeruli and a convergence of three,
    [connectome_glom_dcn] raises [ValueError] for the first DCN cell,
    whatever the random draws: the sample of [np.random.choice] without
    replacement is larger than the population.  The claim promises
    [min(3, 2) = 2] edges and no exception there. *)
Theorem glom_dcn_undersupply_raises (w : world) :
  let glomeruli := [mkCell 0 0 0 0 0; mkCell 1 0 1 0 0] in
  let dcn_cells := [mkCell 7 0 0 0 0] in
  GlomDCN.connectome_glom_dcn 0 glomeruli dcn_cells 3 w = (Raise ValueError, w)
  /\ GlomDCN.connect glomeruli dcn_cells 3 w = (Raise ValueError, w).
Proof. split; reflexivity. Qed.

(** ** The empty from-population *)

(** The legacy blocks themselves cope with an empty from-population. *)
Lemma connectome_glom_grc_no_glomeruli (first : Z) (granules : matrix) (dend_len : Q)
    (c : Z) :
  (0 <= c)%Z ->
  GlomerulusGranule.connectome_glom_grc first [] granules dend_len c = Ok [].
Proof.
  intros Hc. rewrite connectome_glom_grc_returns by assumption.
  f_equal. induction granules as [| g gs IH]; simpl; [reflexivity |].
  rewrite IH. unfold GlomerulusGranule.connect_granule. simpl.
  destruct (0 >? c)%Z eqn:E; [lia | reflexivity].
Qed.

Lemma gap_junctions_no_cells (d_xy d_z : Q) (dc_gj : Z) (w : world) :
  GapJunctions.gap_junctions [] d_xy d_z dc_gj w = (Ok [], w).
Proof. reflexivity. Qed.

(** C4.  With an empty from-population both [connect] methods raise
    [IndexError] at the read of the first id ([glomeruli[0,0]],
    [from_cells[0,0]]) instead of returning an empty result. *)
Theorem connect_empty_from_population_raises (granules : matrix) (dend_len : Q)
    (convergence : Z) (limit_xy limit_z : Q) (divergence : Z) (w : world) :
  GlomerulusGranule.connect [] granules dend_len convergence = Raise IndexError
  /\ GapJunctions.connect [] limit_xy limit_z divergence w = (Raise IndexError, w).
Proof. split; reflexivity. Qed.

(** ** The scenario on a line *)

Section LineScenario.

Import GlomerulusGranule Scenario.

(** The candidates that [connectome_glom_grc] finds in the scenario are
    not the glomeruli within distance 2, bounds included: the glomerulus
    at [x = 2] is not a candidate of the granule cell at [x = 0], nor the
    one at [x = 7] of the granule cell at [x = 9]. *)
Lemma scenario_candidates_not_closed_ball :
  ~ (xs_of (good_gloms from_population 2 to_0) = [0; 1; 2]
     /\ xs_of (good_gloms from_population 2 to_9) = [7; 8; 9]).
Proof. intros [H _]. vm_compute in H. discriminate H. Qed.

(** C5.  What [connectome_glom_grc] does in the scenario.  Line 74
    announces the glomeruli ``at a maximum distance of
    [dendrite_length]'' and the gates of the sibling strategies (lines
    127, 258, 461) include the bound; line 76 tests
    [distance_vector < 0.], which leaves out the glomeruli at distance
    exactly 2.  The candidates of the granule cell at [x = 0] are the
    glomeruli at [x = 0, 1], and not the one at [x = 2]; those of the
    granule cell at [x = 9] are the glomeruli at [x = 8, 9], and not the
    one at [x = 7].  The four candidates are connected and no edge
    crosses. *)
Theorem scenario_candidates_open_ball :
  xs_of (good_gloms from_population 2 to_0) = [0; 1]
  /\ xs_of (good_gloms from_population 2 to_9) = [8; 9]
  /\ connect from_population to_population 2 3
     = Ok [(0, c_id to_0); (1, c_id to_0); (8, c_id to_9); (9, c_id to_9)]
  /\ (forall es, connect from_population to_population 2 3 = Ok es ->
                 forallb (fun e => negb (crosses e)) es = true).
Proof.
  repeat split; try (vm_compute; reflexivity).
  intros es H. vm_compute in H. injection H as <-. vm_compute. reflexivity.
Qed.

(** The gate of [connectome_grc_goc] (line 258) is the closed disc:
    there the entities at distance 2 are candidates, as the scenario has
    them. *)
Lemma scenario_candidates_closed_disc :
  xs_of (GranuleGolgi.AA_candidates 2 from_population to_0) = [0; 1; 2]
  /\ xs_of (GranuleGolgi.AA_candidates 2 from_population to_9) = [7; 8; 9].
Proof. split; vm_compute; reflexivity. Qed.

End LineScenario.

(** ** Supply of the exclusive matching *)

Section Supply.

Import GranuleGolgi.

(** The supply check of line 253 raises as soon as the granule cells
    are not more numerous than the Golgi cells. *)
Lemma supply_check_raises_when_le (first_granule : Z) (granules golgicells : nat)
    (r_goc_vol OoB_value : Q) (n_connAA n_conn_pf tot_conn : Z) (w : world)
    (gr go : matrix) :
  nth_error (mem w) granules = Some gr ->
  nth_error (mem w) golgicells = Some go ->
  (length gr <= length go)%nat ->
  fst (connectome_grc_goc first_granule granules golgicells r_goc_vol OoB_value
                          n_connAA n_conn_pf tot_conn w)
  = Raise (Exception supply_message).
Proof.
  intros Hgr Hgo Hle. unfold connectome_grc_goc, np_copy, load, alloc.
  unfold bind at 1. unfold bind at 1. rewrite Hgr. cbn [mem ints unifs].
  unfold bind at 1. cbn [mem].
  assert (Hlen : length (mem w) = length (mem w)) by reflexivity.
  rewrite nth_error_app2, Nat.sub_diag by lia. cbn [nth_error].
  unfold bind at 1. cbn [mem].
  rewrite nth_error_app1 by (apply nth_error_Some; congruence). rewrite Hgo.
  unfold bind at 1.
  destruct (np_random_permutation_spec go
              (mkWorld (mem w ++ [gr]) (ints w) (unifs w))) as [p [w' [Hp [Hperm _]]]].
  rewrite Hp. apply Permutation_length in Hperm.
  destruct (Nat.leb_spec (length gr) (length p)); [reflexivity | lia].
Qed.

(** C2.  With one granule cell and one Golgi cell the from-population is
    not smaller than the to-population, and [connectome_grc_goc] raises
    the supply error all the same, whatever the random draws: line 253
    compares with [<=] where its own message says "less than". *)
Theorem supply_error_on_equal_populations (draws : list nat) (us : list Q) :
  let granules := [mkCell 0 0 0 0 0] in
  let golgis := [mkCell 1 0 0 0 0] in
  fst (connectome_grc_goc 0 0 1 5 1000 1 1 2 (mkWorld [granules; golgis] draws us))
  = Raise (Exception supply_message).
Proof.
  intros granules golgis.
  apply supply_check_raises_when_le with (gr := granules) (go := golgis);
    simpl; auto.
Qed.

End Supply.

(** ** Touch detection *)

Section TouchDetection.

Import TouchDetector.

(** C6.  [intersect_compartments] raises [NameError] at its first
    statement, for every candidate map and every collaborator: its
    parameter list has no [self].  No edge is ever emitted, also for a
    cell pair with intersecting compartments. *)
Theorem intersect_compartments_raises_name_error
    (translate_cell_ids : pyval -> pyval -> pyval) (attr_name : pyval -> pyval)
    (get_compartment_intersections : pyval -> pyval -> pyval -> pyval)
    (candidate_map reversed_map : pyval) (w : world) :
  intersect_compartments translate_cell_ids attr_name get_compartment_intersections
                         candidate_map reversed_map w
  = (Raise (NameError "self"), w).
Proof. reflexivity. Qed.

(** Had the names of line 854 and 855 been bound, the loop of lines
    858-865 would emit one cell pair, with one compartment reference
    drawn from its intersections, exactly for a non-empty intersection
    list. *)
Lemma compartment_loop_single
    (get_compartment_intersections : pyval -> pyval -> pyval -> pyval)
    (self cell_matches from_id to_id : pyval) (inter : list pyval) (w : world) :
  get_compartment_intersections self from_id to_id = PList inter ->
  exists r w',
    compartment_loop get_compartment_intersections self (PList [from_id])
                     (PList [to_id]) (PInt 0) [0%nat] w = (Ok r, w')
    /\ (inter = [] -> r = ([], []))
    /\ (inter <> [] -> exists c, In c inter /\ r = ([(from_id, to_id)], [c])).
Proof.
  intros Hinter. unfold compartment_loop.
  cbn [py_getitem py_index length Z.of_nat Z.leb Z.ltb Z.compare andb nth_error
       Z.to_nat lift].
  unfold bind at 1. cbn [ret]. unfold bind at 1. cbn [ret]. rewrite Hinter.
  destruct inter as [| c0 inter'].
  - exists ([], []), w. cbn. repeat split; auto. intros H; now elim H.
  - cbn [py_len lift length Nat.ltb Nat.leb]. unfold bind at 1. cbn [ret].
    cbn [random_element].
    destruct (next_int_spec w) as [k [w' [Hk _]]].
    unfold bind at 1. unfold bind at 1. rewrite Hk. cbn [ret].
    unfold bind at 1. cbn [ret fst snd].
    eexists; eexists. split; [reflexivity |]. split; [discriminate |].
    intros _. eexists. split; [| reflexivity].
    apply nth_In. apply Nat.mod_upper_bound. discriminate.
Qed.

(** C7.  [intersect_cells] raises [NameError] at line 840, whichever
    branch the counts select; and the mirroring branch, taken alone,
    raises [TypeError] at line 848, where it iterates over an [int].  The
    two branches are not equivalent on the code. *)
Theorem intersect_cells_raises
    (self : pyval) (from_points to_points : list point) (from_radius to_radius : Q) :
  intersect_cells self from_points to_points from_radius to_radius
  = Raise (NameError "from_cell_type")
  /\ mirrored_branch from_points to_points (from_radius + to_radius) = Raise TypeError
  /\ direct_branch from_points to_points (from_radius + to_radius)
     = Ok (query_radius to_points from_points (from_radius + to_radius)).
Proof. repeat split. Qed.

End TouchDetection.

(** ** Self-edges of the gap junctions *)

(** C9.  Two Golgi cells with the ids 1 and 2, one micrometre apart:
    [connectome_gj_goc] returns the rows [(1, 1)] and [(2, 0)].  The
    second column holds row numbers, to which [first_golgi] is never
    added, and the first row joins the cell with id 1 to id 1. *)
Theorem gj_goc_emits_self_edge :
  let golgis := [mkCell 1 0 0 0 0; mkCell 2 0 1 0 0] in
  GapJunctionsGolgi.connect golgis 1 1 1 1 = Ok [(1, 1); (2, 0)]
  /\ exists e, In e [(1, 1); (2, 0)] /\ fst e == snd e.
Proof.
  split; [vm_compute; reflexivity |].
  exists (1, 1). split; [now left | reflexivity].
Qed.

(** ** The population arrays are left as they are *)

Section Frame.

Lemma frame_length (n : nat) (l l' : list matrix) :
  (n <= length l)%nat -> firstn n l' = firstn n l -> (n <= length l')%nat.
Proof.
  intros Hn H. apply (f_equal (@length _)) in H. rewrite !length_firstn in H. lia.
Qed.

Lemma frame_ret {A : Type} (n : nat) (a : A) (post : A -> Prop) :
  post a -> frame n (ret a) post.
Proof.
  intros Ha w r w' _ H. injection H as <- <-. split; [reflexivity |].
  intros a' E. now injection E as <-.
Qed.

Lemma frame_raise {A : Type} (n : nat) (e : py_exn) (post : A -> Prop) :
  frame n (raise e) post.
Proof.
  intros w r w' _ H. injection H as <- <-. split; [reflexivity | discriminate].
Qed.

Lemma frame_bind {A B : Type} (n : nat) (c : M A) (k : A -> M B)
    (P : A -> Prop) (Q : B -> Prop) :
  frame n c P -> (forall a, P a -> frame n (k a) Q) -> frame n (bind c k) Q.
Proof.
  intros Hc Hk w r w' Hn H. apply bind_inv in H.
  destruct H as [[a [w1 [H1 H2]]] | [e [H1 ->]]].
  - destruct (Hc _ _ _ Hn H1) as [Hm Ha].
    destruct (Hk a (Ha a eq_refl) w1 r w') as [Hm' Hb]; auto.
    + eapply frame_length; eauto.
    + split; [congruence | exact Hb].
  - destruct (Hc _ _ _ Hn H1) as [Hm _]. split; [exact Hm | discriminate].
Qed.

Lemma frame_weaken {A : Type} (n : nat) (c : M A) (P Q : A -> Prop) :
  frame n c P -> (forall a, P a -> Q a) -> frame n c Q.
Proof.
  intros Hc HPQ w r w' Hn H. destruct (Hc _ _ _ Hn H) as [Hm Ha].
  split; [exact Hm | intros a E; auto].
Qed.

Lemma frame_load (n l : nat) : frame n (load l) any.
Proof.
  intros w r w' _ H. unfold load in H.
  destruct (nth_error (mem w) l); injection H as <- <-; split; easy.
Qed.

Lemma frame_alloc (n : nat) (m : matrix) : frame n (alloc m) (fun l => (n <= l)%nat).
Proof.
  intros w r w' Hn H. unfold alloc in H. injection H as <- <-. cbn [mem]. split.
  - rewrite firstn_app. replace (n - length (mem w))%nat with 0%nat by lia.
    now rewrite firstn_O, app_nil_r.
  - intros a E. injection E as <-. exact Hn.
Qed.

Lemma frame_np_copy (n l : nat) : frame n (np_copy l) (fun l' => (n <= l')%nat).
Proof.
  unfold np_copy. eapply frame_bind; [apply frame_load |].
  intros m _. apply frame_alloc.
Qed.

Lemma frame_put (n l : nat) (m : matrix) : (n <= l)%nat -> frame n (put l m) any.
Proof.
  intros Hl w r w' _ H. unfold put in H. injection H as <- <-. cbn [mem].
  split; [now apply replace_nth_firstn | easy].
Qed.

Lemma frame_set_row (n l : nat) (k : Z) (v : cell) :
  (n <= l)%nat -> frame n (set_row l k v) any.
Proof.
  intros Hl. unfold set_row. eapply frame_bind; [apply frame_load |].
  intros m _. destruct (py_index (length m) k);
    [now apply frame_put | apply frame_raise].
Qed.

Lemma frame_set_rows (n l : nat) (ks : list Z) (v : cell) :
  (n <= l)%nat -> frame n (set_rows l ks v) any.
Proof.
  intros Hl. unfold set_rows. eapply frame_bind; [apply frame_load |].
  intros m _. destruct (py_indices (length m) ks);
    [now apply frame_put | apply frame_raise].
Qed.

Lemma frame_lift {A : Type} (n : nat) (r : result A) : frame n (lift r) any.
Proof. destruct r; [apply frame_ret; exact I | apply frame_raise]. Qed.

Lemma frame_next_int (n : nat) : frame n next_int any.
Proof.
  intros w r w' _ H. unfold next_int in H.
  destruct (ints w); injection H as <- <-; split; easy.
Qed.

Lemma frame_np_random (n : nat) : frame n np_random any.
Proof.
  intros w r w' _ H. unfold np_random in H.
  destruct (unifs w); injection H as <- <-; split; easy.
Qed.

Lemma frame_np_random_uniform (n k : nat) : frame n (np_random_uniform k) any.
Proof.
  induction k as [| k IH]; simpl; [apply frame_ret; exact I |].
  eapply frame_bind; [apply frame_np_random |]. intros u _.
  eapply frame_bind; [apply IH |]. intros us _. apply frame_ret; exact I.
Qed.

Lemma frame_shuffle {A : Type} (n fuel : nat) (l : list A) :
  frame n (shuffle fuel l) any.
Proof.
  revert l. induction fuel as [| fuel IH]; intros l; simpl; [apply frame_ret; exact I |].
  eapply frame_bind; [apply frame_next_int |]. intros k _.
  destruct (nth_error l (k mod length l)); [| apply frame_ret; exact I].
  eapply frame_bind; [apply IH |]. intros p _. apply frame_ret; exact I.
Qed.

Lemma frame_np_random_permutation {A : Type} (n : nat) (l : list A) :
  frame n (np_random_permutation l) any.
Proof. apply frame_shuffle. Qed.

Lemma frame_np_random_choice {A : Type} (n : nat) (l : list A) (size : Z) :
  frame n (np_random_choice l size) any.
Proof.
  unfold np_random_choice.
  destruct ((size <? 0)%Z || (Z.of_nat (length l) <? size)%Z); [apply frame_raise |].
  eapply frame_bind; [apply frame_np_random_permutation |].
  intros p _. apply frame_ret; exact I.
Qed.

Lemma frame_for_rows {A B : Type} (n : nat) (body : A -> M (list B)) (l : list A) :
  (forall a, frame n (body a) any) -> frame n (for_rows body l) any.
Proof.
  intros Hbody. induction l as [| a l IH]; simpl; [apply frame_ret; exact I |].
  eapply frame_bind; [apply Hbody |]. intros r _.
  eapply frame_bind; [apply IH |]. intros rs _. apply frame_ret; exact I.
Qed.

(** A run that starts from the store [mem w] ends in a store that
    begins with [mem w]. *)
Lemma frame_run {A : Type} (c : M A) (w : world) :
  frame (length (mem w)) c any ->
  firstn (length (mem w)) (mem (snd (c w))) = mem w.
Proof.
  intros H. destruct (c w) as [r w'] eqn:E.
  destruct (H w r w' (le_n _) E) as [Hm _]. cbn [snd].
  now rewrite Hm, firstn_all.
Qed.

Create HintDb frame.

#[local] Hint Resolve frame_load frame_np_random frame_np_random_permutation
  frame_np_random_choice frame_np_random_uniform frame_lift frame_raise
  frame_set_row frame_set_rows : frame.

Ltac frame_step :=
  first [ eapply frame_bind; [solve [eauto with frame] | intros ? _]
        | apply frame_raise
        | apply frame_ret; exact I ].

Lemma frame_goc_glom_walk (n : nat) (first_glomerulus : Z) (n_conn_goc : Z)
    (layer_thickness oob : Q) (new_glomeruli : nat) (golgi : cell) (idx : Z)
    (candidates : list cell) :
  (n <= new_glomeruli)%nat ->
  frame n (GolgiGlomerulus.walk first_glomerulus n_conn_goc layer_thickness oob
                                new_glomeruli golgi idx candidates) any.
Proof.
  intros Hl. revert idx. induction candidates as [| c cs IH]; intros idx; simpl.
  - apply frame_ret; exact I.
  - destruct (idx <=? n_conn_goc)%Z; [| apply IH].
    frame_step. destruct (GolgiGlomerulus.accepted layer_thickness golgi c _);
      [| apply IH].
    frame_step. eapply frame_bind; [apply IH |]. intros es _. apply frame_ret; exact I.
Qed.

Lemma frame_connectome_goc_glom (n : nat) (first_glomerulus : Z)
    (glomeruli golgicells : nat) (GoCaxon_x GoCaxon_y GoCaxon_z r_glom : Q)
    (n_conn_goc : Z) (layer_thickness oob : Q) :
  frame n (GolgiGlomerulus.connectome_goc_glom first_glomerulus glomeruli golgicells
             GoCaxon_x GoCaxon_y GoCaxon_z r_glom n_conn_goc layer_thickness oob) any.
Proof.
  unfold GolgiGlomerulus.connectome_goc_glom.
  eapply frame_bind; [apply frame_np_copy |]. intros new_glomeruli Hnew.
  frame_step. frame_step.
  destruct (_ <? 0)%Z; [apply frame_raise |].
  apply frame_for_rows. intros golgi. unfold GolgiGlomerulus.connect_golgi.
  frame_step. frame_step. frame_step.
  now apply frame_goc_glom_walk.
Qed.

Lemma frame_connectome_aa_pc (n : nat) (first_granule : Z) (granules purkinjes : nat)
    (x_pc z_pc OoB_value : Q) :
  frame n (AscAxonPurkinje.connectome_aa_pc first_granule granules purkinjes
             x_pc z_pc OoB_value) any.
Proof.
  unfold AscAxonPurkinje.connectome_aa_pc.
  eapply frame_bind; [apply frame_np_copy |]. intros new_granules Hnew.
  frame_step. apply frame_for_rows. intros i.
  unfold AscAxonPurkinje.connect_purkinje.
  frame_step. frame_step. apply frame_ret; exact I.
Qed.

Lemma frame_grc_goc_connect_golgi (n : nat) (first_granule : Z) (granules : nat)
    (r_goc_vol OoB_value : Q) (n_connAA tot_conn : Z) (new_granules : nat)
    (golgi : cell) :
  (n <= new_granules)%nat ->
  frame n (GranuleGolgi.connect_golgi first_granule granules r_goc_vol OoB_value
             n_connAA tot_conn new_granules golgi) any.
Proof.
  intros Hnew. unfold GranuleGolgi.connect_golgi.
  frame_step. frame_step. frame_step.
  destruct (n_connAA <? 0)%Z; [apply frame_raise |].
  frame_step. frame_step.
  eapply frame_bind.
  { destruct (_ <? _)%Z; apply frame_np_random_choice. }
  intros connected_pf _. frame_step. apply frame_ret; exact I.
Qed.

Lemma frame_connectome_grc_goc (n : nat) (first_granule : Z) (granules golgicells : nat)
    (r_goc_vol OoB_value : Q) (n_connAA n_conn_pf tot_conn : Z) :
  frame n (GranuleGolgi.connectome_grc_goc first_granule granules golgicells
             r_goc_vol OoB_value n_connAA n_conn_pf tot_conn) any.
Proof.
  unfold GranuleGolgi.connectome_grc_goc.
  eapply frame_bind; [apply frame_np_copy |]. intros new_granules Hnew.
  frame_step. frame_step.
  eapply frame_bind; [apply frame_np_random_permutation |]. intros new_golgicells _.
  destruct (_ <=? _)%nat; [apply frame_raise |].
  apply frame_bind with (P := any); [| intros r _; apply frame_ret; exact I].
  induction new_golgicells as [| golgi rest IH]; simpl; [apply frame_ret; exact I |].
  eapply frame_bind; [now apply frame_grc_goc_connect_golgi |]. intros r _.
  eapply frame_bind; [apply IH |]. intros rs _. apply frame_ret; exact I.
Qed.

(** The strategies that only draw random numbers leave the whole store
    as it is. *)
Lemma frame_gap_junctions (n : nat) (cells : matrix) (d_xy d_z : Q) (dc_gj : Z) :
  frame n (GapJunctions.gap_junctions cells d_xy d_z dc_gj) any.
Proof.
  unfold GapJunctions.gap_junctions. destruct (_ <? 0)%Z; [apply frame_raise |].
  apply frame_for_rows. intros c. unfold GapJunctions.connect_cell.
  eapply frame_bind; [apply frame_np_random_permutation |]. intros chosen_rand _.
  generalize 1%Z as idx.
  induction (take zero_cell cells chosen_rand) as [| j rest IH]; intros idx;
    cbn [GapJunctions.walk]; [apply frame_ret; exact I |].
  destruct (idx <=? dc_gj)%Z; [| apply IH].
  frame_step. destruct (GapJunctions.accepted _ _ _ _ _ _ _); [| apply IH].
  eapply frame_bind; [apply IH |]. intros es _. apply frame_ret; exact I.
Qed.

Lemma frame_connectome_glom_dcn (n : nat) (first : Z) (glomeruli dcn_glut : matrix)
    (conv_dcn : Z) :
  frame n (GlomDCN.connectome_glom_dcn first glomeruli dcn_glut conv_dcn) any.
Proof.
  apply frame_for_rows. intros i. unfold GlomDCN.connect_dcn.
  frame_step. apply frame_ret; exact I.
Qed.

(** C8.  Whatever the store, the parameters and the random draws, the
    store left by [connectome_goc_glom], by [connectome_grc_goc] and by
    [connectome_aa_pc] begins with the arrays of the store they started
    from, unchanged: the sentinel is written to the copy that [np.copy]
    allocated behind them.  This holds also when the run ends with an
    exception. *)
Theorem sentinel_writes_spare_the_populations (w : world)
    (first : Z) (from_population to_population : nat)
    (GoCaxon_x GoCaxon_y GoCaxon_z r_glom layer_thickness oob : Q) (n_conn_goc : Z)
    (r_goc_vol : Q) (n_connAA n_conn_pf tot_conn : Z) (x_pc z_pc : Q) :
  firstn (length (mem w))
         (mem (snd (GolgiGlomerulus.connectome_goc_glom first to_population
                      from_population GoCaxon_x GoCaxon_y GoCaxon_z r_glom
                      n_conn_goc layer_thickness oob w)))
  = mem w
  /\ firstn (length (mem w))
            (mem (snd (GranuleGolgi.connectome_grc_goc first from_population
                         to_population r_goc_vol oob n_connAA n_conn_pf tot_conn w)))
     = mem w
  /\ firstn (length (mem w))
            (mem (snd (AscAxonPurkinje.connectome_aa_pc first from_population
                         to_population x_pc z_pc oob w)))
     = mem w.
Proof.
  repeat split; apply frame_run.
  - apply frame_connectome_goc_glom.
  - apply frame_connectome_grc_goc.
  - apply frame_connectome_aa_pc.
Qed.

End Frame.

(** ** The join of ConnectomeGolgiGranule *)

Section GolgiGranuleJoin.

Import GolgiGranule.

Lemma list_sum_zero {A : Type} (l : list A) : list_sum (map (fun _ => 0%nat) l) = 0%nat.
Proof. induction l; simpl; auto. Qed.

Lemma list_sum_add {A : Type} (g h : A -> nat) (l : list A) :
  list_sum (map (fun y => (g y + h y)%nat) l)
  = (list_sum (map g l) + list_sum (map h l))%nat.
Proof. induction l as [| a l IH]; simpl; [reflexivity | rewrite IH; lia]. Qed.

Lemma list_sum_scale {A : Type} (k : nat) (h : A -> nat) (l : list A) :
  list_sum (map (fun y => (k * h y)%nat) l) = (k * list_sum (map h l))%nat.
Proof. induction l as [| a l IH]; simpl; [lia | rewrite IH; lia]. Qed.

Lemma list_sum_swap {A B : Type} (f : A -> B -> nat) (xs : list A) (ys : list B) :
  list_sum (map (fun x => list_sum (map (f x) ys)) xs)
  = list_sum (map (fun y => list_sum (map (fun x => f x y) xs)) ys).
Proof.
  induction xs as [| a xs IH]; simpl.
  - now rewrite list_sum_zero.
  - now rewrite IH, <- list_sum_add.
Qed.

Lemma list_sum_ext {A : Type} (g h : A -> nat) (l : list A) :
  (forall x, In x l -> g x = h x) -> list_sum (map g l) = list_sum (map h l).
Proof. intros H. f_equal. now apply map_ext_in. Qed.

Lemma multiplicity_flat_map {A : Type} (e : edge) (f : A -> list edge) (l : list A) :
  multiplicity e (flat_map f l) = list_sum (map (fun x => multiplicity e (f x)) l).
Proof.
  unfold multiplicity. induction l as [| a l IH]; simpl; [reflexivity |].
  now rewrite filter_app, length_app, IH.
Qed.

Lemma multiplicity_map_filter {A : Type} (e : edge) (g : A -> edge) (p : A -> bool)
    (l : list A) :
  multiplicity e (map g (filter p l))
  = list_sum (map (fun y => Nat.b2n (p y && edge_eqb e (g y))) l).
Proof.
  unfold multiplicity. induction l as [| a l IH]; simpl; [reflexivity |].
  destruct (p a); simpl; [destruct (edge_eqb e (g a)); simpl |]; now rewrite IH.
Qed.

(** In a list without two equivalent entries, the entries equivalent to
    [x] are one or none. *)
Lemma count_in_NoDupA {A : Type} (eqb : A -> A -> bool) (x : A) (l : list A) :
  (forall a b, eqb a b = true -> eqb b a = true) ->
  (forall a b c, eqb a b = true -> eqb b c = true -> eqb a c = true) ->
  NoDupA (fun a b => eqb a b = true) l ->
  list_sum (map (fun a => Nat.b2n (eqb x a)) l) = Nat.b2n (existsb (eqb x) l).
Proof.
  intros Hsym Htrans. induction l as [| a l IH]; intros Hnd; simpl; [reflexivity |].
  inversion Hnd as [| ? ? Hnotin Hnd']; subst.
  destruct (eqb x a) eqn:Exa; simpl.
  - f_equal. rewrite IH by assumption.
    destruct (existsb (eqb x) l) eqn:Eex; [| reflexivity].
    exfalso. apply Hnotin. apply existsb_exists in Eex. destruct Eex as [b [Hb Exb]].
    apply InA_alt. exists b. split; [| exact Hb]. eauto.
  - now apply IH.
Qed.

Lemma Qeq_bool_sym' (a b : Q) : Qeq_bool a b = true -> Qeq_bool b a = true.
Proof. rewrite !Qeq_bool_iff. intros H. now symmetry. Qed.

Lemma Qeq_bool_trans' (a b c : Q) :
  Qeq_bool a b = true -> Qeq_bool b c = true -> Qeq_bool a c = true.
Proof. rewrite !Qeq_bool_iff. intros H1 H2. now rewrite H1. Qed.

Lemma Qeq_bool_compat_l (a b c : Q) :
  Qeq_bool a b = true -> Qeq_bool a c = Qeq_bool b c.
Proof.
  intros H. apply Qeq_bool_iff in H.
  destruct (Qeq_bool b c) eqn:E.
  - apply Qeq_bool_iff in E. apply Qeq_bool_iff. now rewrite H.
  - destruct (Qeq_bool a c) eqn:E'; [| reflexivity].
    apply Qeq_bool_iff in E'. rewrite H in E'. apply Qeq_bool_iff in E'. congruence.
Qed.

Lemma Qeq_bool_compat_r (a b c : Q) :
  Qeq_bool a b = true -> Qeq_bool c a = Qeq_bool c b.
Proof.
  intros H. rewrite (Qeq_bool_comm c a), (Qeq_bool_comm c b).
  now apply Qeq_bool_compat_l.
Qed.

Lemma edge_eqb_sym (a b : edge) : edge_eqb a b = true -> edge_eqb b a = true.
Proof.
  unfold edge_eqb. rewrite !andb_true_iff. intros [H1 H2].
  split; now apply Qeq_bool_sym'.
Qed.

Lemma edge_eqb_trans (a b c : edge) :
  edge_eqb a b = true -> edge_eqb b c = true -> edge_eqb a c = true.
Proof.
  unfold edge_eqb. rewrite !andb_true_iff. intros [H1 H2] [H3 H4].
  split; eapply Qeq_bool_trans'; eauto.
Qed.

(** The glomeruli a Golgi cell reaches, as a membership test on the
    prior edges. *)
Lemma np_in_connected_glomeruli (goc_glom : list edge) (g m : Q) :
  np_in m (connected_glomeruli goc_glom g) = existsb (edge_eqb (g, m)) goc_glom.
Proof.
  unfold np_in, connected_glomeruli, edge_eqb.
  induction goc_glom as [| e1 l IH]; simpl; [reflexivity |].
  rewrite (Qeq_bool_comm g (fst e1)), (Qeq_bool_comm m (snd e1)).
  destruct (Qeq_bool (fst e1) g); simpl; now rewrite IH.
Qed.

Lemma NoDupA_iff {A : Type} (R R' : A -> A -> Prop) (l : list A) :
  (forall a b, R a b <-> R' a b) -> NoDupA R l -> NoDupA R' l.
Proof.
  intros H. induction 1 as [| a l Hnotin Hnd IH]; constructor; auto.
  intros Hin. apply Hnotin. apply InA_alt in Hin. destruct Hin as [b [Hab Hb]].
  apply InA_alt. exists b. split; [now apply H | exact Hb].
Qed.

Lemma edge_eqb_iff (a b : edge) : edge_eqb a b = true <-> same_edge a b.
Proof. unfold edge_eqb, same_edge. now rewrite andb_true_iff, !Qeq_bool_iff. Qed.

Lemma join_multiplicity (goc_glom glom_grc : list edge) (e : edge) :
  NoDupA same_edge goc_glom ->
  multiplicity e (relational_join goc_glom glom_grc) = reached goc_glom glom_grc e.
Proof.
  intros Hnd. unfold relational_join, reached. rewrite multiplicity_flat_map.
  rewrite (list_sum_ext _
             (fun e1 => list_sum (map (fun e2 =>
                Nat.b2n (Qeq_bool (fst e2) (snd e1) && edge_eqb e (fst e1, snd e2)))
                glom_grc)))
    by (intros; apply multiplicity_map_filter).
  rewrite (list_sum_swap (fun e1 e2 =>
             Nat.b2n (Qeq_bool (fst e2) (snd e1) && edge_eqb e (fst e1, snd e2)))).
  apply list_sum_ext. intros e2 _.
  rewrite <- (count_in_NoDupA edge_eqb (fst e, fst e2) goc_glom
                edge_eqb_sym edge_eqb_trans)
    by (eapply NoDupA_iff; [| exact Hnd]; intros; symmetry; apply edge_eqb_iff).
  rewrite <- list_sum_scale. apply list_sum_ext. intros e1 _.
  unfold edge_eqb. cbn [fst snd].
  destruct (Qeq_bool (fst e2) (snd e1)), (Qeq_bool (fst e) (fst e1)),
    (Qeq_bool (snd e) (snd e2)); reflexivity.
Qed.

(** Every Golgi cell of the population contributes one edge for each
    glomerulus-to-granule edge whose glomerulus it reaches, whatever the
    number of its edges to that glomerulus. *)
Lemma goc_grc_multiplicity (golgis : matrix) (glom_grc goc_glom : list edge) (e : edge) :
  multiplicity e (connectome_goc_grc golgis glom_grc goc_glom)
  = (list_sum (map (fun g => Nat.b2n (Qeq_bool (fst e) g)) (map c_id golgis))
     * reached goc_glom glom_grc e)%nat.
Proof.
  unfold connectome_goc_grc, reached. rewrite multiplicity_flat_map.
  rewrite Nat.mul_comm, <- list_sum_scale. apply list_sum_ext. intros g _.
  unfold connected_granules_via_gloms. rewrite map_map.
  rewrite (multiplicity_map_filter e (fun row => (g, snd row))).
  rewrite Nat.mul_comm, <- list_sum_scale. apply list_sum_ext. intros e2 _.
  rewrite np_in_connected_glomeruli. unfold edge_eqb at 2. cbn [fst snd].
  destruct (Qeq_bool (fst e) g) eqn:Eg; [| now rewrite andb_false_r].
  replace (existsb (edge_eqb (g, fst e2)) goc_glom)
    with (existsb (edge_eqb (fst e, fst e2)) goc_glom).
  - destruct (existsb _ goc_glom), (Qeq_bool (snd e) (snd e2)); reflexivity.
  - clear - Eg. induction goc_glom as [| e1 l IH]; simpl; [reflexivity |].
    rewrite IH. f_equal. unfold edge_eqb. cbn [fst snd].
    now rewrite (Qeq_bool_compat_l _ _ (fst e1) Eg).
Qed.

(** Line 337 tests membership, so the first hypothesis of the theorem
    below is used: were the prior edges a list in which an edge is
    repeated, a Golgi cell with two edges to one glomerulus that has one
    edge to a granule cell would get one edge to that granule cell, where
    the join of the lists has two. *)
Lemma goc_grc_repeated_edge_not_joined :
  let golgis := [mkCell 1 0 0 0 0] in
  let goc_glom := [(1, 5); (1, 5)] in
  let glom_grc := [(5, 9)] in
  ~ (forall e, multiplicity e (connectome_goc_grc golgis glom_grc goc_glom)
               = multiplicity e (relational_join goc_glom glom_grc)).
Proof.
  intros golgis goc_glom glom_grc H. specialize (H (1, 9)).
  vm_compute in H. discriminate H.
Qed.

(** C10.  The prior edges under [golgi_to_glomerulus] are a set (no
    edge is repeated), their from-ids are ids of cells of the Golgi
    population and no two cells of the population share an id.  Then the
    matrix of [connectome_goc_grc] is the relational join of the two
    prior edge sets: every edge [(golgi_id, granule_id)] has as many rows
    in the matrix as there are glomeruli joining the two cells, and there
    is no other row. *)
Theorem goc_grc_is_join (golgis : matrix) (glom_grc goc_glom : list edge) :
  NoDupA same_edge goc_glom ->
  NoDupA Qeq (map c_id golgis) ->
  (forall e1, In e1 goc_glom -> exists g, In g golgis /\ c_id g == fst e1) ->
  forall e, multiplicity e (connectome_goc_grc golgis glom_grc goc_glom)
            = multiplicity e (relational_join goc_glom glom_grc).
Proof.
  intros Hedges Hids Hfrom e.
  rewrite goc_grc_multiplicity, join_multiplicity by assumption.
  rewrite (count_in_NoDupA Qeq_bool (fst e) (map c_id golgis)
             Qeq_bool_sym' Qeq_bool_trans')
    by (eapply NoDupA_iff; [| exact Hids]; intros; symmetry; apply Qeq_bool_iff).
  destruct (existsb (Qeq_bool (fst e)) (map c_id golgis)) eqn:Ecell;
    [cbn [Nat.b2n]; lia |].
  cbn [Nat.b2n Nat.mul]. symmetry. unfold reached.
  rewrite <- (list_sum_zero glom_grc). apply list_sum_ext. intros e2 _.
  destruct (existsb (edge_eqb (fst e, fst e2)) goc_glom) eqn:Eex;
    [| cbn [Nat.b2n]; lia].
  exfalso. apply existsb_exists in Eex. destruct Eex as [e1 [Hin He1]].
  destruct (Hfrom e1 Hin) as [g [Hg Hid]].
  apply edge_eqb_iff in He1. destruct He1 as [He1 _]. cbn [fst] in He1.
  assert (Hex : existsb (Qeq_bool (fst e)) (map c_id golgis) = true).
  { apply existsb_exists. exists (c_id g). split; [now apply in_map |].
    apply Qeq_bool_iff. now rewrite He1, Hid. }
  congruence.
Qed.

(** The join on two Golgi cells, three edges to glomeruli and three
    edges to granule cells. *)
Lemma goc_grc_is_join_witness :
  let golgis := [mkCell 1 0 0 0 0; mkCell 2 0 3 0 0] in
  let goc_glom := [(1, 5); (1, 6); (2, 6)] in
  let glom_grc := [(5, 9); (6, 9); (6, 8)] in
  multiplicity (1, 9) (connectome_goc_grc golgis glom_grc goc_glom) = 2%nat
  /\ multiplicity (1, 9) (relational_join goc_glom glom_grc) = 2%nat.
Proof.
  intros golgis goc_glom glom_grc.
  assert (Hne : forall a b : Q, Qeq_bool a b = false -> ~ a == b).
  { intros a b E H. apply Qeq_bool_iff in H. congruence. }
  assert (H : multiplicity (1, 9) (connectome_goc_grc golgis glom_grc goc_glom)
              = multiplicity (1, 9) (relational_join goc_glom glom_grc)).
  { apply (goc_grc_is_join golgis glom_grc goc_glom).
    - repeat constructor; intros Hin; apply InA_alt in Hin;
        destruct Hin as [b [[Hf Hs] Hb]]; simpl in Hb;
        repeat (destruct Hb as [<- | Hb]); try contradiction;
        cbn [fst snd] in Hf, Hs;
        first [ revert Hf; apply Hne; reflexivity | revert Hs; apply Hne; reflexivity ].
    - repeat constructor; intros Hin; apply InA_alt in Hin;
        destruct Hin as [b [Hf Hb]]; simpl in Hb;
        repeat (destruct Hb as [<- | Hb]); try contradiction;
        revert Hf; apply Hne; reflexivity.
    - intros e1 Hin. simpl in Hin.
      destruct Hin as [<- | [<- | [<- | []]]];
        [ exists (mkCell 1 0 0 0 0) | exists (mkCell 1 0 0 0 0) | exists (mkCell 2 0 3 0 0) ];
        (split; [simpl; auto | reflexivity]). }
  split; [rewrite H |]; vm_compute; reflexivity.
Defined.

End GolgiGranuleJoin.

(** ** The exclusion of ConnectomeGolgiGlomerulus *)

Section NumberFacts.

Lemma Qltb_lt (x y : Q) : Qltb x y = true <-> x < y.
Proof.
  unfold Qltb. rewrite negb_true_iff. split.
  - intros H. apply Qnot_le_lt. intros Hle. apply Qle_bool_iff in Hle. congruence.
  - intros H. destruct (Qle_bool y x) eqn:E; [| reflexivity].
    apply Qle_bool_iff in E. exfalso. eapply Qlt_not_le; eauto.
Qed.

Lemma sqrt_ltb_spec (s b : Q) : sqrt_ltb s b = true <-> 0 < b /\ s < sq b.
Proof. unfold sqrt_ltb. now rewrite andb_true_iff, !Qltb_lt. Qed.

Lemma py_int_inject_Z (q : Q) (k : Z) : q == inject_Z k -> py_int q = k.
Proof.
  unfold Qeq, py_int. cbn [inject_Z Qnum Qden]. intros H.
  rewrite Z.mul_1_r in H. rewrite H. apply Z.quot_mul. discriminate.
Qed.

Lemma py_index_nat (n r : nat) : (r < n)%nat -> py_index n (Z.of_nat r) = Some r.
Proof.
  intros H. unfold py_index.
  destruct (Z.leb_spec 0 (Z.of_nat r)); [| lia].
  destruct (Z.ltb_spec (Z.of_nat r) (Z.of_nat n)); [| lia].
  cbn [andb]. now rewrite Nat2Z.id.
Qed.

Lemma inject_Z_plus_inj (a b c : Z) :
  inject_Z a + inject_Z c == inject_Z b + inject_Z c -> a = b.
Proof.
  intros H. rewrite <- !inject_Z_plus in H. apply -> inject_Z_injective in H. lia.
Qed.

(** [fl] is a function of the value of a rational, and it is odd. *)
Lemma fl_compat (p q : Q) : p == q -> fl p = fl q.
Proof. intros H. unfold fl. now rewrite (Qred_complete p q H). Qed.

Lemma fl_opp (q : Q) : fl (- q) == - fl q.
Proof.
  unfold fl. rewrite Qred_opp.
  destruct (Qred q) as [[| n | n] d]; cbn [Qnum Qopp Z.opp].
  - reflexivity.
  - rewrite !Qred_correct. reflexivity.
  - rewrite !Qred_correct, Qopp_involutive. reflexivity.
Qed.


(** *** The error of one rounding

    [floor_log2 q] is an exponent of 2 not above [q]; rounding to the
    nearest integer moves by at most a half; so [fl] moves a number by at
    most [2^-53] of its magnitude or, below the normal range, by
    [2^-1075]. *)
Lemma pow2_pos (e : Z) : 0 < pow2 e.
Proof. apply Qpower_0_lt. reflexivity. Qed.

Lemma pow2_plus (a b : Z) : pow2 (a + b) == pow2 a * pow2 b.
Proof. apply Qpower_plus. discriminate. Qed.

Lemma pow2_nat (a : Z) : (0 <= a)%Z -> pow2 a == inject_Z (2 ^ a).
Proof. intros H. unfold pow2. now rewrite (Zpower_Qpower 2 a H). Qed.

Lemma floor_log2_le (q : Q) : 0 < q -> pow2 (floor_log2 q) <= q.
Proof.
  intros Hq. unfold floor_log2.
  set (a := Z.log2 (Qnum q)). set (b := Z.log2 (Zpos (Qden q))).
  destruct (Qle_bool (pow2 (a - b)) q) eqn:E; [now apply Qle_bool_iff |].
  assert (Hn : (0 < Qnum q)%Z).
  { destruct q as [n d]. unfold Qlt in Hq. cbn in *. lia. }
  assert (Ha : (0 <= a)%Z) by apply Z.log2_nonneg.
  assert (Hb : (0 <= b)%Z) by apply Z.log2_nonneg.
  destruct (Z.log2_spec (Qnum q) Hn) as [Hlo _]. fold a in Hlo.
  destruct (Z.log2_spec (Zpos (Qden q)) eq_refl) as [_ Hhi]. fold b in Hhi.
  assert (Hmul : pow2 (a - b - 1) * pow2 (b + 1) == pow2 a).
  { rewrite <- pow2_plus. now replace (a - b - 1 + (b + 1))%Z with a by lia. }
  assert (Hd : inject_Z (Zpos (Qden q)) <= pow2 (b + 1)).
  { rewrite pow2_nat by lia. rewrite <- Zle_Qle.
    replace (b + 1)%Z with (Z.succ b) by lia. lia. }
  assert (Hnq : pow2 a <= inject_Z (Qnum q)).
  { rewrite pow2_nat by lia. now rewrite <- Zle_Qle. }
  assert (Hqd : q * inject_Z (Zpos (Qden q)) == inject_Z (Qnum q)).
  { destruct q as [n d]. unfold Qeq, Qmult, inject_Z. cbn. lia. }
  assert (Hp := pow2_pos (a - b - 1)). assert (Hp1 := pow2_pos (b + 1)).
  assert (Hdp : 0 < inject_Z (Zpos (Qden q))) by (unfold Qlt; cbn; lia).
  (* pow2 (a-b-1) * d <= pow2(a-b-1) * pow2 (b+1) = pow2 a <= n = q * d *)
  apply Qnot_lt_le. intros Hlt.
  assert (H1 : q * inject_Z (Zpos (Qden q)) < pow2 (a - b - 1) * inject_Z (Zpos (Qden q))).
  { apply Qmult_lt_compat_r; assumption. }
  assert (H2 : pow2 (a - b - 1) * inject_Z (Zpos (Qden q))
               <= pow2 (a - b - 1) * pow2 (b + 1)).
  { rewrite !(Qmult_comm (pow2 (a - b - 1))). apply Qmult_le_compat_r; [assumption |].
    now apply Qlt_le_weak. }
  rewrite Hqd in H1. rewrite Hmul in H2.
  apply (Qlt_irrefl (inject_Z (Qnum q))).
  eapply Qlt_le_trans; [exact H1 |]. eapply Qle_trans; [exact H2 | exact Hnq].
Qed.

Lemma round_half_even_error (m : Q) :
  Qabs (inject_Z (round_half_even m) - m) <= 1 # 2.
Proof.
  unfold round_half_even.
  assert (Hlo := Qfloor_le m). assert (Hhi := Qlt_floor m).
  set (f := Qfloor m) in *.
  assert (Hf1 : inject_Z (f + 1) == inject_Z f + 1) by (rewrite inject_Z_plus; reflexivity).
  rewrite Hf1 in Hhi.
  apply Qabs_Qle_condition.
  destruct (Qcompare (m - inject_Z f) (1 # 2)) eqn:E.
  - apply Qeq_alt in E. destruct (Z.even f); [| rewrite Hf1]; split; lra.
  - apply Qlt_alt in E. split; lra.
  - apply Qgt_alt in E. rewrite Hf1. split; lra.
Qed.

Lemma round_pos_error (q : Q) :
  0 < q -> Qabs (round_pos q - q) <= pow2 (-53) * q + pow2 (-1075).
Proof.
  intros Hq. unfold round_pos.
  set (e := floor_log2 q). set (p := Z.max (e - 52) (-1074)).
  assert (Hp := pow2_pos p).
  assert (Herr := round_half_even_error (q / pow2 p)).
  set (r := inject_Z (round_half_even (q / pow2 p))) in *.
  assert (Hhalf : Qabs (r * pow2 p - q) <= (1 # 2) * pow2 p).
  { assert (Heq : r * pow2 p - q == (r - q / pow2 p) * pow2 p)
      by (field; intros H; rewrite H in Hp; now apply (Qlt_irrefl 0)).
    rewrite Heq, Qabs_Qmult, (Qabs_pos (pow2 p)) by now apply Qlt_le_weak.
    apply Qmult_le_compat_r; [exact Herr | now apply Qlt_le_weak]. }
  eapply Qle_trans; [exact Hhalf |].
  assert (H53 := pow2_pos (-53)). assert (H1075 := pow2_pos (-1075)).
  destruct (Z.max_spec (e - 52) (-1074)) as [[_ Hm] | [_ Hm]]; fold p in Hm; rewrite Hm.
  - assert (Hc : (1 # 2) * pow2 (-1074) == pow2 (-1075)) by (vm_compute; reflexivity).
    rewrite Hc. assert (0 <= pow2 (-53) * q) by (apply Qmult_le_0_compat; lra). lra.
  - assert (Hle := floor_log2_le q Hq). fold e in Hle.
    assert (Hc : (1 # 2) * pow2 (e - 52) == pow2 (-53) * pow2 e).
    { replace (e - 52)%Z with (-52 + e)%Z by lia. rewrite pow2_plus.
      assert (Hc' : pow2 (-53) == (1 # 2) * pow2 (-52)) by (vm_compute; reflexivity).
      rewrite Hc'. ring. }
    rewrite Hc.
    assert (pow2 (-53) * pow2 e <= pow2 (-53) * q).
    { rewrite !(Qmult_comm (pow2 (-53))). apply Qmult_le_compat_r; lra. }
    lra.
Qed.

Lemma fl_error (q : Q) : Qabs (fl q - q) <= pow2 (-53) * Qabs q + pow2 (-1075).
Proof.
  assert (H53 := pow2_pos (-53)). assert (H1075 := pow2_pos (-1075)).
  unfold fl. assert (Hr := Qred_correct q).
  destruct (Qnum (Qred q)) as [| n | n] eqn:En.
  - assert (Hz : q == 0).
    { rewrite <- Hr. destruct (Qred q) as [a b]. cbn in En. subst a. reflexivity. }
    rewrite Hz. vm_compute. discriminate.
  - assert (Hpos : 0 < Qred q).
    { destruct (Qred q) as [a b]. cbn in En. subst a. reflexivity. }
    rewrite Qred_correct. rewrite <- Hr at 2 3.
    rewrite (Qabs_pos (Qred q)) by now apply Qlt_le_weak.
    now apply round_pos_error.
  - assert (Hneg : 0 < - Qred q).
    { destruct (Qred q) as [a b]. cbn in En. subst a. reflexivity. }
    rewrite Qred_correct. rewrite <- Hr at 2 3.
    assert (He : - round_pos (- Qred q) - Qred q == - (round_pos (- Qred q) - - Qred q))
      by ring.
    rewrite He, Qabs_opp. rewrite <- (Qabs_opp (Qred q)).
    rewrite (Qabs_pos (- Qred q)) by now apply Qlt_le_weak.
    now apply round_pos_error.
Qed.

(** From here on the proofs take [fl] as it stands; evaluation still
    computes it. *)
Opaque fl.

(** Line 289: the two roundings of [(X - w) / 2.] leave the middle of
    the extent within [2^-52 |X - w| + 2^-1074] of [X / 2]. *)
Lemma centre_error (X w : Q) :
  Qabs (fdiv (fsub X w) 2 + w / 2 - X / 2)
  <= pow2 (-52) * Qabs (X - w) + pow2 (-1074).
Proof.
  unfold fdiv, fsub.
  assert (E1 := fl_error (X - w)). assert (E2 := fl_error (fl (X - w) / 2)).
  set (t := X - w) in *. set (a := fl t) in *. set (x := fl (a / 2)) in *.
  assert (Hu : pow2 (-53) == 1 # 9007199254740992) by (vm_compute; reflexivity).
  assert (Hu2 : pow2 (-52) == 2 # 9007199254740992) by (vm_compute; reflexivity).
  assert (He : pow2 (-1074) == 2 * pow2 (-1075)) by (vm_compute; reflexivity).
  assert (Heta := pow2_pos (-1075)).
  rewrite Hu in E1, E2. rewrite Hu2, He.
  set (eta := pow2 (-1075)) in *.
  assert (Ha2 : Qabs (a / 2) == Qabs a * (1 # 2)).
  { unfold Qdiv. rewrite Qabs_Qmult. reflexivity. }
  rewrite Ha2 in E2.
  assert (Htri : Qabs a <= Qabs t + Qabs (a - t)).
  { assert (H := Qabs_triangle t (a - t)).
    assert (Hq : t + (a - t) == a) by ring. now rewrite Hq in H. }
  assert (Hgoal : Qabs (x + w / 2 - X / 2) <= Qabs (x - a / 2) + Qabs (a - t) * (1 # 2)).
  { assert (H := Qabs_triangle (x - a / 2) ((a - t) * (1 # 2))).
    assert (Hq : x - a / 2 + (a - t) * (1 # 2) == x + w / 2 - X / 2)
      by (unfold t; field).
    rewrite Hq in H. now rewrite Qabs_Qmult in H. }
  assert (0 <= Qabs t) by apply Qabs_nonneg.
  assert (0 <= Qabs a) by apply Qabs_nonneg.
  lra.
Qed.

(** The distance along one axis is the same in both directions. *)
Lemma Qabs_fsub_sym (a b : Q) : Qabs (fsub a b) == Qabs (fsub b a).
Proof.
  unfold fsub. rewrite (fl_compat (b - a) (- (a - b))) by ring.
  now rewrite fl_opp, Qabs_opp.
Qed.

End NumberFacts.

Section StoreFacts.

Lemma bind_ok {A B : Type} (c : M A) (k : A -> M B) (w w1 : world) (a : A) :
  c w = (Ok a, w1) -> bind c k w = k a w1.
Proof. intros H. unfold bind. now rewrite H. Qed.

Lemma load_ok (l : nat) (w : world) (m : matrix) :
  nth_error (mem w) l = Some m -> load l w = (Ok m, w).
Proof. intros H. unfold load. now rewrite H. Qed.

Lemma set_row_ok (l : nat) (k : Z) (v : cell) (w : world) (W : matrix) (i : nat) :
  nth_error (mem w) l = Some W ->
  py_index (length W) k = Some i ->
  set_row l k v w
  = (Ok tt, mkWorld (replace_nth l (replace_nth i v W) (mem w)) (ints w) (unifs w)).
Proof.
  intros HW Hi. unfold set_row. rewrite (bind_ok _ _ _ _ _ (load_ok _ _ _ HW)).
  now rewrite Hi.
Qed.

End StoreFacts.

Section Exclusion.

Import GolgiGlomerulus.

Variables (first_glomerulus : Z) (glomeruli : nat).
Variables (GoCaxon_x GoCaxon_y GoCaxon_z r_glom : Q).
Variables (n_conn_goc : Z) (layer_thickness oob : Q).
Variable G : matrix.
Hypothesis thickness_pos : 0 < layer_thickness.
Hypothesis ids_dense : dense_ids first_glomerulus G.

(** A sentinel row is never accepted: its threshold is at least 1 and
    the draw is below 1. *)
Lemma accepted_not_sentinel (golgi c : cell) (ra : Q) :
  out_of_reach layer_thickness oob golgi -> 0 <= ra -> ra < 1 ->
  accepted layer_thickness golgi c ra = true -> c <> all_columns oob.
Proof.
  intros Hfar H0 H1 Hacc ->. unfold accepted in Hacc. apply sqrt_ltb_spec in Hacc.
  destruct Hacc as [Hpos Hlt]. unfold out_of_reach in Hfar.
  unfold sq in Hlt, Hfar.
  assert (Ha : ra * layer_thickness < layer_thickness) by nra.
  assert (Hb : (ra * layer_thickness) * (ra * layer_thickness)
               < layer_thickness * layer_thickness) by nra.
  lra.
Qed.

Lemma state_after_write (l : nat) (w : world) (W : matrix) (r : nat) :
  state_ok oob glomeruli G l w W -> (r < length G)%nat ->
  state_ok oob glomeruli G l
           (mkWorld (replace_nth l (replace_nth r (all_columns oob) W) (mem w))
                    (ints w) (unifs w))
           (replace_nth r (all_columns oob) W).
Proof.
  intros (HG & HW & Hne & [Hlen Hrows] & Hd) Hr. unfold state_ok. cbn [mem unifs].
  repeat split; auto.
  - rewrite replace_nth_error_other by auto. exact HG.
  - apply replace_nth_error_same. apply nth_error_Some. congruence.
  - now rewrite replace_nth_length.
  - intros r' Hr'. destruct (Nat.eq_dec r r') as [<- | Hrr].
    + right. apply replace_nth_same. lia.
    + rewrite replace_nth_other by exact Hrr. auto.
Qed.

Lemma state_same_store (l : nat) (w w1 : world) (W : matrix) :
  state_ok oob glomeruli G l w W -> mem w1 = mem w -> unit_draws w1 ->
  state_ok oob glomeruli G l w1 W.
Proof.
  intros (HG & HW & Hne & Hwc & _) Hm Hd. unfold state_ok. rewrite Hm. auto.
Qed.

(** The walk over the candidates of one Golgi cell returns; the rows it
    takes are rows that were not yet overwritten, each taken once, and
    they are overwritten when it ends. *)
Lemma walk_exclusive (l : nat) (golgi : cell) :
  out_of_reach layer_thickness oob golgi ->
  forall (rows : list nat) (idx : Z) (w : world) (W : matrix),
    state_ok oob glomeruli G l w W ->
    NoDup rows ->
    (forall r, In r rows -> (r < length G)%nat) ->
    exists es w' W' rs,
      walk first_glomerulus n_conn_goc layer_thickness oob l golgi idx
           (map (fun i => nth i W zero_cell) rows) w = (Ok es, w')
      /\ state_ok oob glomeruli G l w' W'
      /\ NoDup rs /\ incl rs rows
      /\ Forall2 (fun e r => snd e == target_of first_glomerulus r) es rs
      /\ (forall r, In r rs -> nth r W zero_cell <> all_columns oob
                               /\ nth r W' zero_cell = all_columns oob)
      /\ (forall r, nth r W zero_cell = all_columns oob ->
                    nth r W' zero_cell = all_columns oob).
Proof.
  intros Hfar. induction rows as [| r rows' IH]; intros idx w W Hst Hnd Hlt.
  - exists [], w, W, []. cbn [map walk].
    split; [reflexivity |]. split; [exact Hst |]. split; [constructor |].
    split; [intros x [] |]. split; [constructor |].
    split; [intros x [] | auto].
  - inversion Hnd as [| ? ? Hnotin Hnd']; subst.
    assert (Hlt' : forall r', In r' rows' -> (r' < length G)%nat)
      by (intros r' Hr'; apply Hlt; now right).
    assert (Hskip : forall w1, state_ok oob glomeruli G l w1 W ->
              exists es w' W' rs,
                walk first_glomerulus n_conn_goc layer_thickness oob l golgi idx
                     (map (fun i => nth i W zero_cell) rows') w1 = (Ok es, w')
                /\ state_ok oob glomeruli G l w' W'
                /\ NoDup rs /\ incl rs (r :: rows')
                /\ Forall2 (fun e r => snd e == target_of first_glomerulus r) es rs
                /\ (forall r, In r rs -> nth r W zero_cell <> all_columns oob
                                         /\ nth r W' zero_cell = all_columns oob)
                /\ (forall r, nth r W zero_cell = all_columns oob ->
                              nth r W' zero_cell = all_columns oob)).
    { intros w1 Hst1.
      destruct (IH idx w1 W Hst1 Hnd' Hlt')
        as (es & w' & W' & rs & Hrun & Hst' & Hndrs & Hincl & Hf2 & Hlive & Hmono).
      exists es, w', W', rs.
      split; [exact Hrun |]. split; [exact Hst' |]. split; [exact Hndrs |].
      split; [now apply incl_tl |]. split; [exact Hf2 |]. split; assumption. }
    cbn [map walk]. destruct (idx <=? n_conn_goc)%Z; [| now apply Hskip].
    pose proof Hst as (HG & HW & Hne & [Hlen Hrows] & Hd).
    destruct (np_random_spec w Hd) as (u & w1 & Hu & Hm & H0 & H1 & Hd1).
    rewrite (bind_ok _ _ _ _ _ Hu).
    assert (Hst1 : state_ok oob glomeruli G l w1 W)
      by (eapply state_same_store; eauto).
    destruct (accepted layer_thickness golgi (nth r W zero_cell) u) eqn:Eacc;
      [| now apply Hskip].
    assert (Hr : (r < length G)%nat) by (apply Hlt; now left).
    assert (Hc : nth r W zero_cell <> all_columns oob)
      by (eapply accepted_not_sentinel; eauto).
    assert (HcG : nth r W zero_cell = nth r G zero_cell)
      by (destruct (Hrows r Hr); [assumption | contradiction]).
    assert (Hid : c_id (nth r W zero_cell)
                  == inject_Z (first_glomerulus + Z.of_nat r)).
    { rewrite HcG. apply ids_dense. now apply nth_error_nth'. }
    assert (Hint : py_int (c_id (nth r W zero_cell) - inject_Z first_glomerulus)
                   = Z.of_nat r).
    { apply py_int_inject_Z. rewrite Hid, inject_Z_plus. ring. }
    rewrite Hint.
    assert (HrW : (r < length W)%nat) by lia.
    assert (Hst2 := state_after_write l w1 W r Hst1 Hr).
    destruct Hst1 as (HG1 & HW1 & _).
    rewrite (bind_ok _ _ _ _ _
               (set_row_ok l (Z.of_nat r) (all_columns oob) w1 W r HW1
                           (py_index_nat (length W) r HrW))).
    assert (Hcs : map (fun i => nth i W zero_cell) rows'
                  = map (fun i => nth i (replace_nth r (all_columns oob) W) zero_cell)
                        rows').
    { apply map_ext_in. intros i Hi. symmetry. apply replace_nth_other.
      intros ->. contradiction. }
    rewrite Hcs.
    destruct (IH (idx + 1)%Z _ _ Hst2 Hnd' Hlt')
      as (es & w' & W' & rs & Hrun & Hst' & Hndrs & Hincl & Hf2 & Hlive & Hmono).
    rewrite (bind_ok _ _ _ _ _ Hrun). unfold ret.
    exists ((c_id golgi, c_id (nth r W zero_cell) + inject_Z first_glomerulus) :: es),
      w', W', (r :: rs).
    split; [reflexivity |]. split; [exact Hst' |].
    split. { constructor; [intros Hin; apply Hincl in Hin; contradiction | exact Hndrs]. }
    split. { intros x [<- | Hx]; [now left | right; now apply Hincl]. }
    split. { constructor; [| exact Hf2]. cbn [snd]. unfold target_of.
             now rewrite Hid. }
    split.
    + intros x [<- | Hx].
      * split; [exact Hc |]. apply Hmono. apply replace_nth_same. lia.
      * destruct (Hlive x Hx) as [Hl Hdead]. split; [| exact Hdead].
        rewrite replace_nth_other in Hl; [exact Hl |].
        intros ->. apply Hnotin. now apply Hincl.
    + intros x Hx. apply Hmono. destruct (Nat.eq_dec r x) as [<- | Hne'].
      * apply replace_nth_same. lia.
      * now rewrite replace_nth_other.
Qed.

(** One Golgi cell: the candidates are rows of the population picked by
    the gate, shuffled and sorted, each at most once. *)
Lemma connect_golgi_exclusive (l : nat) (golgi : cell) (w : world) (W : matrix) :
  out_of_reach layer_thickness oob golgi ->
  state_ok oob glomeruli G l w W ->
  exists es w' W' rs,
    connect_golgi first_glomerulus glomeruli GoCaxon_x GoCaxon_y GoCaxon_z r_glom
                  n_conn_goc layer_thickness oob l golgi w = (Ok es, w')
    /\ state_ok oob glomeruli G l w' W'
    /\ NoDup rs
    /\ Forall2 (fun e r => snd e == target_of first_glomerulus r) es rs
    /\ (forall r, In r rs -> nth r W zero_cell <> all_columns oob
                             /\ nth r W' zero_cell = all_columns oob)
    /\ (forall r, nth r W zero_cell = all_columns oob ->
                  nth r W' zero_cell = all_columns oob).
Proof.
  intros Hfar Hst. pose proof Hst as (HG & HW & Hne & Hwc & Hd).
  unfold connect_golgi. rewrite (bind_ok _ _ _ _ _ (load_ok _ _ _ HG)). cbv zeta.
  set (good := np_where (map (gate GoCaxon_x GoCaxon_y GoCaxon_z r_glom golgi) G)).
  destruct (np_random_permutation_spec good w) as (p & w1 & Hp & Hperm & Hm & Hu).
  rewrite (bind_ok _ _ _ _ _ Hp).
  assert (Hst1 : state_ok oob glomeruli G l w1 W).
  { eapply state_same_store; eauto. unfold unit_draws. now rewrite Hu. }
  pose proof Hst1 as (_ & HW1 & _).
  rewrite (bind_ok _ _ _ _ _ (load_ok _ _ _ HW1)).
  set (keys := map (dist2 golgi) (take zero_cell W p)).
  assert (Hkeys : length keys = length p)
    by (unfold keys, take; now rewrite !length_map).
  rewrite take_take.
  2:{ intros i Hi. apply (Permutation_in _ (argsort_perm keys)) in Hi.
      apply in_seq in Hi. lia. }
  unfold take at 1.
  assert (Hrows : Permutation (take 0%nat p (argsort keys)) p).
  { apply take_perm. rewrite <- Hkeys. apply argsort_perm. }
  destruct (walk_exclusive l golgi Hfar (take 0%nat p (argsort keys)) 1%Z w1 W Hst1)
    as (es & w' & W' & rs & Hrun & Hst' & Hndrs & Hincl & Hf2 & Hlive & Hmono).
  { eapply Permutation_NoDup; [symmetry; exact Hrows |].
    eapply Permutation_NoDup; [symmetry; exact Hperm |]. apply np_where_NoDup. }
  { intros r Hr. apply (Permutation_in _ Hrows) in Hr.
    apply (Permutation_in _ Hperm) in Hr. apply np_where_lt in Hr.
    now rewrite length_map in Hr. }
  exists es, w', W', rs.
  split; [exact Hrun |]. split; [exact Hst' |]. split; [exact Hndrs |].
  split; [exact Hf2 |]. split; assumption.
Qed.

(** The loop over the Golgi cells: a row taken for one Golgi cell is
    overwritten from then on, a row taken for a later one was not. *)
Lemma golgi_loop_exclusive (l : nat) (gs : list cell) :
  forall (w : world) (W : matrix),
    (forall g, In g gs -> out_of_reach layer_thickness oob g) ->
    state_ok oob glomeruli G l w W ->
    exists es w' W' rs,
      for_rows (connect_golgi first_glomerulus glomeruli GoCaxon_x GoCaxon_y GoCaxon_z
                              r_glom n_conn_goc layer_thickness oob l) gs w
      = (Ok es, w')
      /\ state_ok oob glomeruli G l w' W'
      /\ NoDup rs
      /\ Forall2 (fun e r => snd e == target_of first_glomerulus r) es rs
      /\ (forall r, In r rs -> nth r W zero_cell <> all_columns oob
                               /\ nth r W' zero_cell = all_columns oob)
      /\ (forall r, nth r W zero_cell = all_columns oob ->
                    nth r W' zero_cell = all_columns oob).
Proof.
  induction gs as [| g gs IH]; intros w W Hfar Hst.
  - exists [], w, W, []. cbn [for_rows]. unfold ret.
    split; [reflexivity |]. split; [exact Hst |]. split; [constructor |].
    split; [constructor |]. split; [intros r [] | auto].
  - destruct (connect_golgi_exclusive l g w W (Hfar g (or_introl eq_refl)) Hst)
      as (es1 & w1 & W1 & rs1 & Hrun1 & Hst1 & Hnd1 & Hf1 & Hlive1 & Hmono1).
    destruct (IH w1 W1 (fun g' Hg' => Hfar g' (or_intror Hg')) Hst1)
      as (es2 & w2 & W2 & rs2 & Hrun2 & Hst2 & Hnd2 & Hf2 & Hlive2 & Hmono2).
    exists (es1 ++ es2), w2, W2, (rs1 ++ rs2). cbn [for_rows].
    rewrite (bind_ok _ _ _ _ _ Hrun1), (bind_ok _ _ _ _ _ Hrun2). unfold ret.
    split; [reflexivity |]. split; [exact Hst2 |].
    split.
    { apply NoDup_app; auto. intros r Hr1 Hr2.
      destruct (Hlive1 r Hr1) as [_ Hdead]. destruct (Hlive2 r Hr2) as [Hlive _].
      contradiction. }
    split; [now apply Forall2_app |].
    split.
    + intros r Hr. apply in_app_or in Hr. destruct Hr as [Hr | Hr].
      * destruct (Hlive1 r Hr) as [Hl Hdead]. split; [exact Hl | now apply Hmono2].
      * destruct (Hlive2 r Hr) as [Hl Hdead]. split; [| exact Hdead].
        intros Hdead0. apply Hl. now apply Hmono1.
    + intros r Hr. now apply Hmono2, Hmono1.
Qed.

End Exclusion.

Lemma unique_targets_of_rows (first : Z) (es : list edge) (rs : list nat) :
  NoDup rs ->
  Forall2 (fun e r => snd e == GolgiGlomerulus.target_of first r) es rs ->
  GolgiGlomerulus.unique_targets es.
Proof.
  intros Hnd Hf2. unfold GolgiGlomerulus.unique_targets.
  induction Hf2 as [| e r es rs He Hf2 IH]; intros i j ei ej Hi Hj Heq.
  - destruct i; discriminate Hi.
  - inversion Hnd as [| ? ? Hnotin Hnd']; subst.
    assert (Hfresh : forall k ek, nth_error es k = Some ek -> ~ snd ek == snd e).
    { intros k ek Hk Hek. apply Hnotin.
      clear - Hf2 Hk Hek He. revert k Hk.
      induction Hf2 as [| e' r' es rs He' Hf2 IH]; intros k Hk;
        [destruct k; discriminate Hk |].
      destruct k as [| k]; cbn in Hk.
      - injection Hk as ->. left. rewrite He, He' in Hek.
        unfold GolgiGlomerulus.target_of in Hek. apply inject_Z_plus_inj in Hek. lia.
      - right. eapply IH; eauto. }
    destruct i as [| i], j as [| j]; cbn in Hi, Hj.
    + reflexivity.
    + injection Hi as ->. exfalso. eapply Hfresh; eauto. now symmetry.
    + injection Hj as ->. exfalso. eapply Hfresh; eauto.
    + f_equal. eapply IH; eauto.
Qed.

Section ExclusionOfGlomeruli.

Import GolgiGlomerulus.

(** C3.  What [connectome_goc_glom] does with a layer 10000 thick and a
    sentinel of 1000.  The gate of lines 176-180 reads [glom_x], [glom_y]
    and [glom_z], views of the original array, so that a row overwritten
    at line 202 stays a candidate (the gates of [connectome_aa_pc] and
    [connectome_grc_goc] read the working copy); only its threshold keeps
    it out, here 0.14 for a Golgi cell at the origin, and the draw 0.9
    accepts it.  The first Golgi cell takes both glomeruli; the second
    one is offered the two overwritten rows and takes both, writing twice
    the id held by the sentinel row, which is also the id written for
    the first glomerulus: one glomerulus in three rows, against the
    comments of line 161 (``exclude cells from geometric constraints'')
    and line 172 (``1 glomerulus must be connected to only 1 GoC''). *)
Theorem goc_glom_sentinel_within_reach :
  let glomeruli := [mkCell 1000 0 0 0 0; mkCell 1001 0 0 0 0] in
  let golgis := [mkCell 1 0 0 0 0; mkCell 2 0 0 0 0] in
  let draws := [9 # 10; 9 # 10; 9 # 10; 9 # 10] in
  let es := [(1, 2000); (1, 2001); (2, 2000); (2, 2000)] in
  exists w',
    connectome_goc_glom 1000 0 1 10 10 10 1 2 10000 1000
                        (mkWorld [glomeruli; golgis] [] draws) = (Ok es, w')
    /\ ~ unique_targets es.
Proof.
  eexists. split; [vm_compute; reflexivity |].
  intros H. specialize (H 0%nat 2%nat _ _ eq_refl eq_refl). cbn [snd] in H.
  specialize (H ltac:(reflexivity)). discriminate H.
Qed.

(** Where the exclusion does work.  The threshold of line 187 is
    compared here through its square, without rounding.  When the
    sentinel row is out of reach of every Golgi cell (its distance to the
    cell in the plane of line 187 is at least [layer_thickness], so that
    no draw of [0, 1) exceeds its threshold), the ids of the glomeruli
    are [first_glomerulus] plus the row number, [layer_thickness] is
    positive and [n_conn_goc] is not negative, [connectome_goc_glom]
    returns for every outcome of the random draws, and no two rows of its
    matrix hold the same glomerulus.  In float64 the square root and the
    division of line 187 round: a threshold of 1 or just above may come
    out as the float below 1, which a draw can exceed, so that the
    hypothesis on the sentinel needs a margin there. *)
Lemma goc_glom_exclusive (first_glomerulus : Z) (glomeruli golgicells : nat)
    (GoCaxon_x GoCaxon_y GoCaxon_z r_glom : Q) (n_conn_goc : Z)
    (layer_thickness oob : Q) (w : world) (G golgis : matrix) :
  nth_error (mem w) glomeruli = Some G ->
  nth_error (mem w) golgicells = Some golgis ->
  0 < layer_thickness ->
  (0 <= n_conn_goc)%Z ->
  dense_ids first_glomerulus G ->
  (forall g, In g golgis -> out_of_reach layer_thickness oob g) ->
  unit_draws w ->
  exists es w',
    connectome_goc_glom first_glomerulus glomeruli golgicells
                        GoCaxon_x GoCaxon_y GoCaxon_z r_glom n_conn_goc
                        layer_thickness oob w = (Ok es, w')
    /\ unique_targets es.
Proof.
  intros HG Hgo Hpos Hn Hdense Hfar Hd. unfold connectome_goc_glom.
  assert (Hcopy : np_copy glomeruli w
                  = (Ok (length (mem w)),
                     mkWorld (mem w ++ [G]) (ints w) (unifs w))).
  { unfold np_copy. now rewrite (bind_ok _ _ _ _ _ (load_ok _ _ _ HG)). }
  rewrite (bind_ok _ _ _ _ _ Hcopy).
  set (w1 := mkWorld (mem w ++ [G]) (ints w) (unifs w)).
  assert (Hlt : (glomeruli < length (mem w))%nat)
    by (apply nth_error_Some; congruence).
  assert (Hst1 : state_ok oob glomeruli G (length (mem w)) w1 G).
  { unfold state_ok, w1. cbn [mem unifs]. repeat split; auto.
    - rewrite nth_error_app1 by exact Hlt. exact HG.
    - now rewrite nth_error_app2, Nat.sub_diag by lia.
    - lia. }
  assert (Hload : load golgicells w1 = (Ok golgis, w1)).
  { apply load_ok. unfold w1. cbn [mem].
    rewrite nth_error_app1 by (apply nth_error_Some; congruence). exact Hgo. }
  rewrite (bind_ok _ _ _ _ _ Hload).
  destruct (np_random_permutation_spec golgis w1) as (p & w2 & Hp & Hperm & Hm & Hu).
  rewrite (bind_ok _ _ _ _ _ Hp).
  destruct (Z.ltb_spec (Z.of_nat (length golgis) * n_conn_goc) 0) as [Hneg | _];
    [nia |].
  assert (Hst2 : state_ok oob glomeruli G (length (mem w)) w2 G).
  { eapply state_same_store; eauto. unfold unit_draws. rewrite Hu. exact Hd. }
  destruct (golgi_loop_exclusive first_glomerulus glomeruli GoCaxon_x GoCaxon_y
              GoCaxon_z r_glom n_conn_goc layer_thickness oob G Hpos Hdense
              (length (mem w)) p w2 G)
    as (es & w' & W' & rs & Hrun & _ & Hnd & Hf2 & _); [| exact Hst2 |].
  { intros g Hg. apply Hfar. eapply Permutation_in; eauto. }
  exists es, w'. split; [exact Hrun |].
  eapply unique_targets_of_rows; eauto.
Qed.

(** The same two Golgi cells and two glomeruli with a layer 100 thick:
    the sentinel row is out of reach. *)
Lemma goc_glom_exclusive_witness :
  let glomeruli := [mkCell 1000 0 0 0 0; mkCell 1001 0 0 0 0] in
  let golgis := [mkCell 1 0 0 0 0; mkCell 2 0 0 0 0] in
  let draws := [9 # 10; 9 # 10; 9 # 10; 9 # 10] in
  exists es w',
    connectome_goc_glom 1000 0 1 10 10 10 1 2 100 1000
                        (mkWorld [glomeruli; golgis] [] draws) = (Ok es, w')
    /\ unique_targets es.
Proof.
  intros glomeruli golgis draws.
  apply (goc_glom_exclusive 1000 0 1 10 10 10 1 2 100 1000
           (mkWorld [glomeruli; golgis] [] draws) glomeruli golgis).
  - reflexivity.
  - reflexivity.
  - reflexivity.
  - lia.
  - intros r c H. destruct r as [| [| r]]; cbn in H.
    + injection H as <-. reflexivity.
    + injection H as <-. reflexivity.
    + destruct r; discriminate H.
  - intros g [<- | [<- | []]]; vm_compute; discriminate.
  - repeat constructor; vm_compute; discriminate.
Defined.

End ExclusionOfGlomeruli.

(** ** Further facts on the claims above *)

Section GlomDCNFacts.

Import GlomDCN.

(** With enough glomeruli every DCN cell gets exactly [conv_dcn] rows. *)
Lemma connect_dcn_length (glomeruli : matrix) (conv_dcn : Z) (i : cell) (w : world) :
  (0 <= conv_dcn <= Z.of_nat (length glomeruli))%Z ->
  exists es w',
    connect_dcn glomeruli conv_dcn i w = (Ok es, w')
    /\ length es = Z.to_nat conv_dcn
    /\ forall e, In e es -> snd e = c_id i.
Proof.
  intros Hc. unfold connect_dcn, np_random_choice. rewrite length_map.
  destruct (Z.ltb_spec conv_dcn 0); [lia |].
  destruct (Z.ltb_spec (Z.of_nat (length glomeruli)) conv_dcn); [lia |].
  cbn [orb].
  destruct (np_random_permutation_spec (map c_id glomeruli) w)
    as (p & w' & Hp & Hperm & _).
  rewrite (bind_ok _ _ _ _ _ (bind_ok _ _ _ _ _ Hp)). unfold ret.
  eexists. eexists. split; [reflexivity |]. split.
  - rewrite length_map, length_firstn. apply Permutation_length in Hperm.
    rewrite length_map in Hperm. lia.
  - intros e He. apply in_map_iff in He. destruct He as [g [<- _]]. reflexivity.
Qed.

(** With fewer glomeruli than [conv_dcn] the first DCN cell raises. *)
Lemma connectome_glom_dcn_short (first : Z) (glomeruli : matrix) (i : cell)
    (dcn_glut : matrix) (conv_dcn : Z) (w : world) :
  (Z.of_nat (length glomeruli) < conv_dcn)%Z ->
  connectome_glom_dcn first glomeruli (i :: dcn_glut) conv_dcn w = (Raise ValueError, w).
Proof.
  intros Hc. unfold connectome_glom_dcn. cbn [for_rows].
  unfold connect_dcn, np_random_choice. rewrite length_map.
  destruct (Z.ltb_spec (Z.of_nat (length glomeruli)) conv_dcn); [| lia].
  rewrite orb_true_r. reflexivity.
Qed.

End GlomDCNFacts.

Section GapJunctionFacts.

Import GapJunctions.

Lemma constraint_self (d_xy d_z : Q) (c : cell) :
  constraint d_xy d_z (c_x c) (c_y c) (c_z c) c = false.
Proof.
  unfold constraint.
  assert (H : Qeq_bool (Qabs (c_z c - c_z c)) 0 = true).
  { apply Qeq_bool_iff. assert (E : c_z c - c_z c == 0) by ring. now rewrite E. }
  rewrite H. cbn [negb]. now rewrite andb_false_r.
Qed.

Lemma walk_edges (d_xy d_z : Q) (dc_gj : Z) (c : cell) (candidates : list cell) :
  forall idx w es w',
    walk d_xy d_z dc_gj c idx candidates w = (Ok es, w') ->
    forall e, In e es -> fst e = c_id c /\ exists j, In j candidates /\ snd e = c_id j.
Proof.
  induction candidates as [| j rest IH]; intros idx w es w' Hrun e He; cbn [walk] in Hrun.
  - injection Hrun as <- <-. destruct He.
  - assert (Hrest : forall idx' w1, walk d_xy d_z dc_gj c idx' rest w1 = (Ok es, w') ->
                      fst e = c_id c /\ exists j', In j' (j :: rest) /\ snd e = c_id j').
    { intros idx' w1 H. destruct (IH _ _ _ _ H e He) as [Hf [j' [Hj' Hs]]].
      split; [exact Hf |]. exists j'. split; [now right | exact Hs]. }
    destruct (idx <=? dc_gj)%Z; [| eauto].
    apply bind_ok_inv in Hrun. destruct Hrun as (ra & w1 & _ & Hrun).
    destruct (accepted d_xy d_z (c_x c) (c_y c) (c_z c) j ra); [| eauto].
    apply bind_ok_inv in Hrun. destruct Hrun as (es' & w2 & Hrun & Hret).
    injection Hret as <- <-. destruct He as [<- | He].
    + split; [reflexivity |]. exists j. split; [now left | reflexivity].
    + destruct (IH _ _ _ _ Hrun e He) as [Hf [j' [Hj' Hs]]].
      split; [exact Hf |]. exists j'. split; [now right | exact Hs].
Qed.

Lemma for_rows_In {A B : Type} (body : A -> M (list B)) (l : list A) :
  forall w es w',
    for_rows body l w = (Ok es, w') ->
    forall e, In e es ->
              exists a w1 r w2, In a l /\ body a w1 = (Ok r, w2) /\ In e r.
Proof.
  induction l as [| a l IH]; intros w es w' Hrun e He; cbn [for_rows] in Hrun.
  - injection Hrun as <- <-. destruct He.
  - apply bind_ok_inv in Hrun. destruct Hrun as (r & w1 & Hbody & Hrun).
    apply bind_ok_inv in Hrun. destruct Hrun as (rs & w2 & Hrest & Hret).
    injection Hret as <- <-. apply in_app_or in He. destruct He as [He | He].
    + exists a, w, r, w1. split; [now left | auto].
    + destruct (IH _ _ _ Hrest e He) as (a' & wa & ra & wb & Ha' & Hb & Hin).
      exists a', wa, ra, wb. split; [now right | auto].
Qed.

(** In a population without repeated ids, [gap_junctions] joins no cell
    to itself, whatever the random draws: a cell fails its own
    constraint ([abs(z - z) != 0]). *)
Lemma gap_junctions_no_self_edge (cells : matrix) (d_xy d_z : Q) (dc_gj : Z)
    (w w' : world) (es : list edge) :
  unique_ids cells ->
  gap_junctions cells d_xy d_z dc_gj w = (Ok es, w') ->
  forall e, In e es -> ~ fst e == snd e.
Proof.
  intros Hids Hrun e He Heq. unfold gap_junctions in Hrun.
  destruct (_ <? 0)%Z; [discriminate Hrun |].
  destruct (for_rows_In _ _ _ _ _ Hrun e He) as (c & w1 & r & w2 & Hc & Hbody & Hin).
  unfold connect_cell in Hbody. apply bind_ok_inv in Hbody.
  destruct Hbody as (p & w3 & Hp & Hwalk).
  destruct (np_random_permutation_spec
              (np_where (map (constraint d_xy d_z (c_x c) (c_y c) (c_z c)) cells)) w1)
    as (p' & w3' & Hp' & Hperm & _).
  rewrite Hp in Hp'. injection Hp' as <- <-.
  destruct (walk_edges _ _ _ _ _ _ _ _ _ Hwalk e Hin) as [Hf [j [Hj Hs]]].
  unfold take in Hj. apply in_map_iff in Hj. destruct Hj as [k [<- Hk]].
  apply (Permutation_in _ Hperm) in Hk. apply np_where_In in Hk.
  assert (Hklt : (k < length cells)%nat).
  { rewrite <- (length_map (constraint d_xy d_z (c_x c) (c_y c) (c_z c))).
    apply nth_error_Some. congruence. }
  apply In_nth_error in Hc. destruct Hc as [i Hi].
  pose proof (nth_error_nth' cells zero_cell Hklt) as Hkc.
  assert (Hik : i = k).
  { apply (Hids i k c (nth k cells zero_cell) Hi Hkc). now rewrite <- Hf, <- Hs. }
  subst k. rewrite Hi in Hkc. injection Hkc as Hkc.
  rewrite nth_error_map, Hi in Hk. cbn in Hk. injection Hk as Hk.
  rewrite constraint_self in Hk. discriminate Hk.
Qed.

End GapJunctionFacts.

Section MirroredQuery.

Import TouchDetector.

Lemma dist2_sym (p q : point) : dist2 p q == dist2 q p.
Proof.
  revert q. induction p as [| a p IH]; intros [| b q]; cbn [dist2]; try reflexivity.
  rewrite IH. unfold sq. ring.
Qed.

Lemma Qle_bool_compat_l (a b c : Q) : a == b -> Qle_bool a c = Qle_bool b c.
Proof.
  intros H. destruct (Qle_bool b c) eqn:E.
  - apply Qle_bool_iff. apply Qle_bool_iff in E. now rewrite H.
  - destruct (Qle_bool a c) eqn:E'; [| reflexivity].
    apply Qle_bool_iff in E'. rewrite H in E'. apply Qle_bool_iff in E'. congruence.
Qed.

Lemma within_sym (r : Q) (p q : point) : within r p q = within r q p.
Proof. unfold within. f_equal. apply Qle_bool_compat_l, dist2_sym. Qed.

Lemma existsb_np_where (v : list bool) (j : nat) :
  existsb (Nat.eqb j) (np_where v) = nth j v false.
Proof.
  destruct (nth j v false) eqn:E.
  - apply existsb_exists. exists j. split; [| apply Nat.eqb_refl].
    apply np_where_In. rewrite <- E. apply nth_error_nth'.
    destruct (Nat.lt_ge_cases j (length v)); [assumption |].
    rewrite nth_overflow in E by assumption. discriminate E.
  - destruct (existsb (Nat.eqb j) (np_where v)) eqn:Ex; [| reflexivity].
    apply existsb_exists in Ex. destruct Ex as [k [Hk Hjk]].
    apply Nat.eqb_eq in Hjk. subst k. apply np_where_In in Hk.
    apply nth_error_nth with (d := false) in Hk. congruence.
Qed.

Lemma map_by_index {A B : Type} (d : A) (g : A -> B) (l : list A) :
  map g l = map (fun j => g (nth j l d)) (seq 0 (length l)).
Proof.
  rewrite <- (map_map (fun j => nth j l d) g). f_equal. symmetry. apply take_seq.
Qed.

(** What the mirroring branch is meant to compute: mirroring the answers
    of the from-tree to the to-points gives the answers of the to-tree
    to the from-points, for the same radius. *)
Lemma mirror_of_reversed_query (from_points to_points : list point) (radius : Q) :
  mirror (query_radius from_points to_points radius) (length from_points)
  = query_radius to_points from_points radius.
Proof.
  unfold mirror, query_radius.
  etransitivity; [| symmetry; apply (map_by_index ([] : point))].
  apply map_ext_in. intros j Hj. apply in_seq in Hj.
  f_equal. rewrite map_map. apply map_ext. intros t.
  rewrite existsb_np_where.
  rewrite nth_indep with (d' := within radius ([] : point) t)
    by (rewrite length_map; lia).
  rewrite (map_nth (fun f => within radius f t)). apply within_sym.
Qed.

End MirroredQuery.

Section NoSupplyError.

Lemma nse_ret {A : Type} (a : A) : no_supply_error (ret a).
Proof. intros w r w' H msg. injection H as <- <-. discriminate. Qed.

Lemma nse_raise {A : Type} (e : py_exn) :
  (forall msg, e <> Exception msg) -> no_supply_error (@raise A e).
Proof. intros He w r w' H msg. injection H as <- <-. intros E. injection E as E. now apply (He msg). Qed.

Lemma nse_bind {A B : Type} (c : M A) (k : A -> M B) :
  no_supply_error c -> (forall a, no_supply_error (k a)) -> no_supply_error (bind c k).
Proof.
  intros Hc Hk w r w' H msg. apply bind_inv in H.
  destruct H as [(a & w1 & H1 & H2) | (e & H1 & ->)].
  - eapply Hk; eauto.
  - intros E. injection E as ->. now apply (Hc _ _ _ H1 msg).
Qed.

Lemma nse_load (l : nat) : no_supply_error (load l).
Proof.
  intros w r w' H msg. unfold load in H.
  destruct (nth_error (mem w) l); injection H as <- <-; discriminate.
Qed.

Lemma nse_put (l : nat) (m : matrix) : no_supply_error (put l m).
Proof. intros w r w' H msg. injection H as <- <-. discriminate. Qed.

Lemma nse_set_rows (l : nat) (ks : list Z) (v : cell) : no_supply_error (set_rows l ks v).
Proof.
  unfold set_rows. apply nse_bind; [apply nse_load |]. intros m.
  destruct (py_indices (length m) ks); [apply nse_put | now apply nse_raise].
Qed.

Lemma nse_lift {A : Type} (r : result A) :
  (forall msg, r <> Raise (Exception msg)) -> no_supply_error (lift r).
Proof.
  intros Hr. destruct r as [a | e]; [apply nse_ret |].
  apply nse_raise. intros msg ->. now apply (Hr msg).
Qed.

Lemma nse_total {A : Type} (c : M A) :
  (forall w, exists a w', c w = (Ok a, w')) -> no_supply_error c.
Proof.
  intros Hc w r w' H msg. destruct (Hc w) as (a & w1 & E). congruence.
Qed.

Lemma nse_np_random_permutation {A : Type} (l : list A) :
  no_supply_error (np_random_permutation l).
Proof.
  apply nse_total. intros w.
  destruct (np_random_permutation_spec l w) as (p & w' & Hp & _). eauto.
Qed.

Lemma nse_np_random_choice {A : Type} (l : list A) (size : Z) :
  no_supply_error (np_random_choice l size).
Proof.
  unfold np_random_choice. destruct (_ || _); [now apply nse_raise |].
  apply nse_bind; [apply nse_np_random_permutation | intros; apply nse_ret].
Qed.

Lemma nse_np_random_uniform (n : nat) : no_supply_error (np_random_uniform n).
Proof.
  induction n as [| n IH]; cbn [np_random_uniform]; [apply nse_ret |].
  apply nse_bind.
  - intros w r w' H msg. unfold np_random in H.
    destruct (unifs w); injection H as <- <-; discriminate.
  - intros u. apply nse_bind; [exact IH | intros; apply nse_ret].
Qed.

Lemma nse_golgi_loop (first_granule : Z) (granules : nat) (r_goc_vol OoB_value : Q)
    (n_connAA tot_conn : Z) (new_granules : nat) (todo : list cell) :
  no_supply_error (GranuleGolgi.golgi_loop first_granule granules r_goc_vol OoB_value
                     n_connAA tot_conn new_granules todo).
Proof.
  induction todo as [| golgi rest IH]; cbn [GranuleGolgi.golgi_loop]; [apply nse_ret |].
  apply nse_bind; [| intros r; apply nse_bind; [exact IH | intros; apply nse_ret]].
  unfold GranuleGolgi.connect_golgi.
  apply nse_bind; [apply nse_load |]. intros working.
  apply nse_bind; [apply nse_np_random_permutation |]. intros chosen_rand.
  apply nse_bind; [apply nse_np_random_uniform |]. intros rolls.
  destruct (n_connAA <? 0)%Z; [now apply nse_raise |].
  apply nse_bind; [apply nse_load |]. intros original.
  apply nse_bind.
  { apply nse_lift. intros msg. unfold np_delete.
    destruct (py_indices _ _); discriminate. }
  intros good_grc. apply nse_bind.
  { destruct (_ <? _)%Z; apply nse_np_random_choice. }
  intros connected_pf.
  apply nse_bind; [apply nse_set_rows | intros; apply nse_ret].
Qed.

(** When the granule cells are more numerous than the Golgi cells, the
    supply check passes and nothing after it raises the supply error. *)
Lemma no_supply_error_when_gt (first_granule : Z) (granules golgicells : nat)
    (r_goc_vol OoB_value : Q) (n_connAA n_conn_pf tot_conn : Z) (w : world)
    (gr go : matrix) (msg : string) :
  nth_error (mem w) granules = Some gr ->
  nth_error (mem w) golgicells = Some go ->
  (length go < length gr)%nat ->
  fst (GranuleGolgi.connectome_grc_goc first_granule granules golgicells r_goc_vol
         OoB_value n_connAA n_conn_pf tot_conn w)
  <> Raise (Exception msg).
Proof.
  intros Hgr Hgo Hlt. unfold GranuleGolgi.connectome_grc_goc.
  assert (Hcopy : np_copy granules w
                  = (Ok (length (mem w)),
                     mkWorld (mem w ++ [gr]) (ints w) (unifs w))).
  { unfold np_copy. now rewrite (bind_ok _ _ _ _ _ (load_ok _ _ _ Hgr)). }
  rewrite (bind_ok _ _ _ _ _ Hcopy).
  set (w1 := mkWorld (mem w ++ [gr]) (ints w) (unifs w)).
  assert (Hl1 : load (length (mem w)) w1 = (Ok gr, w1)).
  { apply load_ok. unfold w1. cbn [mem]. now rewrite nth_error_app2, Nat.sub_diag by lia. }
  rewrite (bind_ok _ _ _ _ _ Hl1).
  assert (Hl2 : load golgicells w1 = (Ok go, w1)).
  { apply load_ok. unfold w1. cbn [mem].
    rewrite nth_error_app1 by (apply nth_error_Some; congruence). exact Hgo. }
  rewrite (bind_ok _ _ _ _ _ Hl2).
  destruct (np_random_permutation_spec go w1) as (p & w2 & Hp & Hperm & _).
  rewrite (bind_ok _ _ _ _ _ Hp). apply Permutation_length in Hperm.
  destruct (Nat.leb_spec (length gr) (length p)); [lia |].
  match goal with
  | |- fst (?c w2) <> _ => destruct (c w2) as [r w'] eqn:E
  end.
  cbn [fst]. revert E. revert msg.
  match goal with
  | |- forall msg, ?c w2 = _ -> _ =>
      assert (Hn : no_supply_error c)
  end.
  { apply nse_bind; [apply nse_golgi_loop | intros; apply nse_ret]. }
  intros msg E. eapply Hn; eauto.
Qed.

End NoSupplyError.

(** * Further properties of the code *)

(** ** Sorting *)

Section SortFacts.

Lemma insert_by_sorted (key : nat -> Q) (i : nat) (l : list nat) :
  StronglySorted (fun a b => key a <= key b) l ->
  StronglySorted (fun a b => key a <= key b) (insert_by key i l).
Proof.
  induction l as [| j r IH]; intros Hs; cbn [insert_by].
  - constructor; constructor.
  - inversion Hs as [| ? ? Hr Hall]; subst.
    destruct (Qle_bool (key i) (key j)) eqn:E.
    + apply Qle_bool_iff in E. constructor; [exact Hs |].
      constructor; [exact E |].
      eapply Forall_impl; [| exact Hall]. intros x Hx. cbn beta in *.
      eapply Qle_trans; eauto.
    + assert (Hji : key j <= key i).
      { apply Qlt_le_weak. apply Qnot_le_lt. intros Hle.
        apply Qle_bool_iff in Hle. congruence. }
      constructor; [now apply IH |].
      eapply Permutation_Forall; [symmetry; apply insert_by_perm |].
      constructor; assumption.
Qed.

Lemma argsort_sorted (keys : list Q) :
  StronglySorted (fun a b => nth a keys 0 <= nth b keys 0) (argsort keys).
Proof.
  unfold argsort. generalize (seq 0 (length keys)) as l.
  induction l as [| i l IH]; cbn [fold_right]; [constructor |].
  now apply insert_by_sorted.
Qed.


Lemma StronglySorted_map_in {A B : Type} (R' : A -> A -> Prop) (R : B -> B -> Prop)
    (f : A -> B) (l : list A) :
  (forall p q, In p l -> In q l -> R' p q -> R (f p) (f q)) ->
  StronglySorted R' l -> StronglySorted R (map f l).
Proof.
  intros Hf Hs. induction Hs as [| a l Hs IH Hall]; cbn [map]; constructor.
  - apply IH. intros p q Hp Hq. apply Hf; now right.
  - apply Forall_forall. intros y Hy. apply in_map_iff in Hy.
    destruct Hy as [q [<- Hq]]. apply Hf; [now left | now right |].
    rewrite Forall_forall in Hall. now apply Hall.
Qed.



End SortFacts.

(** ** ConnectomeGranuleGolgi: the order of the matrices *)

(** X3.  The matrices returned by [connectome_grc_goc] are sorted by
    [sort_by_target]: it keeps every row, as often as it occurs, and
    leaves the rows in ascending order of the Golgi cell they point to. *)
Theorem sort_by_target_sorts (m : list edge) :
  Permutation (GranuleGolgi.sort_by_target m) m
  /\ Specs.ascending snd (GranuleGolgi.sort_by_target m).
Proof.
  unfold GranuleGolgi.sort_by_target. split.
  - apply take_perm. pose proof (argsort_perm (map snd m)) as H.
    rewrite length_map in H. exact H.
  - unfold Specs.ascending, take.
    apply StronglySorted_map_in
      with (R' := fun a b => nth a (map snd m) 0 <= nth b (map snd m) 0);
      [| apply argsort_sorted].
    intros p q _ _ H.
    now rewrite <- !(map_nth snd m (0, 0)).
Qed.

(** ** ConnectomeGlomerulusGranule: which glomeruli are taken *)

Section GlomerulusGranuleSelection.

Import GlomerulusGranule.





End GlomerulusGranuleSelection.

(** ** ConnectomeAscAxonPurkinje: first come, first served *)

Section AscendingAxons.

Import AscAxonPurkinje.

Lemma py_indices_nat (n : nat) (ks : list nat) :
  (forall k, In k ks -> (k < n)%nat) ->
  py_indices n (map Z.of_nat ks) = Some ks.
Proof.
  induction ks as [| k ks IH]; intros H; cbn [map py_indices]; [reflexivity |].
  rewrite py_index_nat by (apply H; now left).
  rewrite IH by (intros k' Hk'; apply H; now right). reflexivity.
Qed.

Lemma fold_replace_length {A : Type} (v : A) (rows : list nat) (m : list A) :
  length (fold_left (fun m' i => replace_nth i v m') rows m) = length m.
Proof.
  revert m. induction rows as [| r rows IH]; intros m; cbn [fold_left]; [reflexivity |].
  now rewrite IH, replace_nth_length.
Qed.

Lemma fold_replace_nth {A : Type} (v d : A) (rows : list nat) (m : list A) (k : nat) :
  (k < length m)%nat ->
  nth k (fold_left (fun m' i => replace_nth i v m') rows m) d
  = if existsb (Nat.eqb k) rows then v else nth k m d.
Proof.
  revert m. induction rows as [| r rows IH]; intros m Hk; cbn [fold_left existsb];
    [reflexivity |].
  rewrite IH by now rewrite replace_nth_length.
  destruct (Nat.eqb_spec k r) as [-> | Hne]; cbn [orb].
  - rewrite replace_nth_same by exact Hk. now destruct (existsb (Nat.eqb r) rows).
  - rewrite replace_nth_other by congruence. reflexivity.
Qed.

Lemma set_rows_ok (l : nat) (ks : list Z) (v : cell) (w : world) (W : matrix)
    (rows : list nat) :
  nth_error (mem w) l = Some W ->
  py_indices (length W) ks = Some rows ->
  set_rows l ks v w
  = (Ok tt, mkWorld (replace_nth l (fold_left (fun m' i => replace_nth i v m') rows W)
                                 (mem w))
                    (ints w) (unifs w)).
Proof.
  intros HW Hi. unfold set_rows. rewrite (bind_ok _ _ _ _ _ (load_ok _ _ _ HW)).
  now rewrite Hi.
Qed.

Variables (first_granule : Z) (x_pc z_pc oob : Q) (G : matrix).

(** The working copy after one more Purkinje cell. *)
Lemma masked_step (seen : list cell) (i : cell) :
  in_tree x_pc z_pc i (all_columns oob) = false ->
  let W := Specs.masked x_pc z_pc oob seen G in
  let good_aa := np_where (map (in_tree x_pc z_pc i) W) in
  good_aa
  = np_where (map (fun g => in_tree x_pc z_pc i g
                            && negb (existsb (fun q => in_tree x_pc z_pc q g) seen)) G)
  /\ fold_left (fun m' k => replace_nth k (all_columns oob) m') good_aa W
     = Specs.masked x_pc z_pc oob (seen ++ [i]) G.
Proof.
  intros Hout W good_aa.
  assert (Hgate : map (in_tree x_pc z_pc i) W
                  = map (fun g => in_tree x_pc z_pc i g
                                  && negb (existsb (fun q => in_tree x_pc z_pc q g) seen))
                        G).
  { unfold W, Specs.masked. rewrite map_map. apply map_ext. intros g.
    destruct (existsb _ seen); cbn [negb];
      [now rewrite Hout, andb_false_r | now rewrite andb_true_r]. }
  split; [unfold good_aa; now rewrite Hgate |].
  apply nth_ext with (d := zero_cell) (d' := zero_cell).
  - rewrite fold_replace_length. unfold W, Specs.masked. now rewrite !length_map.
  - intros k Hk. rewrite fold_replace_length in Hk.
    rewrite fold_replace_nth by exact Hk.
    unfold good_aa. rewrite existsb_np_where, Hgate.
    unfold W, Specs.masked in Hk. rewrite length_map in Hk.
    set (f := fun g => in_tree x_pc z_pc i g
                       && negb (existsb (fun q => in_tree x_pc z_pc q g) seen)).
    rewrite (nth_indep (map f G) false (f zero_cell)) by now rewrite length_map.
    rewrite (map_nth f). unfold W, Specs.masked.
    set (h := fun seen' g =>
                if existsb (fun q => in_tree x_pc z_pc q g) seen'
                then all_columns oob else g).
    change (map (fun g => if existsb (fun q => in_tree x_pc z_pc q g) seen
                          then all_columns oob else g) G) with (map (h seen) G).
    change (map (fun g => if existsb (fun q => in_tree x_pc z_pc q g) (seen ++ [i])
                          then all_columns oob else g) G) with (map (h (seen ++ [i])) G).
    rewrite (nth_indep (map (h seen) G) zero_cell (h seen zero_cell))
      by now rewrite length_map.
    rewrite (nth_indep (map (h (seen ++ [i])) G) zero_cell (h (seen ++ [i]) zero_cell))
      by now rewrite length_map.
    rewrite !(map_nth (h _)). unfold f, h. rewrite existsb_app. cbn [existsb].
    rewrite orb_false_r.
    destruct (existsb (fun q => in_tree x_pc z_pc q (nth k G zero_cell)) seen);
      cbn [negb orb]; [now rewrite andb_false_r |].
    rewrite andb_true_r. now destruct (in_tree x_pc z_pc i (nth k G zero_cell)).
Qed.

(** The loop over the Purkinje cells run on the store. *)
Lemma aa_pc_loop (l : nat) (todo : list cell) :
  (forall p, In p todo -> in_tree x_pc z_pc p (all_columns oob) = false) ->
  forall (seen : list cell) (w : world),
    nth_error (mem w) l = Some (Specs.masked x_pc z_pc oob seen G) ->
    exists w',
      for_rows (connect_purkinje first_granule x_pc z_pc oob l) todo w
      = (Ok (Specs.first_come first_granule x_pc z_pc G seen todo), w').
Proof.
  induction todo as [| i rest IH]; intros Hout seen w HW;
    cbn [for_rows Specs.first_come].
  - exists w. reflexivity.
  - destruct (masked_step seen i (Hout i (or_introl eq_refl))) as [Hgood Hfold].
    set (good_aa := np_where (map (in_tree x_pc z_pc i)
                                  (Specs.masked x_pc z_pc oob seen G))) in *.
    set (w1 := mkWorld (replace_nth l (Specs.masked x_pc z_pc oob (seen ++ [i]) G)
                                    (mem w))
                       (ints w) (unifs w)).
    assert (Hbody : connect_purkinje first_granule x_pc z_pc oob l i w
                    = (Ok (map (fun k => (inject_Z (Z.of_nat k + first_granule), c_id i))
                               good_aa), w1)).
    { unfold connect_purkinje. rewrite (bind_ok _ _ _ _ _ (load_ok _ _ _ HW)).
      fold good_aa.
      assert (Hidx : py_indices (length (Specs.masked x_pc z_pc oob seen G))
                                (map Z.of_nat good_aa) = Some good_aa).
      { apply py_indices_nat. intros k Hk. apply np_where_lt in Hk.
        now rewrite length_map in Hk. }
      rewrite (bind_ok _ _ _ _ _ (set_rows_ok _ _ _ _ _ _ HW Hidx)).
      unfold ret, w1. now rewrite Hfold. }
    rewrite (bind_ok _ _ _ _ _ Hbody).
    destruct (IH (fun p Hp => Hout p (or_intror Hp)) (seen ++ [i]) w1) as [w' Hrun].
    { unfold w1. cbn [mem]. apply replace_nth_error_same.
      apply nth_error_Some. congruence. }
    rewrite (bind_ok _ _ _ _ _ Hrun). unfold ret. exists w'. now rewrite Hgood.
Qed.

End AscendingAxons.

Lemma aa_pc_run (first_granule : Z) (granules purkinjes : nat) (x_pc z_pc oob : Q)
    (w : world) (G pcs : matrix) :
  nth_error (mem w) granules = Some G ->
  nth_error (mem w) purkinjes = Some pcs ->
  (forall p, In p pcs -> AscAxonPurkinje.in_tree x_pc z_pc p (all_columns oob) = false) ->
  exists w',
    AscAxonPurkinje.connectome_aa_pc first_granule granules purkinjes x_pc z_pc oob w
    = (Ok (Specs.first_come first_granule x_pc z_pc G [] pcs), w').
Proof.
  intros HG Hpc Hout. unfold AscAxonPurkinje.connectome_aa_pc.
  assert (Hcopy : np_copy granules w
                  = (Ok (length (mem w)),
                     mkWorld (mem w ++ [G]) (ints w) (unifs w))).
  { unfold np_copy. now rewrite (bind_ok _ _ _ _ _ (load_ok _ _ _ HG)). }
  rewrite (bind_ok _ _ _ _ _ Hcopy).
  set (w1 := mkWorld (mem w ++ [G]) (ints w) (unifs w)).
  assert (Hload : load purkinjes w1 = (Ok pcs, w1)).
  { apply load_ok. unfold w1. cbn [mem].
    rewrite nth_error_app1 by (apply nth_error_Some; congruence). exact Hpc. }
  rewrite (bind_ok _ _ _ _ _ Hload).
  apply aa_pc_loop; [exact Hout |].
  unfold w1. cbn [mem]. rewrite nth_error_app2, Nat.sub_diag by lia.
  cbn [nth_error]. f_equal. unfold Specs.masked. cbn [existsb].
  symmetry. apply map_id.
Qed.

Lemma first_come_rows (first_granule : Z) (x_pc z_pc : Q) (G : matrix)
    (todo : list cell) :
  forall seen,
    exists rs,
      map fst (Specs.first_come first_granule x_pc z_pc G seen todo)
      = map (fun k => inject_Z (Z.of_nat k + first_granule)) rs
      /\ NoDup rs
      /\ forall k, In k rs ->
           existsb (fun q => AscAxonPurkinje.in_tree x_pc z_pc q (nth k G zero_cell))
                   seen = false.
Proof.
  induction todo as [| i rest IH]; intros seen; cbn [Specs.first_come].
  - exists []. repeat split; [constructor | intros k []].
  - destruct (IH (seen ++ [i])) as (rs & Hmap & Hnd & Hseen).
    set (f := fun g => AscAxonPurkinje.in_tree x_pc z_pc i g
                       && negb (existsb (fun q =>
                                  AscAxonPurkinje.in_tree x_pc z_pc q g) seen)).
    assert (Hblock : forall k, In k (np_where (map f G)) ->
              f (nth k G zero_cell) = true).
    { intros k Hk. apply np_where_In in Hk. rewrite nth_error_map in Hk.
      destruct (nth_error G k) as [g |] eqn:E; [| discriminate].
      cbn [option_map] in Hk. injection Hk as Hk.
      now rewrite (nth_error_nth _ _ zero_cell E). }
    exists (np_where (map f G) ++ rs).
    split; [now rewrite !map_app, map_map, Hmap |].
    split.
    + apply NoDup_app; [apply np_where_NoDup | exact Hnd |].
      intros k Hk1 Hk2. apply Hblock in Hk1. apply Hseen in Hk2.
      unfold f in Hk1. apply andb_true_iff in Hk1. destruct Hk1 as [Hk1 _].
      rewrite existsb_app in Hk2. cbn [existsb] in Hk2.
      rewrite Hk1 in Hk2. cbn [orb] in Hk2. rewrite orb_true_r in Hk2.
      discriminate Hk2.
    + intros k Hk. apply in_app_or in Hk. destruct Hk as [Hk | Hk].
      * apply Hblock in Hk. unfold f in Hk. apply andb_true_iff in Hk.
        destruct Hk as [_ Hk]. now apply negb_true_iff in Hk.
      * apply Hseen in Hk. rewrite existsb_app in Hk.
        now apply orb_false_iff in Hk.
Qed.

(** X4.  When the sentinel row lies outside the dendritic tree of every
    Purkinje cell, [connectome_aa_pc] returns, and its matrix is the one
    of the rule "first come, first served": a Purkinje cell is connected
    to the granule cells inside its tree that are inside the tree of no
    Purkinje cell before it.  A granule cell is inside a tree when it
    passes the tests of lines 381-383 as float64 evaluates them, the
    bounds [i[4] - z_pc/2.], [i[4] + z_pc/2.], [i[2] - x_pc/2.] and
    [i[2] + x_pc/2.] rounded. *)
Theorem aa_pc_is_first_come (first_granule : Z) (granules purkinjes : nat)
    (x_pc z_pc oob : Q) (w : world) (G pcs : matrix) :
  nth_error (mem w) granules = Some G ->
  nth_error (mem w) purkinjes = Some pcs ->
  (forall p, In p pcs -> AscAxonPurkinje.in_tree x_pc z_pc p (all_columns oob) = false) ->
  exists w',
    AscAxonPurkinje.connectome_aa_pc first_granule granules purkinjes x_pc z_pc oob w
    = (Ok (Specs.first_come first_granule x_pc z_pc G [] pcs), w').
Proof.
  intros HG Hpc Hout. unfold AscAxonPurkinje.connectome_aa_pc.
  assert (Hcopy : np_copy granules w
                  = (Ok (length (mem w)),
                     mkWorld (mem w ++ [G]) (ints w) (unifs w))).
  { unfold np_copy. now rewrite (bind_ok _ _ _ _ _ (load_ok _ _ _ HG)). }
  rewrite (bind_ok _ _ _ _ _ Hcopy).
  set (w1 := mkWorld (mem w ++ [G]) (ints w) (unifs w)).
  assert (Hload : load purkinjes w1 = (Ok pcs, w1)).
  { apply load_ok. unfold w1. cbn [mem].
    rewrite nth_error_app1 by (apply nth_error_Some; congruence). exact Hpc. }
  rewrite (bind_ok _ _ _ _ _ Hload).
  apply aa_pc_loop; [exact Hout |].
  unfold w1. cbn [mem]. rewrite nth_error_app2, Nat.sub_diag by lia.
  cbn [nth_error]. f_equal. unfold Specs.masked. cbn [existsb].
  symmetry. apply map_id.
Qed.

(** X5.  Under the same condition no granule cell is connected twice by
    [connectome_aa_pc]: the first column of its matrix has no repeated
    id. *)
Theorem aa_pc_connects_each_axon_once (first_granule : Z) (granules purkinjes : nat)
    (x_pc z_pc oob : Q) (w : world) (G pcs : matrix) :
  nth_error (mem w) granules = Some G ->
  nth_error (mem w) purkinjes = Some pcs ->
  (forall p, In p pcs -> AscAxonPurkinje.in_tree x_pc z_pc p (all_columns oob) = false) ->
  exists es w',
    AscAxonPurkinje.connectome_aa_pc first_granule granules purkinjes x_pc z_pc oob w
    = (Ok es, w')
    /\ Specs.unique_sources es.
Proof.
  intros HG Hpc Hout.
  destruct (aa_pc_run first_granule granules purkinjes x_pc z_pc oob w G pcs HG Hpc Hout)
    as [w' Hrun].
  eexists. exists w'. split; [exact Hrun |].
  destruct (first_come_rows first_granule x_pc z_pc G pcs []) as (rs & Hmap & Hnd & _).
  intros i j ei ej Hi Hj Heq.
  assert (Hfi : nth_error (map fst (Specs.first_come first_granule x_pc z_pc G [] pcs)) i
                = Some (fst ei)) by (apply map_nth_error; exact Hi).
  assert (Hfj : nth_error (map fst (Specs.first_come first_granule x_pc z_pc G [] pcs)) j
                = Some (fst ej)) by (apply map_nth_error; exact Hj).
  rewrite Hmap, nth_error_map in Hfi, Hfj.
  destruct (nth_error rs i) as [ri |] eqn:Eri; [| discriminate].
  destruct (nth_error rs j) as [rj |] eqn:Erj; [| discriminate].
  cbn [option_map] in Hfi, Hfj. injection Hfi as Hfi. injection Hfj as Hfj.
  rewrite <- Hfi, <- Hfj in Heq. apply -> inject_Z_injective in Heq.
  assert (ri = rj) by lia. subst rj.
  apply (proj1 (NoDup_nth_error rs) Hnd).
  - apply nth_error_Some. congruence.
  - congruence.
Qed.

(** X6.  Under the same condition every connection of
    [connectome_aa_pc] is also a connection of [connectome_pf_pc] for the
    same populations: a granule cell whose ascending axon reaches a
    Purkinje cell also reaches it with its parallel fiber. *)
Theorem aa_pc_within_pf_pc (first_granule : Z) (granules purkinjes : nat)
    (x_pc z_pc oob : Q) (w : world) (G pcs : matrix) :
  nth_error (mem w) granules = Some G ->
  nth_error (mem w) purkinjes = Some pcs ->
  (forall p, In p pcs -> AscAxonPurkinje.in_tree x_pc z_pc p (all_columns oob) = false) ->
  exists es w',
    AscAxonPurkinje.connectome_aa_pc first_granule granules purkinjes x_pc z_pc oob w
    = (Ok es, w')
    /\ incl es (PFPurkinje.connectome_pf_pc first_granule G pcs x_pc).
Proof.
  intros HG Hpc Hout.
  destruct (aa_pc_run first_granule granules purkinjes x_pc z_pc oob w G pcs HG Hpc Hout)
    as [w' Hrun].
  eexists. exists w'. split; [exact Hrun |].
  unfold PFPurkinje.connectome_pf_pc.
  assert (Hgen : forall todo seen,
            incl (Specs.first_come first_granule x_pc z_pc G seen todo)
                 (flat_map (PFPurkinje.connect_purkinje first_granule G x_pc) todo)).
  { induction todo as [| i rest IH]; intros seen; cbn [Specs.first_come flat_map];
      [intros e [] |].
    apply incl_app; [apply incl_appl | apply incl_appr, IH].
    intros e He. apply in_map_iff in He. destruct He as [k [<- Hk]].
    unfold PFPurkinje.connect_purkinje. apply in_map_iff. exists k.
    split; [reflexivity |]. revert Hk.
    rewrite !np_where_In, !nth_error_map.
    destruct (nth_error G k) as [g |]; [| discriminate]. cbn [option_map].
    intros H. injection H as H. apply andb_true_iff in H. destruct H as [H _].
    unfold AscAxonPurkinje.in_tree in H. apply andb_true_iff in H.
    destruct H as [_ H]. unfold PFPurkinje.in_strip. now rewrite H. }
  apply Hgen.
Qed.

Section AscendingAxonsExample.

Import Examples.

Lemma example_sentinel_outside :
  forall p, In p example_purkinjes ->
            AscAxonPurkinje.in_tree 4 4 p (all_columns 1000) = false.
Proof. intros p [<- | [<- | []]]; vm_compute; reflexivity. Qed.

Lemma aa_pc_is_first_come_witness :
  exists w',
    AscAxonPurkinje.connectome_aa_pc 0 0 1 4 4 1000
      (mkWorld [[mkCell 0 0 0 0 0; mkCell 1 0 1 0 0; mkCell 2 0 50 0 0];
                [mkCell 10 0 0 0 0; mkCell 11 0 1 0 0]] [] [])
    = (Ok (Specs.first_come 0 4 4
             [mkCell 0 0 0 0 0; mkCell 1 0 1 0 0; mkCell 2 0 50 0 0] []
             [mkCell 10 0 0 0 0; mkCell 11 0 1 0 0]), w').
Proof.
  apply (aa_pc_is_first_come 0 0 1 4 4 1000 example_world
           example_granules example_purkinjes).
  - reflexivity.
  - reflexivity.
  - exact example_sentinel_outside.
Defined.

Lemma aa_pc_connects_each_axon_once_witness :
  exists es w',
    AscAxonPurkinje.connectome_aa_pc 0 0 1 4 4 1000
      (mkWorld [[mkCell 0 0 0 0 0; mkCell 1 0 1 0 0; mkCell 2 0 50 0 0];
                [mkCell 10 0 0 0 0; mkCell 11 0 1 0 0]] [] [])
    = (Ok es, w')
    /\ Specs.unique_sources es.
Proof.
  apply (aa_pc_connects_each_axon_once 0 0 1 4 4 1000 example_world
           example_granules example_purkinjes).
  - reflexivity.
  - reflexivity.
  - exact example_sentinel_outside.
Defined.

Lemma aa_pc_within_pf_pc_witness :
  exists es w',
    AscAxonPurkinje.connectome_aa_pc 0 0 1 4 4 1000
      (mkWorld [[mkCell 0 0 0 0 0; mkCell 1 0 1 0 0; mkCell 2 0 50 0 0];
                [mkCell 10 0 0 0 0; mkCell 11 0 1 0 0]] [] [])
    = (Ok es, w')
    /\ incl es (PFPurkinje.connectome_pf_pc 0
                  [mkCell 0 0 0 0 0; mkCell 1 0 1 0 0; mkCell 2 0 50 0 0]
                  [mkCell 10 0 0 0 0; mkCell 11 0 1 0 0] 4).
Proof.
  apply (aa_pc_within_pf_pc 0 0 1 4 4 1000 example_world
           example_granules example_purkinjes).
  - reflexivity.
  - reflexivity.
  - exact example_sentinel_outside.
Defined.

End AscendingAxonsExample.

(** ** Degree caps *)

Section LoopFacts.

(** A loop whose body always returns hands back the blocks of its
    iterations, one after the other. *)
Lemma for_rows_blocks {A B : Type} (body : A -> M (list B))
    (P : A -> list B -> Prop) (l : list A) :
  (forall a w, In a l -> exists r w', body a w = (Ok r, w') /\ P a r) ->
  forall w, exists blocks w',
    for_rows body l w = (Ok (concat blocks), w') /\ Forall2 P l blocks.
Proof.
  induction l as [| a l IH]; intros Hbody w; cbn [for_rows].
  - exists [], w. split; [reflexivity | constructor].
  - destruct (Hbody a w (or_introl eq_refl)) as (r & w1 & Hr & HP).
    destruct (IH (fun a' w' Ha' => Hbody a' w' (or_intror Ha')) w1)
      as (blocks & w2 & Hrun & Hall).
    exists (r :: blocks), w2.
    rewrite (bind_ok _ _ _ _ _ Hr), (bind_ok _ _ _ _ _ Hrun).
    split; [reflexivity | now constructor].
Qed.

Lemma concat_length_le {A B : Type} (P : A -> list B -> Prop) (k : nat)
    (l : list A) (blocks : list (list B)) :
  (forall a b, P a b -> (length b <= k)%nat) ->
  Forall2 P l blocks -> (length (concat blocks) <= length l * k)%nat.
Proof.
  intros HP Hall. induction Hall as [| a b l blocks Hab Hall IH]; cbn; [lia |].
  rewrite length_app. specialize (HP a b Hab). lia.
Qed.

(** A loop that returns has returned from each of its iterations. *)
Lemma for_rows_length_le {A B : Type} (body : A -> M (list B)) (k : nat) (l : list A) :
  (forall a w r w', In a l -> body a w = (Ok r, w') -> (length r <= k)%nat) ->
  forall w es w',
    for_rows body l w = (Ok es, w') -> (length es <= length l * k)%nat.
Proof.
  induction l as [| a l IH]; intros Hbody w es w' Hrun; cbn [for_rows] in Hrun.
  - injection Hrun as <- <-. cbn. lia.
  - apply bind_ok_inv in Hrun. destruct Hrun as (r & w1 & Hr & Hrun).
    apply bind_ok_inv in Hrun. destruct Hrun as (rs & w2 & Hrs & Hret).
    injection Hret as <- <-. rewrite length_app. cbn [length].
    pose proof (Hbody a w r w1 (or_introl eq_refl) Hr).
    pose proof (IH (fun a' w0 r' w0' Ha' => Hbody a' w0 r' w0' (or_intror Ha'))
                   w1 rs w2 Hrs).
    lia.
Qed.

Lemma np_random_total (w : world) :
  exists u w', np_random w = (Ok u, w').
Proof. unfold np_random. destruct (unifs w); eauto. Qed.

End LoopFacts.

Section GapJunctionCaps.

Import GapJunctions.

Lemma gj_walk_capped (d_xy d_z : Q) (dc_gj : Z) (c : cell) (candidates : list cell) :
  forall idx w,
    exists es w',
      walk d_xy d_z dc_gj c idx candidates w = (Ok es, w')
      /\ (Z.of_nat (length es) <= Z.max 0 (dc_gj - idx + 1))%Z
      /\ forall e, In e es -> fst e = c_id c.
Proof.
  induction candidates as [| j rest IH]; intros idx w; cbn [walk].
  - exists [], w. split; [reflexivity |]. split; [cbn; lia | intros e []].
  - destruct (Z.leb_spec idx dc_gj) as [Hidx | Hidx].
    + destruct (np_random_total w) as (u & w1 & Hu). rewrite (bind_ok _ _ _ _ _ Hu).
      destruct (accepted d_xy d_z (c_x c) (c_y c) (c_z c) j u).
      * destruct (IH (idx + 1)%Z w1) as (es & w' & Hrun & Hlen & Hfst).
        rewrite (bind_ok _ _ _ _ _ Hrun). unfold ret.
        exists ((c_id c, c_id j) :: es), w'. split; [reflexivity |].
        split; [cbn [length]; lia |].
        intros e [<- | He]; [reflexivity | now apply Hfst].
      * destruct (IH idx w1) as (es & w' & Hrun & Hlen & Hfst).
        exists es, w'. repeat split; auto.
    + destruct (IH idx w) as (es & w' & Hrun & Hlen & Hfst).
      exists es, w'. repeat split; auto.
Qed.

(** X7.  With a divergence that is not negative, [gap_junctions] returns
    for every population and every outcome of the random draws; its
    matrix is made of one block per cell, in the order of the cells; the
    block of a cell holds at most [dc_gj] rows, all starting from that
    cell, so that the matrix never outgrows the [cells.shape[0] * dc_gj]
    rows allocated for it. *)
Theorem gap_junctions_within_divergence (cells : matrix) (d_xy d_z : Q) (dc_gj : Z)
    (w : world) :
  (0 <= dc_gj)%Z ->
  exists blocks w',
    gap_junctions cells d_xy d_z dc_gj w = (Ok (concat blocks), w')
    /\ Forall2 (fun c block => (length block <= Z.to_nat dc_gj)%nat
                               /\ forall e, In e block -> fst e = c_id c)
               cells blocks
    /\ (length (concat blocks) <= length cells * Z.to_nat dc_gj)%nat.
Proof.
  intros Hdc. unfold gap_junctions.
  destruct (Z.ltb_spec (Z.of_nat (length cells) * dc_gj) 0); [nia |].
  destruct (for_rows_blocks (connect_cell cells d_xy d_z dc_gj)
              (fun c block => (length block <= Z.to_nat dc_gj)%nat
                              /\ forall e, In e block -> fst e = c_id c)
              cells) with (w := w) as (blocks & w' & Hrun & Hall).
  - intros c w0 _. unfold connect_cell.
    destruct (np_random_permutation_spec
                (np_where (map (constraint d_xy d_z (c_x c) (c_y c) (c_z c)) cells)) w0)
      as (p & w1 & Hp & _).
    rewrite (bind_ok _ _ _ _ _ Hp).
    destruct (gj_walk_capped d_xy d_z dc_gj c (take zero_cell cells p) 1%Z w1)
      as (es & w2 & Hrun & Hlen & Hfst).
    exists es, w2. split; [exact Hrun |]. split; [lia | exact Hfst].
  - exists blocks, w'. split; [exact Hrun |]. split; [exact Hall |].
    eapply concat_length_le; [| exact Hall]. intros c b [Hb _]. exact Hb.
Qed.

Lemma gap_junctions_within_divergence_witness :
  exists blocks w',
    gap_junctions [mkCell 5 0 0 0 0; mkCell 6 0 1 0 1; mkCell 7 0 0 1 2] 10 10 4
                  (mkWorld [] [] [9 # 10; 1 # 10]) = (Ok (concat blocks), w')
    /\ Forall2 (fun c block => (length block <= Z.to_nat 4)%nat
                               /\ forall e, In e block -> fst e = c_id c)
               [mkCell 5 0 0 0 0; mkCell 6 0 1 0 1; mkCell 7 0 0 1 2] blocks
    /\ (length (concat blocks)
        <= length [mkCell 5 0 0 0 0; mkCell 6 0 1 0 1; mkCell 7 0 0 1 2]
           * Z.to_nat 4)%nat.
Proof.
  apply (gap_junctions_within_divergence
           [mkCell 5 0 0 0 0; mkCell 6 0 1 0 1; mkCell 7 0 0 1 2] 10 10 4
           (mkWorld [] [] [9 # 10; 1 # 10])).
  lia.
Defined.



End GapJunctionCaps.

(** ** Gap junctions between Golgi cells *)

Section GolgiGapJunctions.

Import GapJunctionsGolgi.

Variables r_goc_vol GoCaxon_x GoCaxon_y GoCaxon_z : Q.

Lemma clear_at_nth (v : list bool) :
  forall k n,
    nth_error (clear_at k v) n
    = if (n =? k)%nat then option_map (fun _ => false) (nth_error v n)
      else nth_error v n.
Proof.
  induction v as [| b v IH]; intros k n.
  - destruct (n =? k)%nat; destruct k, n; reflexivity.
  - destruct k as [| k]; destruct n as [| n]; cbn [clear_at nth_error Nat.eqb option_map];
      try reflexivity.
    apply IH.
Qed.

Lemma nth_error_combine {A B : Type} (l : list A) (l' : list B) :
  forall n,
    nth_error (combine l l') n
    = match nth_error l n, nth_error l' n with
      | Some a, Some b => Some (a, b)
      | _, _ => None
      end.
Proof.
  revert l'. induction l as [| a l IH]; intros l' n.
  - cbn. now destruct n.
  - destruct l' as [| b l']; cbn [combine].
    + destruct n; cbn; [reflexivity | now destruct (nth_error l n)].
    + destruct n; cbn [nth_error]; [reflexivity | apply IH].
Qed.

(** The neighbourhood taken for the cell [i] met at row [self_index]. *)
Lemma good_goc_In (golgicells : matrix) (self_index : nat) (i : cell) (k : nat) :
  In k (good_goc r_goc_vol GoCaxon_x GoCaxon_y GoCaxon_z golgicells self_index i)
  <-> k <> self_index
      /\ exists j, nth_error golgicells k = Some j
                   /\ Qabs (fsub (c_x j) (c_x i)) <= fadd r_goc_vol (fdiv GoCaxon_x 2)
                   /\ Qabs (fsub (c_y j) (c_y i)) <= fadd r_goc_vol (fdiv GoCaxon_y 2)
                   /\ Qabs (fsub (c_z j) (c_z i)) <= fadd r_goc_vol (fdiv GoCaxon_z 2).
Proof.
  unfold good_goc. rewrite np_where_In, nth_error_map, !nth_error_combine,
    clear_at_nth, !nth_error_map.
  destruct (nth_error golgicells k) as [j |] eqn:Ej; cbn [option_map].
  - destruct (Nat.eqb_spec k self_index) as [-> | Hne]; cbn [option_map fst snd].
    + split; [cbn [andb]; discriminate | intros [H _]; now elim H].
    + split.
      * intros H. injection H as H. apply andb_true_iff in H. destruct H as [H Hz].
        apply andb_true_iff in H. destruct H as [Hx Hy].
        apply Qle_bool_iff in Hx, Hy, Hz.
        split; [exact Hne |]. exists j. auto.
      * intros [_ (j' & Hj' & Hx & Hy & Hz)]. injection Hj' as <-.
        apply Qle_bool_iff in Hx, Hy, Hz. now rewrite Hx, Hy, Hz.
  - destruct (k =? self_index)%nat; cbn [option_map].
    + split; [discriminate | intros [_ (j & Hj & _)]; discriminate].
    + split; [discriminate | intros [_ (j & Hj & _)]; discriminate].
Qed.

Lemma rows_from_In (golgicells : matrix) (todo : list cell) :
  forall self_index e,
    In e (rows_from r_goc_vol GoCaxon_x GoCaxon_y GoCaxon_z golgicells self_index todo)
    <-> exists n i k,
          nth_error todo n = Some i
          /\ In k (good_goc r_goc_vol GoCaxon_x GoCaxon_y GoCaxon_z golgicells
                            (self_index + n) i)
          /\ e = (c_id i, inject_Z (Z.of_nat k)).
Proof.
  induction todo as [| i rest IH]; intros s e; cbn [rows_from].
  - split; [intros [] | intros (n & i & k & Hn & _)]. now destruct n.
  - rewrite in_app_iff, in_map_iff, IH. split.
    + intros [(k & <- & Hk) | (n & i' & k & Hn & Hk & ->)].
      * exists O, i, k. rewrite Nat.add_0_r. auto.
      * exists (S n), i', k. rewrite Nat.add_succ_r. auto.
    + intros (n & i' & k & Hn & Hk & ->). destruct n as [| n].
      * injection Hn as <-. rewrite Nat.add_0_r in Hk. left. now exists k.
      * right. exists n, i', k. rewrite Nat.add_succ_r in Hk. auto.
Qed.


(** X10.  Gap junctions between Golgi cells are found in both directions:
    where no two Golgi cells carry the same id, a row that joins the cell
    of row [a] to row number [b] comes with a row that joins the cell of
    row [b] to row number [a]; and no row joins a cell to the number of
    its own row. *)
Theorem gj_goc_reciprocal (golgicells : matrix) (first_golgi : Z) (m : list edge) :
  connectome_gj_goc r_goc_vol GoCaxon_x GoCaxon_y GoCaxon_z golgicells first_golgi = Ok m ->
  GapJunctions.unique_ids golgicells ->
  forall a b ca cb,
    nth_error golgicells a = Some ca -> nth_error golgicells b = Some cb ->
    In (c_id ca, inject_Z (Z.of_nat b)) m ->
    a <> b /\ In (c_id cb, inject_Z (Z.of_nat a)) m.
Proof.
  intros Hrun Huniq a b ca cb Ha Hb Hin.
  assert (Hm : m = rows_from r_goc_vol GoCaxon_x GoCaxon_y GoCaxon_z golgicells 0
                             golgicells).
  { unfold connectome_gj_goc in Hrun.
    destruct golgicells; [discriminate Hrun | now injection Hrun]. }
  subst m. clear Hrun.
  apply rows_from_In in Hin. destruct Hin as (a' & ca' & b' & Ha' & Hb' & Heq).
  cbn [Nat.add] in Hb'. injection Heq as Hid Hrow. apply Nat2Z.inj in Hrow. subst b'.
  assert (a = a') as <-.
  { apply (Huniq a a' ca ca' Ha Ha'). rewrite Hid. reflexivity. }
  rewrite Ha in Ha'. injection Ha' as <-.
  apply good_goc_In in Hb'. destruct Hb' as [Hne (j & Hj & Hx & Hy & Hz)].
  rewrite Hb in Hj. injection Hj as <-.
  split; [auto |].
  apply rows_from_In. exists b, cb, a. split; [exact Hb |]. split; [| reflexivity].
  cbn [Nat.add]. apply good_goc_In. split; [exact (not_eq_sym Hne) |].
  exists ca. split; [exact Ha |].
  rewrite (Qabs_fsub_sym (c_x ca)), (Qabs_fsub_sym (c_y ca)), (Qabs_fsub_sym (c_z ca)).
  auto.
Qed.

End GolgiGapJunctions.


Lemma gj_goc_reciprocal_witness :
  (0 <> 1)%nat /\ In (11, inject_Z (Z.of_nat 0)) [(10, inject_Z 1); (11, inject_Z 0)].
Proof.
  apply (gj_goc_reciprocal 1 2 2 2
           [mkCell 10 0 0 0 0; mkCell 11 0 1 1 1; mkCell 12 0 9 9 9] 10
           [(10, inject_Z 1); (11, inject_Z 0)])
    with (ca := mkCell 10 0 0 0 0) (cb := mkCell 11 0 1 1 1).
  - vm_compute. reflexivity.
  - intros i j ci cj Hi Hj Hid.
    destruct i as [| [| [| i]]]; destruct j as [| [| [| j]]]; cbn in Hi, Hj;
      try reflexivity; try discriminate;
      try (now destruct i); try (now destruct j);
      injection Hi as <-; injection Hj as <-; cbn in Hid; discriminate Hid.
  - reflexivity.
  - reflexivity.
  - left. reflexivity.
Defined.

(** ** Divergence and convergence of the Golgi cell strategies *)

Section ReturningLoops.

(** A loop that returned is made of the blocks of its iterations. *)
Lemma for_rows_blocks_inv {A B : Type} (body : A -> M (list B))
    (P : A -> list B -> Prop) (l : list A) :
  (forall a w r w', In a l -> body a w = (Ok r, w') -> P a r) ->
  forall w es w',
    for_rows body l w = (Ok es, w') ->
    exists blocks, es = concat blocks /\ Forall2 P l blocks.
Proof.
  induction l as [| a l IH]; intros Hbody w es w' Hrun; cbn [for_rows] in Hrun.
  - injection Hrun as <- <-. exists []. split; [reflexivity | constructor].
  - apply bind_ok_inv in Hrun. destruct Hrun as (r & w1 & Hr & Hrun).
    apply bind_ok_inv in Hrun. destruct Hrun as (rs & w2 & Hrs & Hret).
    injection Hret as <- <-.
    destruct (IH (fun a' w0 r' w0' Ha' => Hbody a' w0 r' w0' (or_intror Ha'))
                 w1 rs w2 Hrs) as (blocks & -> & Hall).
    exists (r :: blocks). split; [reflexivity |].
    constructor; [| exact Hall]. exact (Hbody a w r w1 (or_introl eq_refl) Hr).
Qed.

(** What [np.copy] leaves in the store. *)
Lemma np_copy_inv (l : nat) (w w1 : world) (l' : nat) :
  np_copy l w = (Ok l', w1) ->
  exists m, nth_error (mem w) l = Some m
            /\ l' = length (mem w)
            /\ w1 = mkWorld (mem w ++ [m]) (ints w) (unifs w).
Proof.
  unfold np_copy, bind, load, alloc.
  destruct (nth_error (mem w) l) as [m |]; [| discriminate].
  intros H. injection H as <- <-. now exists m.
Qed.

Lemma load_inv (l : nat) (w w1 : world) (m : matrix) :
  load l w = (Ok m, w1) -> nth_error (mem w) l = Some m /\ w1 = w.
Proof.
  unfold load. destruct (nth_error (mem w) l); [| discriminate].
  intros H. now injection H as <- <-.
Qed.

Lemma np_random_permutation_inv {A : Type} (l p : list A) (w w' : world) :
  np_random_permutation l w = (Ok p, w') -> Permutation p l.
Proof.
  intros H. destruct (np_random_permutation_spec l w) as (p' & w1 & Hp & Hperm & _).
  rewrite H in Hp. now injection Hp as <- <-.
Qed.

Lemma np_random_choice_inv {A : Type} (a p : list A) (size : Z) (w w' : world) :
  np_random_choice a size w = (Ok p, w') ->
  Z.of_nat (length p) = size /\ exists rest, Permutation (p ++ rest) a.
Proof.
  unfold np_random_choice.
  destruct (Z.ltb_spec size 0) as [| Hpos]; [discriminate |].
  destruct (Z.ltb_spec (Z.of_nat (length a)) size) as [| Hle]; [discriminate |].
  cbn [orb]. intros H. apply bind_ok_inv in H. destruct H as (q & w1 & Hq & Hret).
  injection Hret as <- <-. apply np_random_permutation_inv in Hq.
  split.
  - rewrite length_firstn, (Permutation_length Hq). lia.
  - exists (skipn (Z.to_nat size) q). now rewrite firstn_skipn.
Qed.

End ReturningLoops.

Section GolgiGlomerulusDivergence.

Import GolgiGlomerulus.

Lemma goc_glom_walk_capped (first_glomerulus n_conn_goc : Z) (layer_thickness oob : Q)
    (l : nat) (golgi : cell) (candidates : list cell) :
  forall idx w es w',
    walk first_glomerulus n_conn_goc layer_thickness oob l golgi idx candidates w
    = (Ok es, w') ->
    (Z.of_nat (length es) <= Z.max 0 (n_conn_goc - idx + 1))%Z
    /\ forall e, In e es -> fst e = c_id golgi.
Proof.
  induction candidates as [| j rest IH]; intros idx w es w' Hrun; cbn [walk] in Hrun.
  - injection Hrun as <- <-. split; [cbn; lia | intros e []].
  - destruct (Z.leb_spec idx n_conn_goc) as [Hidx | Hidx].
    + apply bind_ok_inv in Hrun. destruct Hrun as (ra & w1 & _ & Hrun).
      destruct (accepted layer_thickness golgi j ra).
      * apply bind_ok_inv in Hrun. destruct Hrun as (u & w2 & _ & Hrun).
        apply bind_ok_inv in Hrun. destruct Hrun as (es' & w3 & Hwalk & Hret).
        injection Hret as <- <-. destruct (IH _ _ _ _ Hwalk) as [Hlen Hfst].
        split; [cbn [length]; lia |].
        intros e [<- | He]; [reflexivity | now apply Hfst].
      * destruct (IH _ _ _ _ Hrun) as [Hlen Hfst]. split; [lia | exact Hfst].
    + destruct (IH _ _ _ _ Hrun) as [Hlen Hfst]. split; [lia | exact Hfst].
Qed.

(** X11.  Whenever [connectome_goc_glom] returns, each Golgi cell of the
    population has received at most [n_conn_goc] rows, whatever the
    random draws and whether the sentinel row is out of reach or not:
    the matrix is made of one block per Golgi cell of a permutation of
    the population, and it fits the [golgicells.shape[0] * n_conn_goc]
    rows allocated. *)
Theorem goc_glom_within_divergence (first_glomerulus : Z) (glomeruli golgicells : nat)
    (GoCaxon_x GoCaxon_y GoCaxon_z r_glom : Q) (n_conn_goc : Z)
    (layer_thickness oob : Q) (w w' : world) (golgis : matrix) (es : list edge) :
  nth_error (mem w) golgicells = Some golgis ->
  connectome_goc_glom first_glomerulus glomeruli golgicells
                      GoCaxon_x GoCaxon_y GoCaxon_z r_glom n_conn_goc
                      layer_thickness oob w = (Ok es, w') ->
  exists order blocks,
    Permutation order golgis
    /\ es = concat blocks
    /\ Forall2 (fun g block => (length block <= Z.to_nat n_conn_goc)%nat
                               /\ forall e, In e block -> fst e = c_id g)
               order blocks
    /\ (length es <= length golgis * Z.to_nat n_conn_goc)%nat.
Proof.
  intros Hgo Hrun. unfold connectome_goc_glom in Hrun.
  apply bind_ok_inv in Hrun. destruct Hrun as (l & w1 & Hcopy & Hrun).
  apply np_copy_inv in Hcopy. destruct Hcopy as (G & HG & -> & ->).
  apply bind_ok_inv in Hrun. destruct Hrun as (golgis' & w2 & Hload & Hrun).
  apply load_inv in Hload. destruct Hload as [Hload ->]. cbn [mem] in Hload.
  rewrite nth_error_app1 in Hload by (apply nth_error_Some; congruence).
  rewrite Hgo in Hload. injection Hload as <-.
  apply bind_ok_inv in Hrun. destruct Hrun as (order & w3 & Hperm & Hrun).
  apply np_random_permutation_inv in Hperm.
  destruct (_ <? 0)%Z; [discriminate Hrun |].
  assert (Hbody : forall g w0 r w0',
             In g order ->
             connect_golgi first_glomerulus glomeruli GoCaxon_x GoCaxon_y GoCaxon_z
                           r_glom n_conn_goc layer_thickness oob (length (mem w)) g w0
             = (Ok r, w0') ->
             (length r <= Z.to_nat n_conn_goc)%nat
             /\ forall e, In e r -> fst e = c_id g).
  { intros g w0 r w0' _ Hbody. unfold connect_golgi in Hbody.
    apply bind_ok_inv in Hbody. destruct Hbody as (glom & w4 & _ & Hbody).
    apply bind_ok_inv in Hbody. destruct Hbody as (chosen & w5 & _ & Hbody).
    apply bind_ok_inv in Hbody. destruct Hbody as (working & w6 & _ & Hbody).
    apply goc_glom_walk_capped in Hbody. destruct Hbody as [Hlen Hfst].
    split; [lia | exact Hfst]. }
  destruct (for_rows_blocks_inv _ _ _ Hbody _ _ _ Hrun) as (blocks & Hes & Hall).
  exists order, blocks. split; [exact Hperm |]. split; [exact Hes |].
  split; [exact Hall |].
  rewrite Hes, <- (Permutation_length Hperm).
  eapply concat_length_le; [| exact Hall]. intros g b [Hb _]. exact Hb.
Qed.

Lemma goc_glom_within_divergence_witness :
  let glomeruli := [mkCell 1000 0 0 0 0; mkCell 1001 0 0 0 0] in
  let golgis := [mkCell 1 0 0 0 0; mkCell 2 0 0 0 0] in
  let draws := [9 # 10; 9 # 10; 9 # 10; 9 # 10] in
  exists order blocks,
    Permutation order golgis
    /\ [(1, 2000); (1, 2001)] = concat blocks
    /\ Forall2 (fun g block => (length block <= Z.to_nat 2)%nat
                               /\ forall e, In e block -> fst e = c_id g)
               order blocks
    /\ (length [(1, 2000); (1, 2001)] <= length golgis * Z.to_nat 2)%nat.
Proof.
  intros glomeruli golgis draws.
  apply (goc_glom_within_divergence 1000 0 1 10 10 10 1 2 100 1000
           (mkWorld [glomeruli; golgis] [] draws)
           (mkWorld [glomeruli; golgis;
                     [mkCell 1000 1000 1000 1000 1000; mkCell 1000 1000 1000 1000 1000]]
                    [] [])
           golgis [(1, 2000); (1, 2001)]).
  - reflexivity.
  - vm_compute. reflexivity.
Defined.

End GolgiGlomerulusDivergence.

(** ** Counting the inputs of a cell *)

Section InputCounts.

Import Specs.

Lemma inputs_of_app (id : Q) (a b : list edge) :
  inputs_of id (a ++ b) = (inputs_of id a + inputs_of id b)%nat.
Proof. unfold inputs_of. now rewrite filter_app, length_app. Qed.

Lemma inputs_of_block (id target : Q) (block : list edge) :
  (forall e, In e block -> snd e = target) ->
  inputs_of id block = if Qeq_bool target id then length block else 0%nat.
Proof.
  unfold inputs_of. induction block as [| e block IH]; intros H; cbn [filter length].
  - now destruct (Qeq_bool target id).
  - rewrite (H e (or_introl eq_refl)).
    specialize (IH (fun e' He' => H e' (or_intror He'))).
    destruct (Qeq_bool target id); cbn [length]; now rewrite IH.
Qed.

Lemma filter_length_perm {A : Type} (f : A -> bool) (a b : list A) :
  Permutation a b -> length (filter f a) = length (filter f b).
Proof.
  induction 1 as [| x a b _ IH | x y a | a b c _ IH1 _ IH2]; cbn [filter].
  - reflexivity.
  - destruct (f x); cbn [length]; now rewrite IH.
  - destruct (f x), (f y); reflexivity.
  - now rewrite IH1.
Qed.

Lemma unique_ids_tail (c : cell) (cells : matrix) :
  GapJunctions.unique_ids (c :: cells) -> GapJunctions.unique_ids cells.
Proof.
  intros H i j ci cj Hi Hj Hid.
  specialize (H (S i) (S j) ci cj Hi Hj Hid). now injection H.
Qed.

(** With unique ids at most one cell carries a given id. *)
Lemma unique_ids_carriers (id : Q) (cells : matrix) :
  GapJunctions.unique_ids cells -> (carriers id cells <= 1)%nat.
Proof.
  unfold carriers. induction cells as [| c cells IH]; intros H; cbn [filter length].
  - lia.
  - specialize (IH (unique_ids_tail _ _ H)).
    destruct (Qeq_bool (c_id c) id) eqn:Ec; [| exact IH].
    cbn [length]. apply le_n_S.
    destruct (filter (fun c0 => Qeq_bool (c_id c0) id) cells) as [| d ds] eqn:Ef;
      [cbn; lia |].
    exfalso.
    assert (Hd : In d (filter (fun c0 => Qeq_bool (c_id c0) id) cells))
      by (rewrite Ef; now left).
    apply filter_In in Hd. destruct Hd as [Hd Ed].
    apply In_nth_error in Hd. destruct Hd as [k Hk].
    apply Qeq_bool_iff in Ec, Ed.
    assert (Hsame : c_id c == c_id d) by (rewrite Ec, Ed; reflexivity).
    discriminate (H 0%nat (S k) c d eq_refl Hk Hsame).
Qed.

End InputCounts.

Section GranuleGolgiConvergence.

Import GranuleGolgi Specs.

Variables (first_granule : Z) (granules : nat).
Variables (r_goc_vol OoB_value : Q) (n_connAA tot_conn : Z).

Lemma pick_AA_length (golgi : cell) (selected : list cell) :
  forall idx rolls,
    (Z.of_nat (length (pick_AA r_goc_vol n_connAA golgi idx selected rolls))
     <= Z.max 0 (n_connAA - idx))%Z.
Proof.
  induction selected as [| j rest IH]; intros idx rolls; cbn [pick_AA].
  - cbn. lia.
  - destruct rolls as [| roll rolls]; [cbn; lia |].
    destruct (Z.ltb_spec idx n_connAA).
    + destruct (sqrt_ltb _ _).
      * cbn [length]. specialize (IH (idx + 1)%Z rolls). lia.
      * apply IH.
    + specialize (IH idx rolls). lia.
Qed.

(** The rows that one Golgi cell adds to the two matrices. *)
Lemma grc_goc_connect_golgi_capped (l : nat) (golgi : cell) (w w' : world)
    (aa pf : list edge) :
  connect_golgi first_granule granules r_goc_vol OoB_value n_connAA tot_conn l golgi w
  = (Ok (aa, pf), w') ->
  (Z.of_nat (length aa) <= n_connAA)%Z
  /\ (Z.of_nat (length aa + length pf) <= tot_conn)%Z
  /\ (forall e, In e aa -> snd e = c_id golgi)
  /\ (forall e, In e pf -> snd e = c_id golgi).
Proof.
  intros H. unfold connect_golgi in H. cbv zeta in H.
  apply bind_ok_inv in H. destruct H as (working & w1 & _ & H).
  apply bind_ok_inv in H. destruct H as (chosen & w2 & _ & H).
  apply bind_ok_inv in H. destruct H as (rolls & w3 & _ & H).
  destruct (Z.ltb_spec n_connAA 0) as [| Hn]; [discriminate H |].
  apply bind_ok_inv in H. destruct H as (original & w4 & _ & H).
  apply bind_ok_inv in H. destruct H as (good_grc & w5 & _ & H).
  apply bind_ok_inv in H. destruct H as (connected_pf & w6 & Hchoice & H).
  apply bind_ok_inv in H. destruct H as (u & w7 & _ & H).
  injection H as <- <- <-.
  match goal with
  | |- context [pick_AA ?r ?n ?g ?i ?s ?ro] =>
      pose proof (pick_AA_length g s i ro) as Hlen;
      set (connectedAA := pick_AA r n g i s ro) in *
  end.
  unfold take. rewrite !length_map.
  assert (Hpf : (Z.of_nat (length connected_pf)
                 <= tot_conn - Z.of_nat (length connectedAA))%Z).
  { match type of Hchoice with
    | (if ?b then _ else _) _ = _ => destruct b eqn:Eb
    end; apply np_random_choice_inv in Hchoice; destruct Hchoice as [Hsize _]; lia. }
  split; [lia |]. split; [lia |].
  split; intros e He; apply in_map_iff in He; destruct He as (x & <- & _); reflexivity.
Qed.

Lemma grc_goc_loop_capped (l : nat) (todo : list cell) :
  forall w w' aa pf,
    golgi_loop first_granule granules r_goc_vol OoB_value n_connAA tot_conn l todo w
    = (Ok (aa, pf), w') ->
    forall id,
      (inputs_of id aa <= carriers id todo * Z.to_nat n_connAA)%nat
      /\ (inputs_of id aa + inputs_of id pf <= carriers id todo * Z.to_nat tot_conn)%nat.
Proof.
  induction todo as [| g rest IH]; intros w w' aa pf H id; cbn [golgi_loop] in H.
  - injection H as <- <- <-. cbn. lia.
  - apply bind_ok_inv in H. destruct H as ([aa1 pf1] & w1 & Hg & H).
    apply bind_ok_inv in H. destruct H as ([aa2 pf2] & w2 & Hrest & H).
    injection H as <- <- <-. cbn [fst snd].
    apply grc_goc_connect_golgi_capped in Hg. destruct Hg as (Ha & Hb & Hta & Htp).
    destruct (IH _ _ _ _ Hrest id) as [IHa IHb].
    rewrite !inputs_of_app, (inputs_of_block id _ aa1 Hta),
      (inputs_of_block id _ pf1 Htp).
    unfold carriers in *. cbn [filter].
    destruct (Qeq_bool (c_id g) id); cbn [length]; lia.
Qed.

End GranuleGolgiConvergence.

(** X12.  Whenever [connectome_grc_goc] returns, the Golgi cells were
    fewer than the granule cells and, their ids being unique, each of
    them receives at most [n_connAA] ascending axons and at most
    [tot_conn] connections over the two matrices together. *)
Theorem grc_goc_within_convergence (first_granule : Z) (granules golgicells : nat)
    (r_goc_vol OoB_value : Q) (n_connAA n_conn_pf tot_conn : Z) (w w' : world)
    (golgis : matrix) (aa pf : list edge) :
  nth_error (mem w) golgicells = Some golgis ->
  GapJunctions.unique_ids golgis ->
  GranuleGolgi.connectome_grc_goc first_granule granules golgicells r_goc_vol
    OoB_value n_connAA n_conn_pf tot_conn w = (Ok (aa, pf), w') ->
  (exists gr, nth_error (mem w) granules = Some gr /\ (length golgis < length gr)%nat)
  /\ forall id,
       (Specs.inputs_of id aa <= Z.to_nat n_connAA)%nat
       /\ (Specs.inputs_of id aa + Specs.inputs_of id pf <= Z.to_nat tot_conn)%nat.
Proof.
  intros Hgo Huniq Hrun. unfold GranuleGolgi.connectome_grc_goc in Hrun.
  apply bind_ok_inv in Hrun. destruct Hrun as (l & w1 & Hcopy & Hrun).
  apply np_copy_inv in Hcopy. destruct Hcopy as (gr & Hgr & -> & ->).
  apply bind_ok_inv in Hrun. destruct Hrun as (working & w2 & Hload & Hrun).
  apply load_inv in Hload. destruct Hload as [Hload ->]. cbn [mem] in Hload.
  rewrite nth_error_app2, Nat.sub_diag in Hload by lia. injection Hload as <-.
  apply bind_ok_inv in Hrun. destruct Hrun as (golgis' & w2 & Hload & Hrun).
  apply load_inv in Hload. destruct Hload as [Hload ->]. cbn [mem] in Hload.
  rewrite nth_error_app1 in Hload by (apply nth_error_Some; congruence).
  rewrite Hgo in Hload. injection Hload as <-.
  apply bind_ok_inv in Hrun. destruct Hrun as (order & w3 & Hperm & Hrun).
  apply np_random_permutation_inv in Hperm.
  destruct (Nat.leb_spec (length gr) (length order)) as [| Hlt]; [discriminate Hrun |].
  apply bind_ok_inv in Hrun. destruct Hrun as ([aa0 pf0] & w4 & Hloop & Hret).
  injection Hret as <- <- <-. cbn [fst snd].
  split.
  { exists gr. split; [exact Hgr |]. now rewrite <- (Permutation_length Hperm). }
  intros id.
  destruct (grc_goc_loop_capped _ _ _ _ _ _ _ _ _ _ _ _ Hloop id) as [Ha Hb].
  assert (Hone : (Specs.carriers id order <= 1)%nat).
  { unfold Specs.carriers. rewrite (filter_length_perm _ _ _ Hperm).
    now apply unique_ids_carriers. }
  assert (Hsa : Specs.inputs_of id (GranuleGolgi.sort_by_target aa0)
                = Specs.inputs_of id aa0).
  { apply filter_length_perm. unfold GranuleGolgi.sort_by_target. apply take_perm.
    pose proof (argsort_perm (map snd aa0)) as H. rewrite length_map in H. exact H. }
  assert (Hsp : Specs.inputs_of id (GranuleGolgi.sort_by_target pf0)
                = Specs.inputs_of id pf0).
  { apply filter_length_perm. unfold GranuleGolgi.sort_by_target. apply take_perm.
    pose proof (argsort_perm (map snd pf0)) as H. rewrite length_map in H. exact H. }
  rewrite Hsa, Hsp. split; nia.
Qed.

Lemma grc_goc_within_convergence_witness :
  let granules := [mkCell 0 0 0 0 0; mkCell 1 0 1 0 0; mkCell 2 0 2 0 0] in
  let golgis := [mkCell 7 0 0 0 0] in
  let aa : list edge := [(0, 7)] in
  let pf : list edge := [(1, 7)] in
  (exists gr,
      nth_error (mem (mkWorld [granules; golgis] [] [9 # 10; 9 # 10; 9 # 10; 9 # 10])) 0
      = Some gr
      /\ (length golgis < length gr)%nat)
  /\ forall id,
       (Specs.inputs_of id aa <= Z.to_nat 1)%nat
       /\ (Specs.inputs_of id aa + Specs.inputs_of id pf <= Z.to_nat 2)%nat.
Proof.
  intros granules golgis aa pf.
  apply (grc_goc_within_convergence 0 0 1 10 1000 1 1 2
           (mkWorld [granules; golgis] [] [9 # 10; 9 # 10; 9 # 10; 9 # 10])
           (mkWorld [granules; golgis;
                     [mkCell 1000 1000 1000 1000 1000; mkCell 1 0 1 0 0;
                      mkCell 2 0 2 0 0]] [] [9 # 10])
           golgis aa pf).
  - reflexivity.
  - intros i j ci cj Hi Hj _. destruct i as [| i]; destruct j as [| j];
      try reflexivity; cbn in Hi, Hj; try (now destruct i); now destruct j.
  - vm_compute. reflexivity.
Defined.

(** ** Stellate and basket cells onto Purkinje cells *)

Section BasketStellateConvergence.

Import BCSCPurkinje Specs.

Variables (distx distz : Q) (conv : Z).

Lemma capped_walk_spec (accepted : cell -> cell -> Q -> bool) (p : cell)
    (candidates : list cell) :
  forall idx w,
    exists es w',
      capped_walk conv accepted p idx candidates w = (Ok es, w')
      /\ (Z.of_nat (length es) <= Z.max 0 (conv - idx + 1))%Z
      /\ forall e, In e es -> exists j, In j candidates /\ e = (c_id j, c_id p).
Proof.
  induction candidates as [| j rest IH]; intros idx w; cbn [capped_walk].
  - exists [], w. split; [reflexivity |]. split; [cbn; lia | intros e []].
  - destruct (Z.leb_spec idx conv) as [Hidx | Hidx].
    + destruct (np_random_total w) as (u & w1 & Hu). rewrite (bind_ok _ _ _ _ _ Hu).
      destruct (accepted p j u).
      * destruct (IH (idx + 1)%Z w1) as (es & w' & Hrun & Hlen & Hin).
        rewrite (bind_ok _ _ _ _ _ Hrun). unfold ret.
        exists ((c_id j, c_id p) :: es), w'. split; [reflexivity |].
        split; [cbn [length]; lia |].
        intros e [<- | He].
        -- exists j. split; [now left | reflexivity].
        -- destruct (Hin e He) as (k & Hk & ->). exists k. split; [now right | reflexivity].
      * destruct (IH idx w1) as (es & w' & Hrun & Hlen & Hin).
        exists es, w'. split; [exact Hrun |]. split; [lia |].
        intros e He. destruct (Hin e He) as (k & Hk & ->).
        exists k. split; [now right | reflexivity].
    + destruct (IH idx w) as (es & w' & Hrun & Hlen & Hin).
      exists es, w'. split; [exact Hrun |]. split; [lia |].
      intros e He. destruct (Hin e He) as (k & Hk & ->).
      exists k. split; [now right | reflexivity].
Qed.

(** The candidates of a walk passed the gate. *)
Lemma gated_candidates (gate : cell -> bool) (cells : matrix) (chosen : list nat) (j : cell) :
  Permutation chosen (np_where (map gate cells)) ->
  In j (take zero_cell cells chosen) ->
  In j cells /\ gate j = true.
Proof.
  intros Hperm Hj. unfold take in Hj. apply in_map_iff in Hj.
  destruct Hj as (k & <- & Hk). apply (Permutation_in _ Hperm) in Hk.
  apply np_where_In in Hk. rewrite nth_error_map in Hk.
  destruct (nth_error cells k) as [c |] eqn:Ec; [| discriminate Hk].
  injection Hk as Hk. rewrite (nth_error_nth _ _ zero_cell Ec).
  split; [eapply nth_error_In; exact Ec | exact Hk].
Qed.

(** What one Purkinje cell receives. *)
Lemma bcsc_connect_purkinje_spec (basketcells stellates : matrix) (p : cell) (w : world) :
  exists sc bc w',
    connect_purkinje distx distz conv basketcells stellates p w = (Ok (sc, bc), w')
    /\ (length sc <= Z.to_nat conv)%nat
    /\ (length bc <= Z.to_nat conv)%nat
    /\ (forall e, In e sc ->
          exists s, In s stellates /\ e = (c_id s, c_id p)
                    /\ sc_gate distx distz p s = true)
    /\ (forall e, In e bc ->
          exists b, In b basketcells /\ e = (c_id b, c_id p)
                    /\ bc_gate distx distz p b = true).
Proof.
  unfold connect_purkinje.
  destruct (np_random_permutation_spec
              (np_where (map (bc_gate distx distz p) basketcells)) w)
    as (cb & w1 & Hcb & Hpb & _).
  rewrite (bind_ok _ _ _ _ _ Hcb).
  destruct (np_random_permutation_spec
              (np_where (map (sc_gate distx distz p) stellates)) w1)
    as (cs & w2 & Hcs & Hps & _).
  rewrite (bind_ok _ _ _ _ _ Hcs).
  destruct (capped_walk_spec (bc_accepted distx distz) p
              (take zero_cell basketcells cb) 1%Z w2) as (bc & w3 & Hbc & Hlb & Hib).
  rewrite (bind_ok _ _ _ _ _ Hbc).
  destruct (capped_walk_spec (sc_accepted distx distz) p
              (take zero_cell stellates cs) 1%Z w3) as (sc & w4 & Hsc & Hls & His).
  rewrite (bind_ok _ _ _ _ _ Hsc). unfold ret.
  exists sc, bc, w4. split; [reflexivity |].
  split; [lia |]. split; [lia |]. split.
  - intros e He. destruct (His e He) as (j & Hj & ->).
    destruct (gated_candidates _ _ _ _ Hps Hj) as [Hin Hg]. now exists j.
  - intros e He. destruct (Hib e He) as (j & Hj & ->).
    destruct (gated_candidates _ _ _ _ Hpb Hj) as [Hin Hg]. now exists j.
Qed.

Lemma bcsc_purkinje_loop_spec (basketcells stellates : matrix) (todo : list cell) :
  forall w,
    exists sc bc w',
      purkinje_loop distx distz conv basketcells stellates todo w = (Ok (sc, bc), w')
      /\ (forall id,
            (inputs_of id sc <= carriers id todo * Z.to_nat conv)%nat
            /\ (inputs_of id bc <= carriers id todo * Z.to_nat conv)%nat)
      /\ (length sc <= length todo * Z.to_nat conv)%nat
      /\ (length bc <= length todo * Z.to_nat conv)%nat
      /\ (forall e, In e sc ->
            exists s p, In s stellates /\ In p todo /\ e = (c_id s, c_id p)
                        /\ sc_gate distx distz p s = true)
      /\ (forall e, In e bc ->
            exists b p, In b basketcells /\ In p todo /\ e = (c_id b, c_id p)
                        /\ bc_gate distx distz p b = true).
Proof.
  induction todo as [| p rest IH]; intros w; cbn [purkinje_loop].
  - exists [], [], w. split; [reflexivity |].
    split; [intros id; cbn; lia |]. split; [cbn; lia |]. split; [cbn; lia |].
    split; intros e [].
  - destruct (bcsc_connect_purkinje_spec basketcells stellates p w)
      as (sc1 & bc1 & w1 & Hp & Hls & Hlb & Hs & Hb).
    rewrite (bind_ok _ _ _ _ _ Hp).
    destruct (IH w1) as (sc2 & bc2 & w2 & Hrest & Hcount & Hls2 & Hlb2 & Hs2 & Hb2).
    rewrite (bind_ok _ _ _ _ _ Hrest). unfold ret. cbn [fst snd].
    exists (sc1 ++ sc2), (bc1 ++ bc2), w2. split; [reflexivity |].
    split; [| split; [| split; [| split]]].
    + intros id. destruct (Hcount id) as [Hcs Hcb].
      rewrite !inputs_of_app.
      rewrite (inputs_of_block id (c_id p) sc1), (inputs_of_block id (c_id p) bc1).
      * unfold carriers in *. cbn [filter].
        destruct (Qeq_bool (c_id p) id); cbn [length]; lia.
      * intros e He. now destruct (Hb e He) as (b & _ & -> & _).
      * intros e He. now destruct (Hs e He) as (s & _ & -> & _).
    + rewrite length_app. cbn [length]. lia.
    + rewrite length_app. cbn [length]. lia.
    + intros e He. apply in_app_iff in He. destruct He as [He | He].
      * destruct (Hs e He) as (s & Hin & -> & Hg). exists s, p.
        split; [exact Hin |]. split; [now left |]. now split.
      * destruct (Hs2 e He) as (s & q & Hin & Hq & -> & Hg). exists s, q.
        split; [exact Hin |]. split; [now right |]. now split.
    + intros e He. apply in_app_iff in He. destruct He as [He | He].
      * destruct (Hb e He) as (b & Hin & -> & Hg). exists b, p.
        split; [exact Hin |]. split; [now left |]. now split.
      * destruct (Hb2 e He) as (b & q & Hin & Hq & -> & Hg). exists b, q.
        split; [exact Hin |]. split; [now right |]. now split.
Qed.

End BasketStellateConvergence.

(** X13.  With a convergence that is not negative, [connectome_sc_bc_pc]
    returns for all populations and all outcomes of the random draws;
    where the ids of the Purkinje cells are unique, each of them receives
    at most [conv] stellate cells and at most [conv] basket cells, and
    neither matrix outgrows the [n_purkinje * conv] rows allocated for
    it. *)
Theorem sc_bc_pc_within_convergence (first_stellate first_basket : Z)
    (basketcells stellates purkinjes : matrix) (distx distz : Q) (conv : Z) (w : world) :
  (0 <= conv)%Z ->
  GapJunctions.unique_ids purkinjes ->
  exists sc bc w',
    BCSCPurkinje.connectome_sc_bc_pc first_stellate first_basket basketcells stellates
      purkinjes distx distz conv w = (Ok (sc, bc), w')
    /\ (forall id, (Specs.inputs_of id sc <= Z.to_nat conv)%nat
                   /\ (Specs.inputs_of id bc <= Z.to_nat conv)%nat)
    /\ (length sc <= length purkinjes * Z.to_nat conv)%nat
    /\ (length bc <= length purkinjes * Z.to_nat conv)%nat.
Proof.
  intros Hconv Huniq. unfold BCSCPurkinje.connectome_sc_bc_pc.
  destruct (Z.ltb_spec (Z.of_nat (length purkinjes) * conv) 0); [nia |].
  destruct (bcsc_purkinje_loop_spec distx distz conv basketcells stellates purkinjes w)
    as (sc & bc & w' & Hrun & Hcount & Hls & Hlb & _).
  exists sc, bc, w'. split; [exact Hrun |]. split; [| split; assumption].
  intros id. destruct (Hcount id) as [Hs Hb].
  pose proof (unique_ids_carriers id purkinjes Huniq). split; nia.
Qed.

Lemma sc_bc_pc_within_convergence_witness :
  let baskets := [mkCell 20 0 0 0 0; mkCell 21 0 1 0 1] in
  let stellates := [mkCell 30 0 0 0 0; mkCell 31 0 1 0 1] in
  let purkinjes := [mkCell 40 0 0 0 0] in
  exists sc bc w',
    BCSCPurkinje.connectome_sc_bc_pc 30 20 baskets stellates purkinjes 5 5 1
      (mkWorld [] [] [9 # 10; 9 # 10]) = (Ok (sc, bc), w')
    /\ (forall id, (Specs.inputs_of id sc <= Z.to_nat 1)%nat
                   /\ (Specs.inputs_of id bc <= Z.to_nat 1)%nat)
    /\ (length sc <= length purkinjes * Z.to_nat 1)%nat
    /\ (length bc <= length purkinjes * Z.to_nat 1)%nat.
Proof.
  intros baskets stellates purkinjes.
  apply (sc_bc_pc_within_convergence 30 20 baskets stellates purkinjes 5 5 1
           (mkWorld [] [] [9 # 10; 9 # 10])).
  - lia.
  - intros i j ci cj Hi Hj _. destruct i as [| i]; destruct j as [| j];
      try reflexivity; cbn in Hi, Hj; try (now destruct i); now destruct j.
Defined.

(** X14.  Every row that [connectome_sc_bc_pc] returns joins a cell to a
    Purkinje cell of the population.  A stellate cell lies less than
    [distz] from the Purkinje cell along z and less than [distx] along
    x; for a basket cell the two limits are exchanged: less than [distx]
    along z and less than [distz] along x. *)
Theorem sc_bc_pc_joins_neighbours (first_stellate first_basket : Z)
    (basketcells stellates purkinjes : matrix) (distx distz : Q) (conv : Z)
    (w w' : world) (sc bc : list edge) :
  BCSCPurkinje.connectome_sc_bc_pc first_stellate first_basket basketcells stellates
    purkinjes distx distz conv w = (Ok (sc, bc), w') ->
  (forall e, In e sc ->
     exists s p, In s stellates /\ In p purkinjes /\ e = (c_id s, c_id p)
                 /\ Qabs (c_z s - c_z p) < distz /\ Qabs (c_x s - c_x p) < distx)
  /\ (forall e, In e bc ->
        exists b p, In b basketcells /\ In p purkinjes /\ e = (c_id b, c_id p)
                    /\ Qabs (c_z b - c_z p) < distx /\ Qabs (c_x b - c_x p) < distz).
Proof.
  intros Hrun. unfold BCSCPurkinje.connectome_sc_bc_pc in Hrun.
  destruct (_ <? 0)%Z; [discriminate Hrun |].
  destruct (bcsc_purkinje_loop_spec distx distz conv basketcells stellates purkinjes w)
    as (sc0 & bc0 & w0 & Hrun0 & _ & _ & _ & Hs & Hb).
  rewrite Hrun in Hrun0. injection Hrun0 as <- <- <-.
  split.
  - intros e He. destruct (Hs e He) as (s & p & Hin & Hp & -> & Hg).
    unfold BCSCPurkinje.sc_gate in Hg. apply andb_true_iff in Hg.
    destruct Hg as [Hz Hx]. apply Qltb_lt in Hz, Hx.
    exists s, p. auto.
  - intros e He. destruct (Hb e He) as (b & p & Hin & Hp & -> & Hg).
    unfold BCSCPurkinje.bc_gate in Hg. apply andb_true_iff in Hg.
    destruct Hg as [Hz Hx]. apply Qltb_lt in Hz, Hx.
    exists b, p. auto.
Qed.

Lemma sc_bc_pc_joins_neighbours_witness :
  let baskets := [mkCell 20 0 0 0 0; mkCell 21 0 1 0 1] in
  let stellates := [mkCell 30 0 0 0 0; mkCell 31 0 1 0 1] in
  let purkinjes := [mkCell 40 0 0 0 0] in
  (forall e, In e [(30, 40)] ->
     exists s p, In s stellates /\ In p purkinjes /\ e = (c_id s, c_id p)
                 /\ Qabs (c_z s - c_z p) < 5 /\ Qabs (c_x s - c_x p) < 5)
  /\ (forall e, In e [(20, 40)] ->
        exists b p, In b baskets /\ In p purkinjes /\ e = (c_id b, c_id p)
                    /\ Qabs (c_z b - c_z p) < 5 /\ Qabs (c_x b - c_x p) < 5).
Proof.
  intros baskets stellates purkinjes.
  apply (sc_bc_pc_joins_neighbours 30 20 baskets stellates purkinjes 5 5 1
           (mkWorld [] [] [9 # 10; 9 # 10]) (mkWorld [] [] [])
           [(30, 40)] [(20, 40)]).
  vm_compute. reflexivity.
Defined.

(** ** Glomeruli onto Golgi cells *)




(** ** Glomeruli onto the cells of the deep cerebellar nuclei *)

Section DrawsWithoutReplacement.

Lemma map_snd_combine' {A B : Type} (a : list A) (b : list B) :
  length a = length b -> map snd (combine a b) = b.
Proof.
  revert b. induction a as [| x a IH]; intros [| y b] H; cbn in *;
    try reflexivity; try discriminate.
  f_equal. apply IH. now injection H.
Qed.

Lemma bind_ret {A B : Type} (a : A) (k : A -> M B) (w : world) :
  bind (ret a) k w = k a w.
Proof. reflexivity. Qed.

(** A prefix of a permutation is a draw without replacement. *)
Lemma prefix_of_permutation {A B : Type} (f : A -> B) (k : nat) (p l : list A) :
  Permutation p l ->
  exists rest, Permutation (map f (firstn k p) ++ rest) (map f l).
Proof.
  intros H. exists (map f (skipn k p)).
  rewrite <- map_app, firstn_skipn. now apply Permutation_map.
Qed.

End DrawsWithoutReplacement.

(** X16.  With [0 <= conv_dcn <= len(glomeruli)], [connectome_glom_dcn]
    returns for every outcome of the random draws; each DCN cell, in the
    order of the population, receives exactly [conv_dcn] rows, and the
    glomeruli of its rows are drawn without replacement from column 0 of
    the glomeruli. *)
Theorem glom_dcn_exact_convergence (first_glomerulus : Z) (glomeruli dcn_glut : matrix)
    (conv_dcn : Z) (w : world) :
  (0 <= conv_dcn <= Z.of_nat (length glomeruli))%Z ->
  exists blocks w',
    GlomDCN.connectome_glom_dcn first_glomerulus glomeruli dcn_glut conv_dcn w
    = (Ok (concat blocks), w')
    /\ Forall2 (fun d block =>
                  Z.of_nat (length block) = conv_dcn
                  /\ (forall e, In e block -> snd e = c_id d)
                  /\ exists rest,
                       Permutation (map fst block ++ rest)
                         (map (fun g => inject_Z (py_int (c_id g))) glomeruli))
               dcn_glut blocks.
Proof.
  intros Hconv. unfold GlomDCN.connectome_glom_dcn.
  apply for_rows_blocks. intros d w0 _. unfold GlomDCN.connect_dcn, np_random_choice.
  destruct (Z.ltb_spec conv_dcn 0); [lia |].
  rewrite length_map.
  destruct (Z.ltb_spec (Z.of_nat (length glomeruli)) conv_dcn); [lia |].
  cbn [orb].
  destruct (np_random_permutation_spec (map c_id glomeruli) w0)
    as (p & w1 & Hp & Hperm & _).
  rewrite (bind_ok _ _ _ _ _ (bind_ok _ _ _ _ _ Hp)). unfold ret at 1.
  unfold bind, ret.
  eexists. eexists. split; [reflexivity |].
  split; [| split].
  - rewrite length_map, length_firstn, (Permutation_length Hperm), length_map. lia.
  - intros e He. apply in_map_iff in He. now destruct He as (g & <- & _).
  - rewrite map_map. cbn [fst].
    destruct (prefix_of_permutation (fun g => inject_Z (py_int g)) (Z.to_nat conv_dcn)
                p (map c_id glomeruli) Hperm) as (rest & Hrest).
    exists rest. now rewrite map_map in Hrest.
Qed.

Lemma glom_dcn_exact_convergence_witness :
  let glomeruli := [mkCell 100 0 0 0 0; mkCell 101 0 0 0 0; mkCell 102 0 0 0 0] in
  let dcn := [mkCell 7 0 0 0 0; mkCell 8 0 0 0 0] in
  exists blocks w',
    GlomDCN.connectome_glom_dcn 100 glomeruli dcn 2 (mkWorld [] [2; 0]%nat [])
    = (Ok (concat blocks), w')
    /\ Forall2 (fun d block =>
                  Z.of_nat (length block) = 2%Z
                  /\ (forall e, In e block -> snd e = c_id d)
                  /\ exists rest,
                       Permutation (map fst block ++ rest)
                         (map (fun g => inject_Z (py_int (c_id g))) glomeruli))
               dcn blocks.
Proof.
  intros glomeruli dcn.
  apply (glom_dcn_exact_convergence 100 glomeruli dcn 2 (mkWorld [] [2; 0]%nat [])).
  cbn. lia.
Defined.

(** ** Purkinje cells onto the deep cerebellar nuclei *)

Section PurkinjeDivergence.

Import PurkinjeDCN.

Variable point_plane_distance : Q * Q * Q * Q -> cell -> Q.

Lemma pc_dcn_connect_purkinje_spec (dcn_cells : matrix) (div_pc : Z)
    (dend_tree_coeff : list (Q * Q * Q * Q)) (i : cell) (w : world) :
  length dend_tree_coeff = length dcn_cells ->
  (1 <= div_pc)%Z ->
  exists block w',
    connect_purkinje point_plane_distance dcn_cells div_pc dend_tree_coeff i w
    = (Ok block, w')
    /\ (forall e, In e block -> fst e = c_id i)
    /\ (((Z.of_nat (length dcn_cells) < div_pc)%Z
         /\ map snd block = map c_id dcn_cells)
        \/ ((div_pc <= Z.of_nat (length dcn_cells))%Z
            /\ (Z.of_nat (length block) = div_pc
                \/ Z.of_nat (length block) = (div_pc - 1)%Z)
            /\ exists rest,
                 Permutation (map snd block ++ rest)
                   (map (fun d => inject_Z (py_int (c_id d))) dcn_cells))).
Proof.
  intros Hcoef Hdiv. unfold connect_purkinje, fill_column.
  rewrite length_map, Hcoef, Nat.eqb_refl. cbn [lift]. rewrite bind_ret.
  set (distance := map (fun co => point_plane_distance co i) dend_tree_coeff).
  assert (Hdist : length distance = length (map c_id dcn_cells))
    by (unfold distance; now rewrite !length_map).
  destruct (np_random_permutation_spec (combine distance (map c_id dcn_cells)) w)
    as (p & w1 & Hp & Hperm & _).
  rewrite (bind_ok _ _ _ _ _ Hp).
  assert (Hlen : length p = length dcn_cells).
  { rewrite (Permutation_length Hperm), length_combine, Hdist, length_map. lia. }
  assert (Hdraw : forall k,
             exists rest,
               Permutation
                 (map snd (map (fun row : Q * Q => (c_id i, inject_Z (py_int (snd row))))
                               (firstn k p)) ++ rest)
                 (map (fun d => inject_Z (py_int (c_id d))) dcn_cells)).
  { intros k. rewrite map_map. cbn [snd].
    destruct (prefix_of_permutation (fun row : Q * Q => inject_Z (py_int (snd row))) k
                p _ Hperm) as (rest & Hrest).
    exists rest. rewrite Hrest.
    rewrite <- (map_map snd (fun id => inject_Z (py_int id))),
      (map_snd_combine' _ _ Hdist), map_map. reflexivity. }
  destruct (Z.ltb_spec (Z.of_nat (length dcn_cells)) div_pc) as [Hsmall | Hlarge].
  - unfold ret. eexists. eexists. split; [reflexivity |]. split.
    + intros e He. apply in_map_iff in He. now destruct He as (d & <- & _).
    + left. split; [exact Hsmall |]. now rewrite map_map.
  - destruct (np_random_total w1) as (coin & w2 & Hcoin).
    rewrite (bind_ok _ _ _ _ _ Hcoin). unfold first_rows.
    destruct (Qltb (1 # 2) coin).
    + destruct (Z.ltb_spec div_pc 0); [lia |]. unfold ret.
      eexists. eexists. split; [reflexivity |]. split.
      * intros e He. apply in_map_iff in He. now destruct He as (d & <- & _).
      * right. split; [exact Hlarge |]. split; [| apply Hdraw].
        left. rewrite length_map, length_firstn. lia.
    + destruct (Z.ltb_spec (div_pc - 1) 0); [lia |]. unfold ret.
      eexists. eexists. split; [reflexivity |]. split.
      * intros e He. apply in_map_iff in He. now destruct He as (d & <- & _).
      * right. split; [exact Hlarge |]. split; [| apply Hdraw].
        right. rewrite length_map, length_firstn. lia.
Qed.

End PurkinjeDivergence.

(** X17.  With one row of coefficients per DCN cell and a divergence of at
    least 1, [connectome_pc_dcn] returns for every outcome of the random
    draws.  Each Purkinje cell, in the order of the population, gets a
    block of rows that start from it: all the DCN cells in their order
    when they are fewer than [div_pc]; otherwise [div_pc] or [div_pc - 1]
    of them, drawn without replacement. *)
Theorem pc_dcn_divergence (point_plane_distance : Q * Q * Q * Q -> cell -> Q) (first_dcn : Z)
    (purkinjes dcn_cells : matrix) (div_pc : Z) (dend_tree_coeff : list (Q * Q * Q * Q))
    (w : world) :
  length dend_tree_coeff = length dcn_cells ->
  (1 <= div_pc)%Z ->
  exists blocks w',
    PurkinjeDCN.connectome_pc_dcn point_plane_distance first_dcn purkinjes dcn_cells
      div_pc dend_tree_coeff w = (Ok (concat blocks), w')
    /\ Forall2
         (fun i block =>
            (forall e, In e block -> fst e = c_id i)
            /\ (((Z.of_nat (length dcn_cells) < div_pc)%Z
                 /\ map snd block = map c_id dcn_cells)
                \/ ((div_pc <= Z.of_nat (length dcn_cells))%Z
                    /\ (Z.of_nat (length block) = div_pc
                        \/ Z.of_nat (length block) = (div_pc - 1)%Z)
                    /\ exists rest,
                         Permutation (map snd block ++ rest)
                           (map (fun d => inject_Z (py_int (c_id d))) dcn_cells))))
         purkinjes blocks.
Proof.
  intros Hcoef Hdiv. unfold PurkinjeDCN.connectome_pc_dcn.
  apply for_rows_blocks. intros i w0 _.
  now apply pc_dcn_connect_purkinje_spec.
Qed.

Lemma pc_dcn_divergence_witness :
  let purkinjes := [mkCell 40 0 0 0 0] in
  let dcn := [mkCell 7 0 0 0 0; mkCell 8 0 0 0 0] in
  exists blocks w',
    PurkinjeDCN.connectome_pc_dcn Examples.example_plane_distance 7 purkinjes dcn 1
      Examples.example_planes
      (mkWorld [] [] [9 # 10]) = (Ok (concat blocks), w')
    /\ Forall2
         (fun i block =>
            (forall e, In e block -> fst e = c_id i)
            /\ (((Z.of_nat (length dcn) < 1)%Z
                 /\ map snd block = map c_id dcn)
                \/ ((1 <= Z.of_nat (length dcn))%Z
                    /\ (Z.of_nat (length block) = 1%Z
                        \/ Z.of_nat (length block) = (1 - 1)%Z)
                    /\ exists rest,
                         Permutation (map snd block ++ rest)
                           (map (fun d => inject_Z (py_int (c_id d))) dcn))))
         purkinjes blocks.
Proof.
  intros purkinjes dcn.
  apply (pc_dcn_divergence Examples.example_plane_distance 7 purkinjes dcn 1
           Examples.example_planes
           (mkWorld [] [] [9 # 10])).
  - reflexivity.
  - lia.
Defined.

(** A Purkinje cell whose coin exceeds 0.5 gets no row when the
    divergence is 0, and its coin is used up. *)
Lemma pc_dcn_zero_divergence_passes
    (point_plane_distance : Q * Q * Q * Q -> cell -> Q) (dcn_cells : matrix)
    (dend_tree_coeff : list (Q * Q * Q * Q)) (i : cell) (w : world) (coin : Q)
    (draws : list Q) :
  length dend_tree_coeff = length dcn_cells ->
  unifs w = coin :: draws ->
  1 # 2 < coin ->
  exists w',
    PurkinjeDCN.connect_purkinje point_plane_distance dcn_cells 0 dend_tree_coeff i w
    = (Ok [], w')
    /\ unifs w' = draws.
Proof.
  intros Hcoef Hdraws Hcoin.
  unfold PurkinjeDCN.connect_purkinje, PurkinjeDCN.fill_column.
  rewrite length_map, Hcoef, Nat.eqb_refl. cbn [lift]. rewrite bind_ret.
  match goal with
  | |- context [np_random_permutation ?l] =>
      destruct (np_random_permutation_spec l w) as (p & w1 & Hp & _ & _ & Hu)
  end.
  rewrite (bind_ok _ _ _ _ _ Hp).
  destruct (Z.ltb_spec (Z.of_nat (length dcn_cells)) 0); [lia |].
  assert (Hrand : np_random w1 = (Ok coin, mkWorld (mem w1) (ints w1) draws))
    by (unfold np_random; now rewrite Hu, Hdraws).
  rewrite (bind_ok _ _ _ _ _ Hrand).
  apply Qltb_lt in Hcoin. rewrite Hcoin. unfold PurkinjeDCN.first_rows.
  cbn [Z.ltb Z.compare Z.to_nat firstn map]. unfold ret.
  eexists. split; reflexivity.
Qed.

Lemma pc_dcn_zero_divergence_fails
    (point_plane_distance : Q * Q * Q * Q -> cell -> Q) (dcn_cells : matrix)
    (dend_tree_coeff : list (Q * Q * Q * Q)) (i : cell) (w : world) (coin : Q)
    (draws : list Q) :
  length dend_tree_coeff = length dcn_cells ->
  unifs w = coin :: draws ->
  coin <= 1 # 2 ->
  exists w',
    PurkinjeDCN.connect_purkinje point_plane_distance dcn_cells 0 dend_tree_coeff i w
    = (Raise ValueError, w').
Proof.
  intros Hcoef Hdraws Hcoin.
  assert (Hc : Qltb (1 # 2) coin = false).
  { destruct (Qltb (1 # 2) coin) eqn:E; [| reflexivity].
    apply Qltb_lt in E. exfalso. eapply Qlt_not_le; eauto. }
  unfold PurkinjeDCN.connect_purkinje, PurkinjeDCN.fill_column.
  rewrite length_map, Hcoef, Nat.eqb_refl. cbn [lift]. rewrite bind_ret.
  match goal with
  | |- context [np_random_permutation ?l] =>
      destruct (np_random_permutation_spec l w) as (p & w1 & Hp & _ & _ & Hu)
  end.
  rewrite (bind_ok _ _ _ _ _ Hp).
  destruct (Z.ltb_spec (Z.of_nat (length dcn_cells)) 0); [lia |].
  assert (Hrand : np_random w1 = (Ok coin, mkWorld (mem w1) (ints w1) draws))
    by (unfold np_random; now rewrite Hu, Hdraws).
  rewrite (bind_ok _ _ _ _ _ Hrand), Hc. unfold PurkinjeDCN.first_rows.
  cbn. eexists. reflexivity.
Qed.

(** X18.  A divergence of 0 is not served: the first Purkinje cell whose
    coin does not exceed 0.5, wherever it stands in the population, asks
    for a matrix of -1 rows and [connectome_pc_dcn] raises
    [ValueError]; the cells before it, whose coins exceed 0.5, get no
    row. *)
Theorem pc_dcn_zero_divergence_raises
    (point_plane_distance : Q * Q * Q * Q -> cell -> Q) (first_dcn : Z)
    (before : list cell) (i : cell) (after dcn_cells : matrix)
    (dend_tree_coeff : list (Q * Q * Q * Q)) (w : world) (coins : list Q) (coin : Q)
    (draws : list Q) :
  length dend_tree_coeff = length dcn_cells ->
  unifs w = coins ++ coin :: draws ->
  length coins = length before ->
  Forall (fun c => 1 # 2 < c) coins ->
  coin <= 1 # 2 ->
  fst (PurkinjeDCN.connectome_pc_dcn point_plane_distance first_dcn
         (before ++ i :: after) dcn_cells 0 dend_tree_coeff w)
  = Raise ValueError.
Proof.
  intros Hcoef. unfold PurkinjeDCN.connectome_pc_dcn.
  revert w coins. induction before as [| b before IH];
    intros w coins Hdraws Hlen Hall Hcoin.
  - destruct coins; [| discriminate Hlen]. cbn [app] in *.
    destruct (pc_dcn_zero_divergence_fails point_plane_distance dcn_cells
                dend_tree_coeff i w coin draws Hcoef Hdraws Hcoin) as [w' Hbody].
    cbn [for_rows]. unfold bind at 1. now rewrite Hbody.
  - destruct coins as [| c coins]; [discriminate Hlen |]. cbn [app] in *.
    apply Forall_cons_iff in Hall. destruct Hall as [Hc Hall].
    destruct (pc_dcn_zero_divergence_passes point_plane_distance dcn_cells
                dend_tree_coeff b w c (coins ++ coin :: draws) Hcoef Hdraws Hc)
      as (w1 & Hbody & Hu).
    cbn [for_rows]. rewrite (bind_ok _ _ _ _ _ Hbody).
    specialize (IH w1 coins Hu ltac:(now injection Hlen) Hall Hcoin).
    unfold bind at 1.
    destruct (for_rows _ (before ++ i :: after) w1) as [[r | e] w2];
      cbn [fst] in IH; [discriminate IH | now rewrite IH].
Qed.

Lemma pc_dcn_zero_divergence_raises_witness :
  fst (PurkinjeDCN.connectome_pc_dcn Examples.example_plane_distance 7
         ([mkCell 40 0 0 0 0] ++ mkCell 41 0 0 0 1 :: [mkCell 42 0 0 0 2])
         [mkCell 7 0 0 0 0; mkCell 8 0 0 0 5] 0 Examples.example_planes
         (mkWorld [] [] [3 # 4; 1 # 4; 9 # 10]))
  = Raise ValueError.
Proof.
  apply (pc_dcn_zero_divergence_raises Examples.example_plane_distance 7
           [mkCell 40 0 0 0 0] (mkCell 41 0 0 0 1) [mkCell 42 0 0 0 2]
           [mkCell 7 0 0 0 0; mkCell 8 0 0 0 5] Examples.example_planes
           (mkWorld [] [] [3 # 4; 1 # 4; 9 # 10]) [3 # 4] (1 # 4) [9 # 10]).
  - reflexivity.
  - reflexivity.
  - reflexivity.
  - repeat constructor.
  - vm_compute. discriminate.
Defined.

(** ** Parallel fibres onto the interneurons of the molecular layer *)




(** * The layer registry *)

Section LayerRegistry.

Import ScaffoldConfig.

Variable Layer : Type.
Variable layer_name : Layer -> string.

Lemma dict_get_set_same {V : Type} (k : string) (v : V) (d : list (string * V)) :
  dict_get k (dict_set k v d) = Some v.
Proof.
  induction d as [| [k' v'] d IH]; cbn [dict_set dict_get].
  - now rewrite String.eqb_refl.
  - destruct (String.eqb k k') eqn:E; cbn [dict_get].
    + now rewrite String.eqb_refl.
    + now rewrite E.
Qed.

Lemma dict_get_set_other {V : Type} (k k0 : string) (v : V) (d : list (string * V)) :
  k0 <> k -> dict_get k0 (dict_set k v d) = dict_get k0 d.
Proof.
  intros Hne. pose proof Hne as Hb. apply String.eqb_neq in Hb.
  induction d as [| [k' v'] d IH]; cbn [dict_set dict_get].
  - now rewrite Hb.
  - destruct (String.eqb_spec k k') as [<- | Hk]; cbn [dict_get].
    + now rewrite Hb.
    + now rewrite IH.
Qed.

Lemma dict_set_fresh {V : Type} (k : string) (v : V) (d : list (string * V)) :
  ~ In k (map fst d) -> dict_set k v d = d ++ [(k, v)].
Proof.
  induction d as [| [k' v'] d IH]; intros Hk; cbn [dict_set app]; [reflexivity |].
  cbn [map fst In] in Hk.
  destruct (String.eqb_spec k k') as [-> | Hne]; [now elim Hk; left |].
  rewrite IH; [reflexivity |]. intros H. apply Hk. now right.
Qed.

Lemma dict_set_present {V : Type} (k : string) (v : V) (d : list (string * V)) :
  In k (map fst d) -> length (dict_set k v d) = length d.
Proof.
  induction d as [| [k' v'] d IH]; intros Hk; cbn [dict_set]; [destruct Hk |].
  destruct (String.eqb_spec k k') as [-> | Hne]; [reflexivity |].
  cbn [length]. f_equal. apply IH. destruct Hk as [Hk | Hk]; [| exact Hk].
  cbn [fst] in Hk. congruence.
Qed.

Lemma registered_snoc (layers : list Layer) (layer : Layer) :
  registered layer_name (layers ++ [layer])
  = addLayer layer_name layer (registered layer_name layers).
Proof. unfold registered. now rewrite fold_left_app. Qed.

(** With fresh names the two attributes stay in step. *)
Lemma registered_fresh (layers : list Layer) :
  NoDup (map layer_name layers) ->
  Layers (registered layer_name layers) = map (fun l => (layer_name l, l)) layers
  /\ LayerIDs (registered layer_name layers) = map layer_name layers.
Proof.
  induction layers as [| layer layers IH] using rev_ind; intros Hnd.
  - split; reflexivity.
  - rewrite map_app in Hnd. cbn [map] in Hnd.
    apply NoDup_remove in Hnd. rewrite app_nil_r in Hnd. destruct Hnd as [Hnd Hfresh].
    destruct (IH Hnd) as [HL HI].
    rewrite registered_snoc. unfold addLayer. cbn [Layers LayerIDs].
    rewrite HL, HI, !map_app. cbn [map]. split; [| reflexivity].
    apply dict_set_fresh. rewrite map_map. cbn [fst]. exact Hfresh.
Qed.

Lemma list_index_nth (l : list string) :
  NoDup l ->
  forall k x, nth_error l k = Some x -> list_index x l = Some k.
Proof.
  induction l as [| y l IH]; intros Hnd k x Hk; [now destruct k |].
  apply NoDup_cons_iff in Hnd. destruct Hnd as [Hy Hnd]. cbn [list_index].
  destruct k as [| k]; cbn [nth_error] in Hk.
  - injection Hk as ->. now rewrite String.eqb_refl.
  - destruct (String.eqb_spec x y) as [-> | Hne].
    + elim Hy. eapply nth_error_In; eauto.
    + now rewrite (IH Hnd k x Hk).
Qed.

(** X20.  A layer is found by its name as soon as it is added, whatever
    the configuration held before, provided the name is not empty; the
    layers of the other names are found as before. *)
Theorem add_layer_then_get_by_name (c : config Layer) (layer : Layer) :
  layer_name layer <> EmptyString ->
  getLayer (layer_name layer) (-1) (addLayer layer_name layer c) = Ok layer
  /\ forall name,
       name <> layer_name layer ->
       getLayer name (-1) (addLayer layer_name layer c) = getLayer name (-1) c.
Proof.
  intros Hname. unfold getLayer, addLayer. cbn [Layers LayerIDs Z.ltb Z.compare].
  split.
  - apply String.eqb_neq in Hname. rewrite Hname. cbn [negb].
    now rewrite dict_get_set_same.
  - intros name Hne. destruct (negb (String.eqb name EmptyString)); [| reflexivity].
    now rewrite dict_get_set_other.
Qed.

(** X21.  On a configuration built by adding layers with names that
    differ, the id of a layer is its rank of registration:
    [getLayerID] of its name answers the rank, [getLayer] of that id
    answers the layer, and [getLayerList] lists the layers in the order
    of their registration. *)
Theorem layer_ids_follow_registration (layers : list Layer) (k : nat) (layer : Layer) :
  NoDup (map layer_name layers) ->
  nth_error layers k = Some layer ->
  getLayerID (layer_name layer) (registered layer_name layers) = Ok k
  /\ getLayer EmptyString (Z.of_nat k) (registered layer_name layers) = Ok layer
  /\ getLayerList (registered layer_name layers) = layers.
Proof.
  intros Hnd Hk. destruct (registered_fresh layers Hnd) as [HL HI].
  assert (Hvalues : dict_values (Layers (registered layer_name layers)) = layers).
  { unfold dict_values. rewrite HL, map_map. cbn [snd]. apply map_id. }
  split; [| split].
  - unfold getLayerID. rewrite HI.
    rewrite (list_index_nth _ Hnd k (layer_name layer)); [reflexivity |].
    now apply map_nth_error.
  - unfold getLayer.
    destruct (Z.ltb_spec (-1) (Z.of_nat k)); [| lia].
    rewrite HI, length_map.
    assert (k < length layers)%nat by (apply nth_error_Some; congruence).
    destruct (Z.leb_spec (Z.of_nat (length layers)) (Z.of_nat k)); [lia |].
    now rewrite Hvalues, Nat2Z.id, Hk.
  - exact Hvalues.
Qed.

(** X22.  Adding a layer under a name that is in use replaces the layer
    of that name and registers one more id: the configuration counts one
    id more than it has layers, and asking for the layer of the last id
    passes the check of the ids and raises [IndexError]. *)
Theorem duplicate_layer_name_breaks_ids (layers : list Layer) (layer : Layer) :
  NoDup (map layer_name layers) ->
  In (layer_name layer) (map layer_name layers) ->
  let c := registered layer_name (layers ++ [layer]) in
  length (LayerIDs c) = S (length (getLayerList c))
  /\ length (getLayerList c) = length layers
  /\ getLayer EmptyString (Z.of_nat (length layers)) c = Raise IndexError.
Proof.
  intros Hnd Hin c. destruct (registered_fresh layers Hnd) as [HL HI].
  assert (Hvalues : length (getLayerList c) = length layers).
  { unfold c, getLayerList, dict_values. rewrite registered_snoc. unfold addLayer.
    cbn [Layers]. rewrite length_map, dict_set_present.
    - now rewrite HL, length_map.
    - rewrite HL, map_map. cbn [fst]. exact Hin. }
  assert (Hids : length (LayerIDs c) = S (length layers)).
  { unfold c. rewrite registered_snoc. unfold addLayer. cbn [LayerIDs].
    rewrite length_app, HI, length_map. cbn [length]. lia. }
  split; [now rewrite Hids, Hvalues |]. split; [exact Hvalues |].
  unfold getLayer.
  destruct (Z.ltb_spec (-1) (Z.of_nat (length layers))); [| lia].
  rewrite Hids.
  destruct (Z.leb_spec (Z.of_nat (S (length layers))) (Z.of_nat (length layers))); [lia |].
  rewrite Nat2Z.id.
  destruct (nth_error (dict_values (Layers c)) (length layers)) as [l |] eqn:E;
    [| reflexivity].
  assert (length layers < length (dict_values (Layers c)))%nat
    by (apply nth_error_Some; congruence).
  unfold getLayerList in Hvalues. lia.
Qed.

End LayerRegistry.

Lemma add_layer_then_get_by_name_witness :
  let name := fun l : string * Q => fst l in
  let c := ScaffoldConfig.registered name [("granular"%string, 150)] in
  ScaffoldConfig.getLayer "purkinje"%string (-1)
    (ScaffoldConfig.addLayer name ("purkinje"%string, 30) c) = Ok ("purkinje"%string, 30)
  /\ forall n,
       n <> "purkinje"%string ->
       ScaffoldConfig.getLayer n (-1) (ScaffoldConfig.addLayer name ("purkinje"%string, 30) c)
       = ScaffoldConfig.getLayer n (-1) c.
Proof.
  intros name c.
  apply (add_layer_then_get_by_name (string * Q) name c ("purkinje"%string, 30)).
  discriminate.
Defined.

Lemma layer_ids_follow_registration_witness :
  let name := fun l : string * Q => fst l in
  let layers := [("granular"%string, 150); ("purkinje"%string, 30)] in
  ScaffoldConfig.getLayerID "purkinje"%string (ScaffoldConfig.registered name layers) = Ok 1%nat
  /\ ScaffoldConfig.getLayer EmptyString (Z.of_nat 1) (ScaffoldConfig.registered name layers)
     = Ok ("purkinje"%string, 30)
  /\ ScaffoldConfig.getLayerList (ScaffoldConfig.registered name layers) = layers.
Proof.
  intros name layers.
  apply (layer_ids_follow_registration (string * Q) name layers 1 ("purkinje"%string, 30)).
  - repeat constructor; cbn; intuition discriminate.
  - reflexivity.
Defined.

Lemma duplicate_layer_name_breaks_ids_witness :
  let name := fun l : string * Q => fst l in
  let layers := [("granular"%string, 150); ("purkinje"%string, 30)] in
  let c := ScaffoldConfig.registered name (layers ++ [("granular"%string, 200)]) in
  length (ScaffoldConfig.LayerIDs c) = S (length (ScaffoldConfig.getLayerList c))
  /\ length (ScaffoldConfig.getLayerList c) = length layers
  /\ ScaffoldConfig.getLayer EmptyString (Z.of_nat (length layers)) c = Raise IndexError.
Proof.
  intros name layers.
  apply (duplicate_layer_name_breaks_ids (string * Q) name layers ("granular"%string, 200)).
  - repeat constructor; cbn; intuition discriminate.
  - left. reflexivity.
Defined.

(** * Layers read from a configuration file *)

Section IniLayerFacts.

Import ScaffoldConfig.

Variable Layer : Type.
Variable layer_name : Layer -> string.
Variable new_Layer : string -> list Q -> list Q -> Layer.
Variables layer_origin layer_dimensions : Layer -> list Q.
Variable parseToMicrometer : string -> result Q.
Variable py_float : string -> result Q.

Lemma position_length (name : string) (section : list (string * string))
    (origin : list Q) :
  position py_float name section = Ok origin -> length origin = 3%nat.
Proof.
  unfold position. destruct (dict_get "position" section) as [p |].
  - unfold and_then. destruct (floats py_float (split_on comma p)) as [o | e];
      [| discriminate].
    destruct (Nat.eqb_spec (length o) 3); cbn [negb]; [| discriminate].
    intros H. now injection H as <-.
  - intros H. now injection H as <-.
Qed.

(** What a call of [iniLayer] that returns has done. *)
Lemma ini_layer_inv (name : string) (section : list (string * string))
    (c c' : config Layer) (layer : Layer) :
  iniLayer layer_name new_Layer layer_origin layer_dimensions parseToMicrometer
           py_float name section c = Ok (layer, c') ->
  exists t thickness scale x y z,
    dict_get "thickness" section = Some t
    /\ parseToMicrometer t = Ok thickness
    /\ layer = new_Layer name [x; y; z]
                         [fmul (X c) scale; thickness; fmul (Z c) scale]
    /\ c' = addLayer layer_name layer c
    /\ (forall s, dict_get "stack" section = Some s -> s <> "False"%string ->
          match rev (getLayerList c) with
          | [] => y = 0
          | previous :: _ =>
              exists py ph,
                nth_error (layer_origin previous) 1 = Some py
                /\ nth_error (layer_dimensions previous) 1 = Some ph
                /\ y = py + ph
          end)
    /\ (dict_get "xzcenter" section = Some "True"%string ->
          x = fdiv (fsub (X c) (fmul (X c) scale)) 2
          /\ z = fdiv (fsub (Z c) (fmul (Z c) scale)) 2).
Proof.
  unfold iniLayer. destruct (dict_get "thickness" section) as [t |]; [| discriminate].
  unfold and_then at 1. destruct (parseToMicrometer t) as [thickness | e] eqn:Et;
    [| discriminate].
  unfold and_then at 1. destruct (position py_float name section) as [o | e] eqn:Ep;
    [| discriminate].
  apply position_length in Ep. destruct o as [| x0 [| y0 [| z0 [| ? ?]]]]; try discriminate Ep.
  unfold and_then at 1.
  destruct (stack Layer layer_origin layer_dimensions section c [x0; y0; z0])
    as [o1 | e] eqn:Es; [| discriminate].
  unfold and_then at 1.
  destruct (match dict_get "xzscale" section with
            | Some s => py_float s
            | None => Ok 1
            end) as [scale | e]; [| discriminate].
  cbv zeta. intros H. injection H as <- <-.
  assert (Hstack : exists y,
             o1 = [x0; y; z0]
             /\ forall s, dict_get "stack" section = Some s -> s <> "False"%string ->
                  match rev (getLayerList c) with
                  | [] => y = 0
                  | previous :: _ =>
                      exists py ph,
                        nth_error (layer_origin previous) 1 = Some py
                        /\ nth_error (layer_dimensions previous) 1 = Some ph
                        /\ y = py + ph
                  end).
  { unfold stack in Es. destruct (dict_get "stack" section) as [s |].
    - destruct (String.eqb s "False") eqn:Eb.
      + apply String.eqb_eq in Eb. injection Es as <-. exists y0.
        split; [reflexivity |].
        intros s' H. injection H as <-. intros Hne. now elim Hne.
      + destruct (rev (getLayerList c)) as [| previous rest].
        * injection Es as <-. exists 0. split; [reflexivity |]. intros; reflexivity.
        * destruct (nth_error (layer_origin previous) 1) as [py |]; [| discriminate Es].
          destruct (nth_error (layer_dimensions previous) 1) as [ph |];
            [| discriminate Es].
          injection Es as <-. exists (py + ph). split; [reflexivity |].
          intros s' _ _. now exists py, ph.
    - injection Es as <-. exists y0. split; [reflexivity |]. intros s' H. discriminate H. }
  destruct Hstack as (y & -> & Hy).
  destruct (dict_get "xzcenter" section) as [s |] eqn:Ec.
  - destruct (String.eqb_spec s "True") as [-> | Hs].
    + cbn [replace_nth nth]. do 6 eexists.
      split; [reflexivity |]. split; [exact Et |]. split; [reflexivity |].
      split; [reflexivity |]. split; [exact Hy |]. intros _. split; reflexivity.
    + do 6 eexists.
      split; [reflexivity |]. split; [exact Et |]. split; [reflexivity |].
      split; [reflexivity |]. split; [exact Hy |].
      intros H. injection H as ->. now elim Hs.
  - do 6 eexists.
    split; [reflexivity |]. split; [exact Et |]. split; [reflexivity |].
    split; [reflexivity |]. split; [exact Hy |]. intros H. discriminate H.
Qed.


Hypothesis name_kept : forall n o d, layer_name (new_Layer n o d) = n.
Hypothesis origin_kept : forall n o d, layer_origin (new_Layer n o d) = o.
Hypothesis dimensions_kept : forall n o d, layer_dimensions (new_Layer n o d) = d.


(** X24.  A layer read with [xzcenter = True] is centred in the x-z plane
    of the simulation volume, whatever its scaling, up to the rounding of
    lines 289-290.  Its origin along x is what float64 computes for
    [(X - w) / 2.], where [w] is its width; the middle of its extent
    along x, [x + w / 2], then lies within [2^-52 |X - w| + 2^-1074] of
    [X / 2].  Likewise along z. *)
Theorem centered_layer_is_centered (c c' : config Layer) (name : string)
    (section : list (string * string)) (layer : Layer) :
  dict_get "xzcenter" section = Some "True"%string ->
  iniLayer layer_name new_Layer layer_origin layer_dimensions parseToMicrometer
           py_float name section c = Ok (layer, c') ->
  exists x y z w h d,
    layer_origin layer = [x; y; z] /\ layer_dimensions layer = [w; h; d]
    /\ x = fdiv (fsub (X c) w) 2
    /\ z = fdiv (fsub (Z c) d) 2
    /\ Qabs (x + w / 2 - X c / 2) <= pow2 (-52) * Qabs (X c - w) + pow2 (-1074)
    /\ Qabs (z + d / 2 - Z c / 2) <= pow2 (-52) * Qabs (Z c - d) + pow2 (-1074).
Proof.
  intros Hcenter H. apply ini_layer_inv in H.
  destruct H as (t & h & k & x & y & z & _ & _ & -> & _ & _ & Hc).
  destruct (Hc Hcenter) as [-> ->].
  rewrite origin_kept, dimensions_kept. do 6 eexists.
  split; [reflexivity |]. split; [reflexivity |].
  split; [reflexivity |]. split; [reflexivity |].
  split; apply centre_error.
Qed.

End IniLayerFacts.

Section IniLayerExample.

Import Examples.


Lemma centered_layer_is_centered_witness :
  let c := ScaffoldConfig.init example_Layer in
  let layer : example_Layer := ("purkinje"%string, ([50; 0; 50], [100; 30; 100])) in
  exists x y z w h d,
    fst (snd layer) = [x; y; z] /\ snd (snd layer) = [w; h; d]
    /\ x = fdiv (fsub (ScaffoldConfig.X c) w) 2
    /\ z = fdiv (fsub (ScaffoldConfig.Z c) d) 2
    /\ Qabs (x + w / 2 - ScaffoldConfig.X c / 2)
       <= pow2 (-52) * Qabs (ScaffoldConfig.X c - w) + pow2 (-1074)
    /\ Qabs (z + d / 2 - ScaffoldConfig.Z c / 2)
       <= pow2 (-52) * Qabs (ScaffoldConfig.Z c - d) + pow2 (-1074).
Proof.
  intros c layer.
  apply (centered_layer_is_centered example_Layer fst example_new_Layer
           (fun l => fst (snd l)) (fun l => snd (snd l)) example_number example_number
           (fun _ _ _ => eq_refl) (fun _ _ _ => eq_refl)
           c (ScaffoldConfig.addLayer fst layer c)
           "purkinje" example_purkinje layer).
  - reflexivity.
  - vm_compute. reflexivity.
Defined.

End IniLayerExample.

(** * Satellite cells *)

Section SatelliteShift.

Import Satellite.







End SatelliteShift.

(** * Finalising a cell type, building a scaffold *)

(** X26.  For a cell type declared with [MorphologyType = Geometry],
    a missing [GeometryName] and a geometry that is not registered both
    end [finalizeCellType] with a [NameError] for [name], the name that
    the two messages of [iniGeometricCell] are formatted with, and not
    with the exception that carries the message. *)
Theorem missing_geometry_raises_name_error
    (CellType Geometry PlacementStrategy : Type) (cell_name : CellType -> string)
    (cell_ratio : CellType -> option Q) (cell_ratioTo : CellType -> string)
    (setGeometry : CellType -> Geometry -> CellType)
    (setPlacementStrategy : CellType -> PlacementStrategy -> CellType)
    (Geometries : list (string * Geometry))
    (PlacementStrategies : list (string * PlacementStrategy))
    (CellTypes : list (string * CellType))
    (cellType : CellType) (section : list (string * string)) :
  ScaffoldConfig.dict_get "morphologytype" section = Some "Geometry"%string ->
  (forall geometryName geometry,
      ScaffoldConfig.dict_get "geometryname" section = Some geometryName ->
      ScaffoldConfig.dict_get geometryName Geometries = Some geometry -> False) ->
  ScaffoldIniConfig.finalizeCellType CellType Geometry PlacementStrategy cell_name
    cell_ratio cell_ratioTo setGeometry setPlacementStrategy Geometries
    PlacementStrategies CellTypes cellType section
  = Raise (NameError "name").
Proof.
  intros Hmorpho Hmissing. unfold ScaffoldIniConfig.finalizeCellType.
  rewrite Hmorpho. cbn [String.eqb Ascii.eqb Bool.eqb andb].
  unfold ScaffoldIniConfig.iniGeometricCell.
  destruct (ScaffoldConfig.dict_get "geometryname" section) as [g |] eqn:Eg;
    [| reflexivity].
  destruct (ScaffoldConfig.dict_get g Geometries) as [geo |] eqn:Egeo; [| reflexivity].
  elim (Hmissing g geo eq_refl Egeo).
Qed.

Lemma missing_geometry_raises_name_error_witness :
  ScaffoldIniConfig.finalizeCellType string Q Q (fun c => c) (fun _ => None) (fun c => c)
    (fun c _ => c) (fun c _ => c) [("sphere"%string, 1)] [("layered"%string, 2)] []
    "granule"%string
    [("morphologytype", "Geometry"); ("geometryname", "cube");
     ("placementstrategy", "layered")]%string
  = Raise (NameError "name").
Proof.
  apply (missing_geometry_raises_name_error string Q Q (fun c => c) (fun _ => None)
           (fun c => c) (fun c _ => c) (fun c _ => c)
           [("sphere"%string, 1)] [("layered"%string, 2)] [] "granule"%string
           [("morphologytype", "Geometry"); ("geometryname", "cube");
            ("placementstrategy", "layered")]%string).
  - reflexivity.
  - intros g geo Hg Hgeo. cbn in Hg. injection Hg as <-. discriminate Hgeo.
Defined.

Section ScaffoldConstruction.

Variables Layer CellType PlacementStrategy : Type.
Variable initialise_layer : Layer -> result unit.
Variable initialise_cell : CellType -> result unit.
Variable initialise_placement : PlacementStrategy -> result unit.

Lemma initialise_each_all {A : Type} (initialise : A -> result unit)
    (items : list (string * A)) :
  (forall item, In item (map snd items) -> initialise item = Ok tt) ->
  Scaffold.initialise_each initialise items = Ok tt.
Proof.
  induction items as [| [k item] items IH]; intros H; cbn [Scaffold.initialise_each].
  - reflexivity.
  - rewrite (H item (or_introl eq_refl)). cbn [ScaffoldConfig.and_then].
    apply IH. intros i Hi. apply H. now right.
Qed.

(** X27.  No scaffold is ever built: whatever the configuration holds and
    whatever its components do, the constructor of [Scaffold] does not
    return; when the statistics and every component initialise, it ends
    in [initLegacyCode] with a [NameError] for [placement_stats]. *)
Theorem scaffold_is_never_built (Statistics : result unit)
    (Layers : list (string * Layer)) (CellTypes : list (string * CellType))
    (PlacementStrategies : list (string * PlacementStrategy)) :
  (forall u,
      Scaffold.init Layer CellType PlacementStrategy initialise_layer initialise_cell
        initialise_placement Statistics Layers CellTypes PlacementStrategies <> Ok u)
  /\ (Statistics = Ok tt ->
      (forall l, In l (map snd Layers) -> initialise_layer l = Ok tt) ->
      (forall c, In c (map snd CellTypes) -> initialise_cell c = Ok tt) ->
      (forall p, In p (map snd PlacementStrategies) -> initialise_placement p = Ok tt) ->
      Scaffold.init Layer CellType PlacementStrategy initialise_layer initialise_cell
        initialise_placement Statistics Layers CellTypes PlacementStrategies
      = Raise (NameError "placement_stats")).
Proof.
  split.
  - intros u. unfold Scaffold.init, Scaffold.initLegacyCode.
    destruct Statistics as [[] | e]; cbn [ScaffoldConfig.and_then]; [| discriminate].
    destruct (Scaffold.initialiseComponents _ _ _ _ _ _ _ _ _) as [[] | e];
      cbn [ScaffoldConfig.and_then]; discriminate.
  - intros -> Hl Hc Hp. unfold Scaffold.init, Scaffold.initialiseComponents.
    cbn [ScaffoldConfig.and_then].
    rewrite (initialise_each_all _ _ Hl). cbn [ScaffoldConfig.and_then].
    rewrite (initialise_each_all _ _ Hc). cbn [ScaffoldConfig.and_then].
    rewrite (initialise_each_all _ _ Hp). reflexivity.
Qed.

End ScaffoldConstruction.
